(** * Skyplot: field sampling, particle advection and overlay gating

    A shallow embedding of [app/components/windplot.tsx].  JavaScript
    numbers are IEEE-754 binary64 values; they are modelled by the
    [spec_float] type of the standard library, with every arithmetic
    operation rounded exactly as the binary64 format prescribes.  Array
    indices and loop counters, which the program keeps integral and far
    below 2^53, are modelled by [Z]. *)

From Stdlib Require Import ZArith Lia Bool List String.
From Stdlib Require Import Floats.SpecFloat.
From stdpp Require Import base list.

Local Open Scope Z_scope.

(** ** JavaScript numbers *)

Module JsNum.

Definition number := spec_float.

Definition prec : Z := 53.
Definition emax : Z := 1024.

Definition NaN : number := S754_nan.

Definition add : number -> number -> number := SFadd prec emax.
Definition sub : number -> number -> number := SFsub prec emax.
Definition mul : number -> number -> number := SFmul prec emax.
Definition div : number -> number -> number := SFdiv prec emax.
Definition Math_sqrt : number -> number := SFsqrt prec emax.
Definition neg : number -> number := SFopp.

(** The number denoted by an integer literal, correctly rounded. *)
Definition ofZ (n : Z) : number := binary_normalize prec emax n 0 false.

(** The number denoted by the decimal literal [m / 10^k].  Both [m] and
    [10^k] are below 2^53 for every literal of the program, so the one
    rounding of the division yields the double nearest to the decimal. *)
Definition dec (m : Z) (k : Z) : number := div (ofZ m) (ofZ (10 ^ k)).

(** Comparison operators [<], [>], [<=], [>=]; all false on NaN. *)
Definition lt (x y : number) : bool := SFltb x y.
Definition gt (x y : number) : bool := SFltb y x.
Definition le (x y : number) : bool := SFleb x y.
Definition ge (x y : number) : bool := SFleb y x.
(** Strict equality [===] on numbers. *)
Definition eqb (x y : number) : bool := SFeqb x y.

Definition isNaN (x : number) : bool :=
  match x with S754_nan => true | _ => false end.

(** [Number.isFinite]. *)
Definition isFinite (x : number) : bool :=
  match x with
  | S754_zero _ | S754_finite _ _ _ => true
  | _ => false
  end.

(** Largest integer not above a finite number; [None] on NaN and the
    infinities. *)
Definition floorZ (x : number) : option Z :=
  match x with
  | S754_zero _ => Some 0
  | S754_finite s m e =>
      let n := cond_Zopp s (Z.pos m) in
      Some (if 0 <=? e then n * 2 ^ e else n / 2 ^ (- e))
  | _ => None
  end.

(** [Math.floor]. *)
Definition Math_floor (x : number) : number :=
  match x with
  | S754_finite s m e =>
      if 0 <=? e then x
      else binary_normalize prec emax (cond_Zopp s (Z.pos m) / 2 ^ (- e)) 0 s
  | _ => x
  end.

(** [Math.round]: nearest integer, ties towards +infinity. *)
Definition Math_round (x : number) : number :=
  match x with
  | S754_finite s m e =>
      if 0 <=? e then x
      else binary_normalize prec emax
             ((2 * cond_Zopp s (Z.pos m) + 2 ^ (- e)) / 2 ^ (1 - e)) 0 s
  | _ => x
  end.

(** The remainder operator [%]: the result has the sign of the dividend
    and is always exact. *)
Definition rem (x y : number) : number :=
  match x, y with
  | S754_nan, _ | _, S754_nan => NaN
  | S754_infinity _, _ => NaN
  | _, S754_zero _ => NaN
  | S754_zero _, _ => x
  | S754_finite _ _ _, S754_infinity _ => x
  | S754_finite sx mx ex, S754_finite _ my ey =>
      let e := Z.min ex ey in
      let X := Z.pos mx * 2 ^ (ex - e) in
      let Y := Z.pos my * 2 ^ (ey - e) in
      binary_normalize prec emax (cond_Zopp sx (X mod Y)) e sx
  end.

(** [Math.max] and [Math.min] of two arguments. *)
Definition Math_max (x y : number) : number :=
  match x, y with
  | S754_nan, _ | _, S754_nan => NaN
  | S754_zero sx, S754_zero sy => S754_zero (sx && sy)
  | _, _ => if lt x y then y else x
  end.

Definition Math_min (x y : number) : number :=
  match x, y with
  | S754_nan, _ | _, S754_nan => NaN
  | S754_zero sx, S754_zero sy => S754_zero (sx || sy)
  | _, _ => if lt y x then y else x
  end.

(** The exact integer held by an integral number, as used for an array
    index; [None] when the number is not an integer. *)
Definition toInt (x : number) : option Z :=
  match x with
  | S754_zero _ => Some 0
  | S754_finite s m e =>
      if 0 <=? e then Some (cond_Zopp s (Z.pos m) * 2 ^ e)
      else if Z.pos m mod 2 ^ (- e) =? 0
           then Some (cond_Zopp s (Z.pos m) / 2 ^ (- e))
           else None
  | _ => None
  end.

(** Storing into a [Float32Array] rounds to binary32; reading widens
    back without change. *)
Definition fround (x : number) : number :=
  match x with
  | S754_finite s m e =>
      match binary_round 24 128 s m e with
      | S754_finite s' m' e' => binary_round prec emax s' m' e'
      | y => y
      end
  | _ => x
  end.

End JsNum.

Import JsNum.


(** ** The wind grid and its sampler *)

Record GridMeta := {
  nx : Z;
  ny : Z;
  lo1 : number;
  la1 : number;
  dx : number;
  dy : number
}.

(** A typed array read [A[k]].  The index is [None] when the index
    expression is not a number usable as an index (NaN); reads outside
    the array give [undefined], here [None]. *)
Definition readAt (A : list number) (k : option Z) : option number :=
  match k with
  | Some k => if 0 <=? k then A !! Z.to_nat k else None
  | None => None
  end.

(** [undefined] used in arithmetic converts to NaN. *)
Definition toNumber (v : option number) : number :=
  match v with
  | Some x => x
  | None => NaN
  end.

Section Sampler.

Variable g : GridMeta.

(** [const idx = (j, i) => j * nx + ((i + nx) % nx)], on numbers: the
    sum [i + nx] and the product [j * nx] round as every binary64
    operation does, and a zero [nx] gives NaN. *)
Definition idx (j i : number) : number :=
  add (mul j (ofZ (nx g))) (rem (add i (ofZ (nx g))) (ofZ (nx g))).

(** [A[k]] used as a number: the entry when [k] is an integer inside
    the array, NaN (from [undefined]) otherwise. *)
Definition sampleAt (A : list number) (k : number) : number :=
  toNumber (readAt A (toInt k)).

Definition normalizeLon (lon : number) : number :=
  let normalized := sub (rem (add lon (ofZ 180)) (ofZ 360)) (ofZ 180) in
  let normalized :=
    if lt normalized (ofZ (-180)) then add normalized (ofZ 360) else normalized in
  let normalized :=
    if gt normalized (ofZ 180) then sub normalized (ofZ 360) else normalized in
  normalized.

(** Fractional grid coordinates of a position. *)
Definition gridI (lon : number) : number :=
  div (rem (add (sub (normalizeLon lon) (lo1 g)) (ofZ 360)) (ofZ 360)) (dx g).

Definition gridJ (lat : number) : number :=
  div (sub (la1 g) lat) (dy g).

Definition bilinear (g00 g10 g01 g11 fi fj : number) : number :=
  add (add (add (mul (mul g00 (sub (ofZ 1) fi)) (sub (ofZ 1) fj))
                (mul (mul g10 fi) (sub (ofZ 1) fj)))
           (mul (mul g01 (sub (ofZ 1) fi)) fj))
      (mul (mul g11 fi) fj).

Definition interp (A : list number) (i j : number) : number :=
  let i0 := Math_floor i in
  let j0 := Math_floor j in
  let fi := sub i i0 in
  let fj := sub j j0 in
  let g00 := sampleAt A (idx j0 i0) in
  let g10 := sampleAt A (idx j0 (add i0 (ofZ 1))) in
  let g01 := sampleAt A (idx (add j0 (ofZ 1)) i0) in
  let g11 := sampleAt A (idx (add j0 (ofZ 1)) (add i0 (ofZ 1))) in
  bilinear g00 g10 g01 g11 fi fj.

(** The cell of a fractional coordinate as an integer, when it is one;
    and the four samples [g00, g10, g01, g11] that [interp] reads at a
    position. *)
Definition cellOf (c : number) : option Z := toInt (Math_floor c).

Definition neighbours (A : list number) (lon lat : number) : list number :=
  let i0 := Math_floor (gridI lon) in
  let j0 := Math_floor (gridJ lat) in
  [sampleAt A (idx j0 i0);
   sampleAt A (idx j0 (add i0 (ofZ 1)));
   sampleAt A (idx (add j0 (ofZ 1)) i0);
   sampleAt A (idx (add j0 (ofZ 1)) (add i0 (ofZ 1)))].

(** The fractional offsets [fi], [fj] of a position inside its cell. *)
Definition frac (c : number) : number := sub c (Math_floor c).

Record Wind := { u : number; v : number }.

Definition windAt (U V : list number) (lon lat : number) : Wind :=
  let i := gridI lon in
  let j := gridJ lat in
  {| u := interp U i j; v := interp V i j |}.

End Sampler.

(** ** Configurable constants *)

Definition GLOBE_RADIUS : number := ofZ 200.
Definition PARTICLE_LIFE : number := ofZ 601.
Definition SPEED_FACTOR : number := dec 8 3.
Definition TEMP_OVERLAY_ALPHA : number := dec 35 2.
Definition OVERLAY_ALPHA : number := dec 4 1.

Inductive OverlayMode := ModeWind | ModeTemperature | ModeNone.

(** ** Loading the levels

    The loaders receive the manifest's files already fetched and parsed.
    A JSON [data] array holds numbers and [null]s. *)

Record WindHeader := {
  h_nx : Z;
  h_ny : Z;
  h_lo1 : number;
  h_la1 : number;
  h_dx : number;
  h_dy : number;
  surface1Type : Z;
  surface1Value : number
}.

Record WindObj := {
  header : WindHeader;
  data : list (option number)
}.

(** The template strings [`${surface1Value} m`] and
    [`${surface1Value} hPa`]. *)
Inductive Label :=
  | LabelMetres (value : number)
  | LabelHPa (value : number).

Record WindLevel := {
  wl_label : Label;
  wl_U : list number;
  wl_V : list number;
  wl_S : list number
}.

Record TempLevel := {
  tl_label : Label;
  tl_T : list number
}.

Definition metaOf (h : WindHeader) : GridMeta :=
  {| nx := h_nx h; ny := h_ny h; lo1 := h_lo1 h; la1 := h_la1 h;
     dx := h_dx h; dy := h_dy h |}.

Definition labelOf (h : WindHeader) : Label :=
  if surface1Type h =? 103 then LabelMetres (surface1Value h)
  else LabelHPa (surface1Value h).

(** [new Float32Array(d.map(x => x ?? NaN))]. *)
Definition to32 (d : list (option number)) : list number :=
  map (fun x => fround (toNumber x)) d.

(** The speed array: [S[j]] is computed from [U[j]] and [V[j]] for every
    [j < U.length]; a read of [V] past its end is [undefined]. *)
Definition speedAt (U V : list number) (j : nat) : number :=
  let u := toNumber (U !! j) in
  match V !! j with
  | Some v =>
      if isFinite u && isFinite v
      then fround (Math_sqrt (add (mul u u) (mul v v)))
      else NaN
  | None => NaN
  end.

Definition speedOverlay (U V : list number) : list number :=
  map (speedAt U V) (seq 0 (length U)).

(** State threaded through a loader: the grid metadata reference and the
    levels pushed so far. *)
Definition LoadState (L : Type) : Type := option GridMeta * list L.

(** One iteration of the wind loader over a file [uv]. *)
Definition loadWindFile (st : LoadState WindLevel) (uv : list WindObj)
  : LoadState WindLevel :=
  match uv !! 0%nat, uv !! 1%nat with
  | Some vObj, Some uObj =>
      let meta :=
        match fst st with
        | Some m => Some m
        | None => Some (metaOf (header vObj))
        end in
      let U := to32 (data uObj) in
      let V := to32 (data vObj) in
      (meta, snd st ++ [ {| wl_label := labelOf (header vObj);
                            wl_U := U; wl_V := V;
                            wl_S := speedOverlay U V |} ])
  | _, _ => st
  end.

Definition loadWind (files : list (list WindObj)) : LoadState WindLevel :=
  fold_left loadWindFile files (None, []).

(** *** Files that do not have the declared type

    The files are parsed JSON, and nothing checks them against
    [WindObj]: a record can lack its header, and its [data] can be
    something else than an array.  [RawData] tells apart what the
    loaders' property reads and method calls tell apart. *)
Inductive RawData :=
  | DataAbsent                            (* undefined, null or another falsy value *)
  | DataArray (d : list (option number))  (* an array of numbers and nulls *)
  | DataString                            (* a non-empty string: it has [slice], no [map] *)
  | DataOther.                            (* another truthy value: no [slice], no [map] *)

(** A record of a file; [rawHeader] is [None] when the record has no
    header (undefined or null). *)
Record RawObj := {
  rawHeader : option WindHeader;
  rawData : RawData
}.

(** The state of the wind loader: the grid metadata reference, and the
    levels pushed so far, [None] once an exception has left the loop
    (the promise rejects and [setLevels] is never called). *)
Definition WindLoad : Type := option GridMeta * option (list WindLevel).

(** One iteration of the wind loader over a file [uv] whose entries may
    be falsy ([None]).  Destructuring an absent [vObj.header] throws,
    before the metadata is set; [d.map] throws when [d] is not an
    array, after it is set. *)
Definition loadWindFileRaw (st : WindLoad) (uv : list (option RawObj)) : WindLoad :=
  match snd st with
  | None => st
  | Some next =>
      match mjoin (uv !! 0%nat), mjoin (uv !! 1%nat) with
      | Some vObj, Some uObj =>
          match rawHeader vObj with
          | None => (fst st, None)
          | Some h =>
              let meta :=
                match fst st with
                | Some m => Some m
                | None => Some (metaOf h)
                end in
              match rawData uObj, rawData vObj with
              | DataArray du, DataArray dv =>
                  let U := to32 du in
                  let V := to32 dv in
                  (meta, Some (next ++ [ {| wl_label := labelOf h;
                                            wl_U := U; wl_V := V;
                                            wl_S := speedOverlay U V |} ]))
              | _, _ => (meta, None)
              end
          end
      | _, _ => st
      end
  end.

Definition loadWindRaw (files : list (list (option RawObj))) : WindLoad :=
  fold_left loadWindFileRaw files (None, Some []).

(** One iteration of the temperature loader, whose body is inside
    [try { ... } catch { continue }]; [tObj] is [None] when the parsed
    file is falsy or the fetch threw.  A falsy header or [data] skips
    the file.  [tObj.data.slice(0, 10)], an argument of the logging
    call, throws for a value without [slice], before the metadata is
    set; [tObj.data.map] throws for a string, after it is set.  Every
    exception skips the file. *)
Definition loadTempFile (st : LoadState TempLevel) (tObj : option RawObj)
  : LoadState TempLevel :=
  match tObj with
  | Some o =>
      match rawHeader o with
      | Some h =>
          let meta :=
            match fst st with
            | Some m => Some m
            | None => Some (metaOf h)
            end in
          match rawData o with
          | DataAbsent => st
          | DataOther => st
          | DataString => (meta, snd st)
          | DataArray d => (meta, snd st ++ [ {| tl_label := labelOf h; tl_T := to32 d |} ])
          end
      | None => st
      end
  | None => st
  end.

Definition loadTemp (files : list (option RawObj)) : LoadState TempLevel :=
  fold_left loadTempFile files (None, []).

(** The header conditions the data model asks of a level. *)
Definition wellFormed (h : WindHeader) (d : list (option number)) : bool :=
  (2 <=? h_nx h) && gt (h_dx h) (ofZ 0)
  && (Z.of_nat (length d) =? h_nx h * h_ny h).

(** ** Temperature colour scale *)

Record RGBA := { cr : number; cg : number; cb : number; ca : number }.

Definition transparent : RGBA :=
  {| cr := ofZ 0; cg := ofZ 0; cb := ofZ 0; ca := ofZ 0 |}.

Definition minTemp : number := ofZ (-80).
Definition maxTemp : number := ofZ 50.

Definition toCelsius (tempValue : number) : number :=
  if gt tempValue (ofZ 100) then sub tempValue (dec 27315 2) else tempValue.

Definition clampTemp (tempC : number) : number :=
  Math_max minTemp (Math_min maxTemp tempC).

Definition normTemp (tempValue : number) : number :=
  div (sub (clampTemp (toCelsius tempValue)) minTemp) (sub maxTemp minTemp).

(** [Math.round(a * (1 - scale) + b * scale)]. *)
Definition mix (a b : Z) (scale : number) : number :=
  Math_round (add (mul (ofZ a) (sub (ofZ 1) scale)) (mul (ofZ b) scale)).

Definition rampRGB (t : number) : number * number * number :=
  if lt t (dec 10 2) then
    let scale := div t (dec 10 2) in
    (Math_round (add (ofZ 80) (mul scale (ofZ 30))),
     Math_round (add (ofZ 20) (mul scale (ofZ 40))),
     Math_round (add (ofZ 120) (mul scale (ofZ 60))))
  else if lt t (dec 25 2) then
    let scale := div (sub t (dec 10 2)) (dec 15 2) in
    (mix 110 50 scale, mix 60 120 scale, mix 180 220 scale)
  else if lt t (dec 40 2) then
    let scale := div (sub t (dec 25 2)) (dec 15 2) in
    (mix 50 80 scale, mix 120 180 scale, mix 220 240 scale)
  else if lt t (dec 50 2) then
    let scale := div (sub t (dec 40 2)) (dec 10 2) in
    (mix 80 100 scale, mix 180 220 scale, mix 240 240 scale)
  else if lt t (dec 60 2) then
    let scale := div (sub t (dec 50 2)) (dec 10 2) in
    (mix 100 160 scale, mix 220 240 scale, mix 240 180 scale)
  else if lt t (dec 70 2) then
    let scale := div (sub t (dec 60 2)) (dec 10 2) in
    (mix 160 220 scale, mix 240 250 scale, mix 180 120 scale)
  else if lt t (dec 78 2) then
    let scale := div (sub t (dec 70 2)) (dec 8 2) in
    (mix 220 255 scale, mix 250 240 scale, mix 120 60 scale)
  else if lt t (dec 86 2) then
    let scale := div (sub t (dec 78 2)) (dec 8 2) in
    (Math_round (ofZ 255), mix 240 160 scale, mix 60 20 scale)
  else if lt t (dec 93 2) then
    let scale := div (sub t (dec 86 2)) (dec 7 2) in
    (mix 255 250 scale, mix 160 80 scale, mix 20 15 scale)
  else if lt t (dec 97 2) then
    let scale := div (sub t (dec 93 2)) (dec 4 2) in
    (mix 250 220 scale, mix 80 30 scale, mix 15 10 scale)
  else
    let scale := div (sub t (dec 97 2)) (dec 3 2) in
    (mix 220 180 scale, mix 30 10 scale, mix 10 5 scale).

Definition tempColorScale (tempValue alpha : number) : RGBA :=
  if negb (isFinite tempValue) then transparent
  else
    let '(r, g, b) := rampRGB (normTemp tempValue) in
    {| cr := r; cg := g; cb := b; ca := Math_floor (mul alpha (ofZ 255)) |}.

(** ** Vectors

    The operations of [THREE.Vector3] that the program calls. *)

Module Vec3.

Record t := { x : number; y : number; z : number }.

Definition dot (a b : t) : number :=
  add (add (mul (x a) (x b)) (mul (y a) (y b))) (mul (z a) (z b)).

Definition length (a : t) : number := Math_sqrt (dot a a).

Definition multiplyScalar (a : t) (s : number) : t :=
  {| x := mul (x a) s; y := mul (y a) s; z := mul (z a) s |}.

Definition addv (a b : t) : t :=
  {| x := add (x a) (x b); y := add (y a) (y b); z := add (z a) (z b) |}.

Definition subv (a b : t) : t :=
  {| x := sub (x a) (x b); y := sub (y a) (y b); z := sub (z a) (z b) |}.

(** [divideScalar(length() || 1)]: a zero or NaN length is replaced by 1. *)
Definition normalize (a : t) : t :=
  let l := length a in
  let l := match l with
           | S754_zero _ | S754_nan => ofZ 1
           | _ => l
           end in
  multiplyScalar a (div (ofZ 1) l).

End Vec3.

(** ** The particle system *)

Definition Math_PI : number := S754_finite false 7074237752028440 (-51).

Definition degToRad (degrees : number) : number :=
  mul degrees (div Math_PI (ofZ 180)).

(** [THREE.MathUtils.clamp]. *)
Definition clamp (value lo hi : number) : number := Math_max lo (Math_min hi value).

Record Particle := { lon : number; lat : number; age : number }.

(** One particle's slot of [prevXY]; [NaN] marks an absent position. *)
Definition PrevXY : Type := number * number.
Definition noPrev : PrevXY := (NaN, NaN).

(** A stroked trail segment with the canvas state it was drawn under. *)
Record Segment := {
  seg_x0 : number; seg_y0 : number;
  seg_x1 : number; seg_y1 : number;
  strokeStyle : string;
  globalAlpha : number
}.

Definition trailColor (overlayMode : OverlayMode) (u v : number) : string :=
  match overlayMode with
  | ModeTemperature => "rgba(255,255,255,0.9)"
  | _ => "rgba(255,255,255,0.7)"
  end.

(** [Math.min(1.0, 0.1 + (PARTICLE_LIFE - p.age) / PARTICLE_LIFE * 0.9)]. *)
Definition trailAlpha (age : number) : number :=
  Math_min (ofZ 1)
      (add (dec 1 1)
           (mul (div (sub PARTICLE_LIFE age) PARTICLE_LIFE) (dec 9 1))).

(** The particle built by [recycle] (age 0) and by the initial spawn
    (random age) from successive draws of [Math.random()]. *)
Definition fresh (r1 r2 : number) : Particle :=
  {| lon := sub (mul r1 (ofZ 360)) (ofZ 180);
     lat := sub (mul r2 (ofZ 180)) (ofZ 90);
     age := ofZ 0 |}.

Definition spawn (r1 r2 r3 : number) : Particle :=
  {| lon := sub (mul r1 (ofZ 360)) (ofZ 180);
     lat := sub (mul r2 (ofZ 180)) (ofZ 90);
     age := mul r3 PARTICLE_LIFE |}.

Section Particles.

(** Host functions: the transcendental functions of [Math], and the
    camera of the scene. *)
Variable Math_cos Math_sin : number -> number.
Variable Math_hypot : number -> number -> number.
Variable project : Vec3.t -> Vec3.t.
Variable cameraPosition : Vec3.t.
Variable rendererSize : number * number.
Variable canvasSize : number * number.

Variable g : GridMeta.
Variable U V : list number.
Variable overlayMode : OverlayMode.

Definition lonLatToVec3 (lon lat r : number) : Vec3.t :=
  let phi := degToRad lat in
  let lam := degToRad lon in
  {| Vec3.x := mul (mul r (Math_cos phi)) (Math_sin lam);
     Vec3.y := mul r (Math_sin phi);
     Vec3.z := mul (mul r (Math_cos phi)) (Math_cos lam) |}.

Definition worldToScreen (w : Vec3.t) : option (number * number) :=
  let vec := project w in
  if gt (Vec3.z vec) (ofZ 1) then None
  else Some (mul (add (mul (Vec3.x vec) (dec 5 1)) (dec 5 1)) (fst rendererSize),
             mul (add (mul (neg (Vec3.y vec)) (dec 5 1)) (dec 5 1)) (snd rendererSize)).

(** What one iteration of [particles.forEach] leaves behind: the
    particle and its [prevXY] slot, and the segment stroked, if any. *)
Record Step := {
  particle : Particle;
  prev : PrevXY;
  drawn : option Segment
}.

(** [recycle(i)]; [r1], [r2] are the two draws of [Math.random()]. *)
Definition recycle (r1 r2 : number) : Step :=
  {| particle := fresh r1 r2; prev := noPrev; drawn := None |}.

(** The position and age a particle is advanced to by the wind [w]:
    the longitude and latitude steps, the clamp applied when the
    latitude has left [[-90, 90]], and the incremented age. *)
Definition advance (p : Particle) (w : Wind) : Particle :=
  let lon1 :=
    sub (rem (add (add (lon p)
                       (div (mul (u w) SPEED_FACTOR)
                            (Math_cos (degToRad (lat p)))))
                  (ofZ 180))
             (ofZ 360))
        (ofZ 180) in
  let lat1 := add (lat p) (mul (v w) SPEED_FACTOR) in
  let crossed := gt lat1 (ofZ 90) || lt lat1 (ofZ (-90)) in
  let lat2 :=
    if crossed then clamp lat1 (neg (dec 89999 3)) (dec 89999 3) else lat1 in
  let lon2 :=
    if crossed then sub (rem (add lon1 (ofZ 180)) (ofZ 360)) (ofZ 180) else lon1 in
  {| lon := lon2; lat := lat2; age := add (age p) (ofZ 1) |}.

(** One iteration of [particles.forEach].  The slot of [prevXY] is
    read into [sx0], [sy0] before the position is advanced; every
    later path overwrites or clears the slot, so the [clearPrev] of
    the pole branch leaves no trace of its own. *)
Definition updateParticle (p : Particle) (prevXY : PrevXY) (r1 r2 : number) : Step :=
  let w := windAt g U V (lon p) (lat p) in
  if negb (isFinite (u w)) || negb (isFinite (v w)) then recycle r1 r2
  else
    let '(sx0, sy0) := prevXY in
    let prevLon := lon p in
    let prevLat := lat p in
    let p' := advance p w in
    if gt (age p') PARTICLE_LIFE then recycle r1 r2
    else
      let camDir := Vec3.normalize cameraPosition in
      let worldPos := lonLatToVec3 (lon p') (lat p') (add GLOBE_RADIUS (dec 5 1)) in
      let prevWorldPos := lonLatToVec3 prevLon prevLat (add GLOBE_RADIUS (dec 5 1)) in
      let visibleNow := gt (Vec3.dot (Vec3.normalize worldPos) camDir) (ofZ 0) in
      let visiblePrev := gt (Vec3.dot (Vec3.normalize prevWorldPos) camDir) (ofZ 0) in
      if negb visibleNow || negb visiblePrev
      then {| particle := p'; prev := noPrev; drawn := None |}
      else
        match worldToScreen worldPos with
        | None => {| particle := p'; prev := noPrev; drawn := None |}
        | Some (sx1, sy1) =>
            let sMin := mul (Math_min (fst canvasSize) (snd canvasSize)) (dec 4 1) in
            {| particle := p';
               prev := (fround sx1, fround sy1);
               drawn :=
                 if negb (isNaN sx0)
                    && le (Math_hypot (sub sx1 sx0) (sub sy1 sy0)) sMin
                 then Some {| seg_x0 := sx0; seg_y0 := sy0;
                              seg_x1 := sx1; seg_y1 := sy1;
                              strokeStyle := trailColor overlayMode (u w) (v w);
                              globalAlpha := trailAlpha (age p') |}
                 else None |}
        end.

End Particles.

(** ** The overlay pass *)

(** The four bytes of one pixel of the [ImageData] buffer. *)
Record Pixel := { pr : Z; pg : Z; pb : Z; pa : Z }.

(** [for (let x = 0; x < hi; x += step)]. *)
Definition stepRange (hi step : Z) : list Z :=
  (fun k => k * step) <$> seqZ 0 ((hi + step - 1) / step).

(** [for (let dx = 0; dx < step && x + dx < width; dx++)]. *)
Definition blockRange (x step width : Z) : list Z :=
  seqZ 0 (Z.min step (width - x)).

Section Overlay.

Variable unproject : Vec3.t -> Vec3.t.
Variable cameraPosition : Vec3.t.
Variable Math_atan2 : number -> number -> number.
Variable Math_asin : number -> number.

Variable width height : Z.
Variable overlayMode : OverlayMode.
Variable airModeEnabled isMoving : bool.

(** The colouring of a sample that passed the visibility tests: the
    wind branch or the temperature branch of the pass.  [None] when
    the branch writes nothing for the sample; otherwise the colour
    written at each offset [(dx, dy)] of the sample's block. *)
Variable shade : number -> number -> Z -> Z -> option (Z -> Z -> Pixel).

Definition step : Z :=
  match overlayMode with
  | ModeTemperature => Z.max 1 (Z.min width height / 800)
  | _ => Z.max 1 (Z.min width height / 600)
  end.

Definition camDir : Vec3.t := Vec3.normalize cameraPosition.

Definition rayDirection (x y : Z) : Vec3.t :=
  let ndcX := sub (mul (div (ofZ x) (ofZ width)) (ofZ 2)) (ofZ 1) in
  let ndcY := add (mul (neg (div (ofZ y) (ofZ height))) (ofZ 2)) (ofZ 1) in
  let screenPoint :=
    unproject {| Vec3.x := ndcX; Vec3.y := ndcY; Vec3.z := dec 5 1 |} in
  Vec3.normalize (Vec3.subv screenPoint cameraPosition).

Definition quadA (x y : Z) : number :=
  Vec3.dot (rayDirection x y) (rayDirection x y).

Definition quadB (x y : Z) : number :=
  mul (ofZ 2) (Vec3.dot cameraPosition (rayDirection x y)).

Definition quadC : number :=
  sub (Vec3.dot cameraPosition cameraPosition) (mul GLOBE_RADIUS GLOBE_RADIUS).

Definition discriminant (x y : Z) : number :=
  sub (mul (quadB x y) (quadB x y)) (mul (mul (ofZ 4) (quadA x y)) quadC).

(** The nearer root of the ray and sphere equation. *)
Definition nearRoot (x y : Z) : number :=
  div (sub (neg (quadB x y)) (Math_sqrt (discriminant x y)))
      (mul (ofZ 2) (quadA x y)).

Definition intersectionPoint (x y : Z) : Vec3.t :=
  Vec3.addv cameraPosition (Vec3.multiplyScalar (rayDirection x y) (nearRoot x y)).

(** Dot product of the surface normal at the intersection with the
    camera direction. *)
Definition facing (x y : Z) : number :=
  Vec3.dot (Vec3.normalize (intersectionPoint x y)) camDir.

Definition pointLon (p : Vec3.t) : number :=
  div (mul (Math_atan2 (Vec3.x p) (Vec3.z p)) (ofZ 180)) Math_PI.

Definition pointLat (p : Vec3.t) : number :=
  div (mul (Math_asin (Math_max (ofZ (-1)) (Math_min (ofZ 1) (div (Vec3.y p) GLOBE_RADIUS))))
           (ofZ 180))
      Math_PI.

(** [data[idx] = r; data[idx + 1] = g; ...] with
    [idx = (py * width + px) * 4]. *)
Definition writePixel (data : list Z) (px py : Z) (c : Pixel) : list Z :=
  let idx := Z.to_nat ((py * width + px) * 4) in
  <[(idx + 3)%nat := pa c]>
    (<[(idx + 2)%nat := pb c]>
       (<[(idx + 1)%nat := pg c]>
          (<[idx := pr c]> data))).

(** The two inner loops that copy a sample's colour over its block. *)
Definition fillBlock (data : list Z) (x y : Z) (colour : Z -> Z -> Pixel) : list Z :=
  fold_left
    (fun d bx =>
       fold_left (fun d by' => writePixel d (x + bx) (y + by') (colour bx by'))
                 (blockRange y step height) d)
    (blockRange x step width) data.

(** The body of the pixel loops for the sample at [(x, y)]. *)
Definition renderSample (data : list Z) (x y : Z) : list Z :=
  if ge (discriminant x y) (ofZ 0) then
    if gt (nearRoot x y) (ofZ 0) then
      if gt (facing x y) (dec 1 1) then
        let p := intersectionPoint x y in
        match shade (pointLon p) (pointLat p) x y with
        | Some colour => fillBlock data x y colour
        | None => data
        end
      else data
    else data
  else data.

(** [ctx.createImageData(width, height)]: transparent black. *)
Definition createImageData : list Z :=
  replicate (Z.to_nat (width * height * 4)) 0.

(** The buffer handed to [putImageData]; [None] when the pass returns
    before drawing. *)
Definition renderAirModeOverlay : option (list Z) :=
  if (negb airModeEnabled
      && negb (match overlayMode with ModeTemperature => true | _ => false end))
     || isMoving
  then None
  else Some (fold_left
               (fun d x => fold_left (fun d y => renderSample d x y)
                                     (stepRange height step) d)
               (stepRange width step) createImageData).

End Overlay.


(** ** Auxiliary notions used to state the properties *)

(** The number [k * 2^q], correctly rounded; exact when [|k| < 2^53]. *)
Definition dyadic (k q : Z) : number := binary_normalize prec emax k q false.

(** No bit was lost by the right shifts recorded in [r]. *)
Definition exactRec (r : shr_record) : Prop := shr_r r = false /\ shr_s r = false.

(** Whether a number is one of the two zeros. *)
Definition isZero (x : number) : bool :=
  match x with S754_zero _ => true | _ => false end.

(** ** Example data

    The 2 x 2 grid of the first end-to-end scenario, and a regional grid
    whose first column lies east of 180 degrees. *)

Definition scenarioGrid : GridMeta :=
  {| nx := 2; ny := 2; lo1 := ofZ 0; la1 := ofZ 10; dx := ofZ 10; dy := ofZ 10 |}.

Definition scenarioU : list number := [ofZ 0; ofZ 10; ofZ 0; ofZ 10].

Definition regionalGrid : GridMeta :=
  {| nx := 10; ny := 2; lo1 := ofZ 200; la1 := ofZ 10; dx := ofZ 1; dy := ofZ 10 |}.

Definition regionalU : list number := map ofZ (seqZ 0 20).

(** The level that one wind file contributes, if any. *)
Definition windLevelOf (uv : list WindObj) : option WindLevel :=
  match uv !! 0%nat, uv !! 1%nat with
  | Some vObj, Some uObj =>
      Some {| wl_label := labelOf (header vObj);
              wl_U := to32 (data uObj);
              wl_V := to32 (data vObj);
              wl_S := speedOverlay (to32 (data uObj)) (to32 (data vObj)) |}
  | _, _ => None
  end.

(** The level that one temperature file contributes, if any. *)
Definition tempLevelOf (tObj : option RawObj) : option TempLevel :=
  match tObj with
  | Some {| rawHeader := Some h; rawData := DataArray d |} =>
      Some {| tl_label := labelOf h; tl_T := to32 d |}
  | _ => None
  end.

(** A record of the declared type, as a parsed record. *)
Definition rawOf (o : WindObj) : RawObj :=
  {| rawHeader := Some (header o); rawData := DataArray (data o) |}.

(** The level that one parsed wind file contributes when it has both
    records, a header on the first and arrays as data. *)
Definition windLevelOfRaw (uv : list (option RawObj)) : option WindLevel :=
  match mjoin (uv !! 0%nat), mjoin (uv !! 1%nat) with
  | Some {| rawHeader := Some h; rawData := DataArray dv |},
    Some {| rawData := DataArray du |} =>
      Some {| wl_label := labelOf h;
              wl_U := to32 du;
              wl_V := to32 dv;
              wl_S := speedOverlay (to32 du) (to32 dv) |}
  | _, _ => None
  end.

(** A parsed wind file over which the loader does not throw: it lacks
    a record, or it has a header on the first record and arrays as
    data on both. *)
Definition windShaped (uv : list (option RawObj)) : bool :=
  match mjoin (uv !! 0%nat), mjoin (uv !! 1%nat) with
  | Some vObj, Some uObj =>
      match rawHeader vObj, rawData uObj, rawData vObj with
      | Some _, DataArray _, DataArray _ => true
      | _, _, _ => false
      end
  | _, _ => true
  end.

(** A file whose header breaks every condition of the data model. *)
Definition malformedHeader : WindHeader :=
  {| h_nx := 1; h_ny := 1; h_lo1 := ofZ 0; h_la1 := ofZ 90;
     h_dx := ofZ 0; h_dy := ofZ 1; surface1Type := 103; surface1Value := ofZ 10 |}.

Definition malformedObj : WindObj :=
  {| header := malformedHeader; data := [Some (ofZ 1); Some (ofZ 2); Some (ofZ 3)] |}.

Definition malformedTemp : RawObj := rawOf malformedObj.

(** Order of two positive canonical floats, by exponent and mantissa. *)
Definition lexLe (m : positive) (e : Z) (pc : positive) (ec : Z) : Prop :=
  e < ec \/ (e = ec /\ Z.pos m <= Z.pos pc).

(** ** A host for closed examples

    Runs whose outcome does not depend on the transcendental functions
    or on the projection use constant ones; the camera stands where the
    program first puts it. *)

Definition constOne : number -> number := fun _ => ofZ 1.
Definition hypotZero : number -> number -> number := fun _ _ => ofZ 0.
Definition projectCentre : Vec3.t -> Vec3.t :=
  fun _ => {| Vec3.x := ofZ 0; Vec3.y := ofZ 0; Vec3.z := ofZ 0 |}.
Definition initialCamera : Vec3.t :=
  {| Vec3.x := ofZ 0; Vec3.y := ofZ 0; Vec3.z := ofZ 450 |}.
Definition viewport : number * number := (ofZ 800, ofZ 600).

(** A grid reaching the north pole, with a wind blowing due north. *)
Definition polarGrid : GridMeta :=
  {| nx := 2; ny := 2; lo1 := ofZ 0; la1 := ofZ 90; dx := ofZ 180; dy := ofZ 1 |}.
Definition calmU : list number := [ofZ 0; ofZ 0; ofZ 0; ofZ 0].
Definition northV : list number := [ofZ 100; ofZ 100; ofZ 100; ofZ 100].

(** [updateParticle] in that host, in wind mode. *)
Definition exampleUpdate (g : GridMeta) (U V : list number)
    (p : Particle) (prevXY : PrevXY) (r1 r2 : number) : Step :=
  updateParticle constOne constOne hypotZero projectCentre initialCamera
    viewport viewport g U V ModeWind p prevXY r1 r2.

(** A northward wind of 62.5, which carries a particle from latitude
    89.5 exactly onto the pole in one tick. *)
Definition gentleV : list number := [dec 625 1; dec 625 1; dec 625 1; dec 625 1].

(** ** Reading the overlay buffer *)

(** Channel [c] of the pixel [(px, py)] of an image [width] pixels wide. *)
Definition channelAt (width : Z) (data : list Z) (px py c : Z) : option Z :=
  data !! Z.to_nat ((py * width + px) * 4 + c).

(** The sample point whose block holds the coordinate [p]. *)
Definition blockOrigin (step p : Z) : Z := p - p mod step.

(** An unprojection onto the plane through the globe's centre, and a
    colouring that paints every passing sample opaque white. *)
Definition unprojectPlane (p : Vec3.t) : Vec3.t :=
  {| Vec3.x := mul (Vec3.x p) (ofZ 1000);
     Vec3.y := mul (Vec3.y p) (ofZ 1000);
     Vec3.z := ofZ 0 |}.

Definition shadeWhite : number -> number -> Z -> Z -> option (Z -> Z -> Pixel) :=
  fun _ _ _ _ => Some (fun _ _ => {| pr := 255; pg := 255; pb := 255; pa := 255 |}).

(** A pass over a 2 x 2 canvas in that setting. *)
Definition examplePass : option (list Z) :=
  renderAirModeOverlay unprojectPlane initialCamera hypotZero constOne
    2 2 ModeWind true false shadeWhite.

(** The grid metadata one wind file would set, if it is the first one
    loaded. *)
Definition windMetaOf (uv : list WindObj) : option GridMeta :=
  match uv !! 0%nat, uv !! 1%nat with
  | Some vObj, Some _ => Some (metaOf (header vObj))
  | _, _ => None
  end.

(** A number that is not NaN and carries the sign [s]. *)
Definition signIs (s : bool) (x : number) : bool :=
  match x with
  | S754_zero s' | S754_infinity s' | S754_finite s' _ _ => Bool.eqb s s'
  | S754_nan => false
  end.

(** Channel [c] (0 to 3) of a pixel. *)
Definition channelOf (c : Z) (p : Pixel) : Z :=
  if c =? 0 then pr p else if c =? 1 then pg p else if c =? 2 then pb p else pa p.

Section OverlayReading.

Variable unproject : Vec3.t -> Vec3.t.
Variable cameraPosition : Vec3.t.
Variable Math_atan2 : number -> number -> number.
Variable Math_asin : number -> number.
Variable width height : Z.
Variable overlayMode : OverlayMode.
Variable shade : number -> number -> Z -> Z -> option (Z -> Z -> Pixel).

(** The colour function a sample hands to its block: the one chosen by
    [shade] when the sample passes the three tests, none otherwise. *)
Definition sampleColour (x y : Z) : option (Z -> Z -> Pixel) :=
  if ge (discriminant unproject cameraPosition width height x y) (ofZ 0)
     && gt (nearRoot unproject cameraPosition width height x y) (ofZ 0)
     && gt (facing unproject cameraPosition width height x y) (dec 1 1)
  then shade (pointLon Math_atan2 (intersectionPoint unproject cameraPosition width height x y))
             (pointLat Math_asin (intersectionPoint unproject cameraPosition width height x y))
             x y
  else None.

(** What channel [c] of pixel [(px, py)] holds after a pass: the colour
    its block's sample gives to its offset in the block, or 0. *)
Definition expectedChannel (px py c : Z) : Z :=
  let x := blockOrigin (step width height overlayMode) px in
  let y := blockOrigin (step width height overlayMode) py in
  match sampleColour x y with
  | Some colour => channelOf c (colour (px - x) (py - y))
  | None => 0
  end.

End OverlayReading.

(** ** The temperature lookup of the overlay

    The two local functions with which the temperature branch of the
    overlay reads the grid [T] of the current level; [tg] is the
    temperature grid's metadata. *)

Section TempLookup.

Variable tg : GridMeta.
Variable T : list number.

(** [const wrappedII = ((ii % tempNx) + tempNx) % tempNx;
     return jj * tempNx + wrappedII]. *)
Definition idxT (jj ii : Z) : option Z :=
  if nx tg =? 0 then None
  else Some (jj * nx tg + Z.rem (Z.rem ii (nx tg) + nx tg) (nx tg)).

(** [if (jj < 0 || jj >= tempNy) return NaN;
     const idx = idxT(jj, ii);
     return (idx >= 0 && idx < T.length) ? T[idx] : NaN]. *)
Definition safeGet (jj ii : Z) : number :=
  if (jj <? 0) || (ny tg <=? jj) then NaN
  else match idxT jj ii with
       | Some k =>
           if (0 <=? k) && (k <? Z.of_nat (length T))
           then toNumber (readAt T (Some k))
           else NaN
       | None => NaN
       end.

End TempLookup.

(** ** Camera-move detection

    [distanceToSquared] is the method of [THREE.Vector3]; the state
    holds what [handleCamMove] writes: the camera position and target
    recorded at the last handled move, the [isMoving] flag and the
    previous screen positions of the particles.  The canvases it clears
    and the timers it sets are left out. *)

Definition SIGNIFICANT_CAM_MOVE2 : number := ofZ 4.

Definition distanceToSquared (a b : Vec3.t) : number :=
  let dx := sub (Vec3.x a) (Vec3.x b) in
  let dy := sub (Vec3.y a) (Vec3.y b) in
  let dz := sub (Vec3.z a) (Vec3.z b) in
  add (add (mul dx dx) (mul dy dy)) (mul dz dz).

Record MoveState := {
  lastCamPos : Vec3.t;
  lastCamTarget : Vec3.t;
  moving : bool;
  prevSlots : list PrevXY
}.

Definition cameraMoved (st : MoveState) (cameraPosition target : Vec3.t) : bool :=
  gt (distanceToSquared cameraPosition (lastCamPos st)) SIGNIFICANT_CAM_MOVE2
  || gt (distanceToSquared target (lastCamTarget st)) SIGNIFICANT_CAM_MOVE2.

Definition handleCamMove (st : MoveState) (cameraPosition target : Vec3.t) : MoveState :=
  {| lastCamPos := cameraPosition;
     lastCamTarget := target;
     moving := true;
     prevSlots := map (fun _ => noPrev) (prevSlots st) |}.

(** ** The wind-speed colour scale *)

Definition TAU : number := mul (ofZ 2) Math_PI.
Definition BOUNDARY : number := dec 45 2.

(** A binary64 number between -1 and 1, the range of [Math.sin] and
    [Math.cos] on finite arguments. *)
Definition unitRange (x : number) : bool :=
  match x with
  | S754_zero _ => true
  | S754_finite _ m e =>
      bounded prec emax m e && le (S754_finite false m e) (ofZ 1)
  | _ => false
  end.

Section WindColour.

Variable Math_sin Math_cos : number -> number.

Definition sinebowColor (hue alpha : number) : RGBA :=
  let rad := div (mul (mul hue TAU) (ofZ 5)) (ofZ 6) in
  let rad := mul rad (dec 75 2) in
  let s := Math_sin rad in
  let c := Math_cos rad in
  {| cr := Math_floor (mul (Math_max (ofZ 0) (neg c)) (ofZ 255));
     cg := Math_floor (mul (Math_max s (ofZ 0)) (ofZ 255));
     cb := Math_floor (mul (Math_max (Math_max c (ofZ 0)) (neg s)) (ofZ 255));
     ca := alpha |}.

(** [colorInterpolator(start, end)(i, a)]; only the first three entries
    of [start] and [end] are read. *)
Definition colorInterpolator (start finish : RGBA) (i a : number) : RGBA :=
  let deltaR := sub (cr finish) (cr start) in
  let deltaG := sub (cg finish) (cg start) in
  let deltaB := sub (cb finish) (cb start) in
  {| cr := Math_floor (add (cr start) (mul i deltaR));
     cg := Math_floor (add (cg start) (mul i deltaG));
     cb := Math_floor (add (cb start) (mul i deltaB));
     ca := a |}.

Definition extendedSinebowColor (i alpha : number) : RGBA :=
  let fadeToWhite :=
    colorInterpolator (sinebowColor (ofZ 1) (ofZ 0))
      {| cr := ofZ 255; cg := ofZ 255; cb := ofZ 255; ca := ofZ 0 |} in
  if le i BOUNDARY
  then sinebowColor (div i BOUNDARY) alpha
  else fadeToWhite (div (sub i BOUNDARY) (sub (ofZ 1) BOUNDARY)) alpha.

Definition windSpeedColorScale (windSpeedMs alpha : number) : RGBA :=
  if negb (isFinite windSpeedMs) || lt windSpeedMs (ofZ 0) then transparent
  else
    let normalized := div (Math_min windSpeedMs (ofZ 100)) (ofZ 100) in
    extendedSinebowColor normalized (Math_floor (mul alpha (ofZ 255))).

(** [colorForSpeed]: the first three channels of the scale at full
    alpha, for a speed in km/h. *)
Definition colorForSpeed (speedKmh : number) : number * number * number :=
  let c := windSpeedColorScale (div speedKmh (dec 36 1)) (ofZ 1) in
  (cr c, cg c, cb c).

End WindColour.

(** Structural equality of two numbers, as a test. *)
Definition sameNumber (x y : number) : bool :=
  match x, y with
  | S754_zero s, S754_zero s' => Bool.eqb s s'
  | S754_infinity s, S754_infinity s' => Bool.eqb s s'
  | S754_nan, S754_nan => true
  | S754_finite s m e, S754_finite s' m' e' =>
      Bool.eqb s s' && Pos.eqb m m' && Z.eqb e e'
  | _, _ => false
  end.

(** A number that is [+0] or a positive binary64 number not above 1. *)
Definition unitPos (m : number) : Prop :=
  m = S754_zero false
  \/ exists p e, m = S754_finite false p e
                 /\ bounded prec emax p e = true /\ le m (ofZ 1) = true.

(** A host whose sine and cosine are constant. *)
Definition constHalf : number -> number := fun _ => dec 5 1.

(** The sample stored for row [j] and column [i] of a grid laid out row
    by row, columns counted modulo [nx]; missing (NaN) when the array
    has no such entry. *)
Definition gridCell (g : GridMeta) (A : list number) (j i : Z) : number :=
  toNumber (readAt A (Some (j * nx g + i mod nx g))).

(** The four cells around the cell corner [(j0, i0)], in the order
    [g00, g10, g01, g11]. *)
Definition cellsAround (g : GridMeta) (A : list number) (j0 i0 : Z) : list number :=
  [gridCell g A j0 i0; gridCell g A j0 (i0 + 1);
   gridCell g A (j0 + 1) i0; gridCell g A (j0 + 1) (i0 + 1)].

(** The cell corner [(j0, i0)] is one for which no step of the index
    arithmetic rounds: all the integers involved stay below [2^53]. *)
Definition exactCell (g : GridMeta) (j0 i0 : Z) : Prop :=
  0 < nx g /\ i0 + 1 + nx g < 2 ^ 53 /\ (Z.abs j0 + 2) * nx g < 2 ^ 53.

(** A grid of two columns with a step of [2^-46] degrees, where the
    column of longitude 128 is [2^53]; the odd column is missing. *)
Definition fineGrid : GridMeta :=
  {| nx := 2; ny := 2; lo1 := ofZ 0; la1 := ofZ 0; dx := dyadic 1 (-46); dy := ofZ 1 |}.

Definition fineU : list number := [ofZ 2; NaN; ofZ 2; NaN].

(** * Properties *)

(** ** Binary64 rounding *)

Lemma digits2_pos_size p : digits2_pos p = Pos.size p.
Proof. induction p; simpl; congruence. Qed.

Lemma digits2_bounds p :
  2 ^ (Z.pos (digits2_pos p) - 1) <= Z.pos p < 2 ^ Z.pos (digits2_pos p).
Proof.
  induction p as [p IH | p IH |]; cbn [digits2_pos].
  - rewrite Pos2Z.inj_succ.
    replace (Z.succ (Z.pos (digits2_pos p)) - 1) with (Z.succ (Z.pos (digits2_pos p) - 1)) by lia.
    rewrite !Z.pow_succ_r by lia. lia.
  - rewrite Pos2Z.inj_succ.
    replace (Z.succ (Z.pos (digits2_pos p)) - 1) with (Z.succ (Z.pos (digits2_pos p) - 1)) by lia.
    rewrite !Z.pow_succ_r by lia. lia.
  - cbn. lia.
Qed.

Lemma digits2_unique p d :
  2 ^ (d - 1) <= Z.pos p < 2 ^ d -> Z.pos (digits2_pos p) = d.
Proof.
  intros [Hl Hu].
  pose proof (digits2_bounds p) as [Hl' Hu'].
  assert (0 < d).
  { destruct (Z.ltb_spec 0 d); [done|].
    destruct (Z.eqb_spec d 0) as [->|]; [cbn in Hu; lia|].
    rewrite Z.pow_neg_r in Hu by lia. lia. }
  destruct (Z.lt_trichotomy (Z.pos (digits2_pos p)) d) as [Hlt | [Heq | Hgt]]; [|done|].
  - assert (2 ^ Z.pos (digits2_pos p) <= 2 ^ (d - 1)) by (apply Z.pow_le_mono_r; lia). lia.
  - assert (2 ^ d <= 2 ^ (Z.pos (digits2_pos p) - 1)) by (apply Z.pow_le_mono_r; lia). lia.
Qed.

Lemma digits2_shift p k q :
  0 <= k -> Z.pos q = Z.pos p * 2 ^ k ->
  Z.pos (digits2_pos q) = Z.pos (digits2_pos p) + k.
Proof.
  intros Hk Hq. apply digits2_unique. rewrite Hq.
  pose proof (digits2_bounds p) as [Hl Hu].
  replace (Z.pos (digits2_pos p) + k - 1) with ((Z.pos (digits2_pos p) - 1) + k) by lia.
  rewrite !Z.pow_add_r by lia.
  assert (0 < 2 ^ k) by (apply Z.pow_pos_nonneg; lia).
  split; nia.
Qed.

(** iter_pos as a iteration over nat *)
Lemma iter_pos_nat {A} (f : A -> A) n x :
  SpecFloat.iter_pos f n x = Nat.iter (Pos.to_nat n) f x.
Proof.
  revert x. induction n as [n IH | n IH |]; intros x; cbn [SpecFloat.iter_pos].
  - rewrite !IH. rewrite Pos2Nat.inj_xI. 
    replace (S (2 * Pos.to_nat n))%nat with (Pos.to_nat n + (Pos.to_nat n + 1))%nat by lia.
    rewrite !Nat.iter_add. reflexivity.
  - rewrite !IH. rewrite Pos2Nat.inj_xO.
    replace (2 * Pos.to_nat n)%nat with (Pos.to_nat n + Pos.to_nat n)%nat by lia.
    rewrite Nat.iter_add. reflexivity.
  - reflexivity.
Qed.

Lemma shr_1_double m :
  0 <= m -> shr_1 {| shr_m := 2 * m; shr_r := false; shr_s := false |}
            = {| shr_m := m; shr_r := false; shr_s := false |}.
Proof. intros H. destruct m; try lia; reflexivity. Qed.

Lemma iter_shr_exact n m :
  0 <= m ->
  Nat.iter n shr_1 {| shr_m := m * 2 ^ Z.of_nat n; shr_r := false; shr_s := false |}
  = {| shr_m := m; shr_r := false; shr_s := false |}.
Proof.
  intros Hm. revert m Hm. induction n as [|n IH]; intros m Hm.
  - cbn. f_equal. lia.
  - rewrite Nat.iter_succ_r.
    rewrite Nat2Z.inj_succ, Z.pow_succ_r by lia.
    replace (m * (2 * 2 ^ Z.of_nat n)) with (2 * (m * 2 ^ Z.of_nat n)) by lia.
    rewrite shr_1_double by (apply Z.mul_nonneg_nonneg; [lia | apply Z.pow_nonneg; lia]).
    apply IH, Hm.
Qed.

Lemma shr_exact m e k :
  0 <= m -> 0 <= k ->
  shr {| shr_m := m * 2 ^ k; shr_r := false; shr_s := false |} e k
  = ({| shr_m := m; shr_r := false; shr_s := false |}, e + k).
Proof.
  intros Hm Hk. destruct k as [|k|k]; [| |lia].
  - cbn [shr]. rewrite Z.pow_0_r, Z.mul_1_r, Z.add_0_r. reflexivity.
  - cbn [shr]. rewrite iter_pos_nat.
    rewrite <- (positive_nat_Z k) at 1. rewrite iter_shr_exact by done. reflexivity.
Qed.

Lemma bounded_inv p e :
  bounded prec emax p e = true ->
  fexp prec emax (Z.pos (digits2_pos p) + e) = e /\ e <= emax - prec.
Proof.
  unfold bounded, canonical_mantissa. rewrite andb_true_iff, Z.eqb_eq, Z.leb_le. done.
Qed.

Lemma round_aux_exact s p e k :
  bounded prec emax p e = true -> 0 <= k ->
  binary_round_aux prec emax s (Z.pos p * 2 ^ k) (e - k) loc_Exact = S754_finite s p e.
Proof.
  intros Hb Hk. apply bounded_inv in Hb as [Hc He].
  assert (Hpos : 0 < Z.pos p * 2 ^ k).
  { apply Z.mul_pos_pos; [lia | apply Z.pow_pos_nonneg; lia]. }
  assert (Hd : Zdigits2 (Z.pos p * 2 ^ k) = Z.pos (digits2_pos p) + k).
  { destruct (Z.pos p * 2 ^ k) as [|q|q] eqn:E; try lia.
    cbn [Zdigits2]. by apply digits2_shift. }
  unfold binary_round_aux, shr_fexp.
  rewrite Hd.
  replace (Z.pos (digits2_pos p) + k + (e - k)) with (Z.pos (digits2_pos p) + e) by lia.
  rewrite Hc. replace (e - (e - k)) with k by lia.
  cbn [shr_record_of_loc]. rewrite shr_exact by lia.
  cbn [shr_m loc_of_shr_record round_nearest_even Zdigits2].
  replace (e - k + k) with e by lia.
  rewrite Hc, Z.sub_diag. cbn [shr shr_m].
  apply Z.leb_le in He. rewrite He. reflexivity.
Qed.

Lemma iter_xO p d : Z.pos (Pos.iter xO p d) = Z.pos p * 2 ^ Z.pos d.
Proof.
  induction d as [|d IH] using Pos.peano_ind.
  - cbn. lia.
  - rewrite Pos.iter_succ, Pos2Z.inj_xO, IH, Pos2Z.inj_succ, Z.pow_succ_r by lia. lia.
Qed.

(** A number with the value of a canonical float rounds to that float. *)
Lemma round_exact s p e p' e' :
  bounded prec emax p e = true ->
  (e <= e' /\ Z.pos p = Z.pos p' * 2 ^ (e' - e)) \/
  (e' <= e /\ Z.pos p' = Z.pos p * 2 ^ (e - e')) ->
  binary_round prec emax s p' e' = S754_finite s p e.
Proof.
  intros Hb Hv. pose proof (bounded_inv _ _ Hb) as [Hc He].
  unfold binary_round.
  assert (Hf : fexp prec emax (Z.pos (digits2_pos p') + e') = e).
  { transitivity (fexp prec emax (Z.pos (digits2_pos p) + e)); [|done]. f_equal.
    destruct Hv as [[Hle Hv] | [Hle Hv]].
    - rewrite (digits2_shift p' (e' - e) p) by (lia || done). lia.
    - rewrite (digits2_shift p (e - e') p') by (lia || done). lia. }
  rewrite Hf. unfold shl_align.
  destruct Hv as [[Hle Hv] | [Hle Hv]].
  - destruct (e - e') as [|d|d] eqn:E; try lia.
    + assert (e' = e) by lia. subst e'. rewrite Z.sub_diag, Z.pow_0_r, Z.mul_1_r in Hv.
      injection Hv as <-.
      replace (Z.pos p) with (Z.pos p * 2 ^ 0) by (rewrite Z.pow_0_r; lia).
      replace e with (e - 0) at 1 by lia.
      apply round_aux_exact; [done | lia].
    + assert (Z.pos (Pos.iter xO p' d) = Z.pos p) as Hq.
      { rewrite iter_xO, Hv. f_equal. f_equal. lia. }
      injection Hq as ->.
      replace (Z.pos p) with (Z.pos p * 2 ^ 0) by (rewrite Z.pow_0_r; lia).
      replace e with (e - 0) at 1 by lia.
      apply round_aux_exact; [done | lia].
  - destruct (e - e') as [|d|d] eqn:E; try lia.
    + assert (e' = e) by lia. subst e'. rewrite Z.pow_0_r, Z.mul_1_r in Hv.
      injection Hv as ->.
      replace (Z.pos p) with (Z.pos p * 2 ^ 0) by (rewrite Z.pow_0_r; lia).
      replace e with (e - 0) at 1 by lia.
      apply round_aux_exact; [done | lia].
    + rewrite Hv. replace e' with (e - Z.pos d) by lia.
      apply round_aux_exact; [done | lia].
Qed.

Lemma mul_one_r x :
  valid_binary prec emax x = true -> mul x (ofZ 1) = x.
Proof.
  destruct x as [s| s | | s m e]; try reflexivity.
  - by destruct s.
  - by destruct s.
  - intros Hb. cbn [valid_binary] in Hb.
    change (ofZ 1) with (S754_finite false 4503599627370496 (-52)).
    unfold mul. cbn [SFmul]. rewrite xorb_false_r.
    replace (Z.pos (m * 4503599627370496)) with (Z.pos m * 2 ^ 52) by lia.
    replace (e + -52) with (e - 52) by lia.
    apply round_aux_exact; [done | lia].
Qed.


(** The canonical mantissa and exponent of a nonzero [k * 2^q] with
    [|k| < 2^53]. *)
Lemma dyadic_canon k q j sz :
  k <> 0 -> Z.abs k < 2 ^ 53 -> -1022 <= q <= 971 -> 0 <= j ->
  exists p e,
    binary_normalize prec emax (k * 2 ^ j) (q - j) sz = S754_finite (k <? 0) p e
    /\ bounded prec emax p e = true
    /\ q - 52 <= e <= q
    /\ Z.pos p = Z.abs k * 2 ^ (q - e)
    /\ 2 ^ 52 <= Z.pos p < 2 ^ 53.
Proof.
  intros Hk Hlt Hq Hj.
  set (d := Zdigits2 k).
  assert (Hd : 2 ^ (d - 1) <= Z.abs k < 2 ^ d /\ 1 <= d).
  { subst d. destruct k as [|k|k]; [done | |]; cbn [Zdigits2 Z.abs];
      (split; [apply digits2_bounds | lia]). }
  destruct Hd as [Hd Hd1].
  assert (Hd53 : d <= 53).
  { destruct (Z.leb_spec d 53); [done|].
    assert (2 ^ 53 <= 2 ^ (d - 1)) by (apply Z.pow_le_mono_r; lia). lia. }
  set (e := q + d - 53).
  assert (Hp : 0 < Z.abs k * 2 ^ (q - e)).
  { apply Z.mul_pos_pos; [lia | apply Z.pow_pos_nonneg; lia]. }
  destruct (Z.abs k * 2 ^ (q - e)) as [|p|p] eqn:Ep; try lia.
  assert (Hdp : Z.pos (digits2_pos p) = 53).
  { apply digits2_unique. rewrite <- Ep.
    replace (q - e) with (53 - d) by lia.
    replace (2 ^ (53 - 1)) with (2 ^ (d - 1) * 2 ^ (53 - d))
      by (rewrite <- Z.pow_add_r by lia; f_equal; lia).
    replace (2 ^ 53) with (2 ^ d * 2 ^ (53 - d))
      by (rewrite <- Z.pow_add_r by lia; f_equal; lia).
    assert (0 < 2 ^ (53 - d)) by (apply Z.pow_pos_nonneg; lia).
    split; nia. }
  assert (Hb : bounded prec emax p e = true).
  { unfold bounded, canonical_mantissa. rewrite Hdp.
    apply andb_true_iff. split; [apply Z.eqb_eq | apply Z.leb_le].
    - unfold fexp, SpecFloat.emin, prec, emax. lia.
    - unfold prec, emax. lia. }
  exists p, e. split; [|split; [done | split; [lia | split; [done|]]]].
  - assert (Hkj : 0 < Z.abs k * 2 ^ j).
    { apply Z.mul_pos_pos; [lia | apply Z.pow_pos_nonneg; lia]. }
    assert (Hv : forall p', Z.pos p' = Z.abs k * 2 ^ j ->
              (e <= q - j /\ Z.pos p = Z.pos p' * 2 ^ (q - j - e)) \/
              (q - j <= e /\ Z.pos p' = Z.pos p * 2 ^ (e - (q - j)))).
    { intros p' Hp'. destruct (Z.le_gt_cases e (q - j)).
      - left. split; [done|]. rewrite Hp', <- Ep, <- Z.mul_assoc, <- Z.pow_add_r by lia.
        f_equal. f_equal. lia.
      - right. split; [lia|]. rewrite Hp', <- Ep, <- Z.mul_assoc, <- Z.pow_add_r by lia.
        f_equal. f_equal. lia. }
    assert (0 < 2 ^ j) by (apply Z.pow_pos_nonneg; lia).
    destruct k as [|k|k]; [done | |].
    + destruct (Z.pos k * 2 ^ j) as [|p'|p'] eqn:E; try lia.
      cbn [binary_normalize]. replace (Z.pos k <? 0) with false by (symmetry; apply Z.ltb_ge; lia).
      apply round_exact; [done|]. apply Hv. cbn [Z.abs]. lia.
    + destruct (Z.neg k * 2 ^ j) as [|p'|p'] eqn:E; try lia.
      cbn [binary_normalize]. replace (Z.neg k <? 0) with true by (symmetry; apply Z.ltb_lt; lia).
      apply round_exact; [done|]. apply Hv. cbn [Z.abs]. lia.
  - rewrite <- Hdp. pose proof (digits2_bounds p) as Hbd. rewrite Hdp in *. exact Hbd.
Qed.

Lemma dyadic_canon0 k q :
  k <> 0 -> Z.abs k < 2 ^ 53 -> -1022 <= q <= 971 ->
  exists p e,
    dyadic k q = S754_finite (k <? 0) p e
    /\ bounded prec emax p e = true
    /\ q - 52 <= e <= q
    /\ Z.pos p = Z.abs k * 2 ^ (q - e)
    /\ 2 ^ 52 <= Z.pos p < 2 ^ 53.
Proof.
  intros Hk Hlt Hq.
  destruct (dyadic_canon k q 0 false Hk Hlt Hq) as (p & e & H); [lia|].
  exists p, e. unfold dyadic.
  rewrite Z.pow_0_r, Z.mul_1_r, Z.sub_0_r in H. exact H.
Qed.

Lemma normalize_scale k q j sz :
  k <> 0 -> Z.abs k < 2 ^ 53 -> -1022 <= q <= 971 -> 0 <= j ->
  binary_normalize prec emax (k * 2 ^ j) (q - j) sz = dyadic k q.
Proof.
  intros Hk Hlt Hq Hj.
  destruct (dyadic_canon k q j sz Hk Hlt Hq Hj) as (p1 & e1 & -> & _ & He1 & Hp1 & Hr1).
  destruct (dyadic_canon0 k q Hk Hlt Hq) as (p2 & e2 & -> & _ & He2 & Hp2 & Hr2).
  assert (e1 = e2) as <-.
  { destruct (Z.lt_trichotomy e1 e2) as [Hc | [Hc | Hc]]; [|done|]; exfalso.
    - assert (Z.pos p1 = Z.pos p2 * 2 ^ (e2 - e1)) as E.
      { rewrite Hp1, Hp2, <- Z.mul_assoc, <- Z.pow_add_r by lia. do 2 f_equal. lia. }
      assert (2 ^ 1 <= 2 ^ (e2 - e1)) by (apply Z.pow_le_mono_r; lia).
      change (2 ^ 1) with 2 in *. nia.
    - assert (Z.pos p2 = Z.pos p1 * 2 ^ (e1 - e2)) as E.
      { rewrite Hp1, Hp2, <- Z.mul_assoc, <- Z.pow_add_r by lia. do 2 f_equal. lia. }
      assert (2 ^ 1 <= 2 ^ (e1 - e2)) by (apply Z.pow_le_mono_r; lia).
      change (2 ^ 1) with 2 in *. nia. }
  f_equal. lia.
Qed.

Lemma shl_align_val p e ez :
  ez <= e -> Z.pos (fst (shl_align p e ez)) = Z.pos p * 2 ^ (e - ez).
Proof.
  intros H. unfold shl_align.
  destruct (ez - e) as [|d|d] eqn:E; try lia; cbn [fst].
  - replace (e - ez) with 0 by lia. rewrite Z.pow_0_r. lia.
  - rewrite iter_xO. do 2 f_equal. lia.
Qed.

Lemma cond_Zopp_abs k X : cond_Zopp (k <? 0) (Z.abs k * X) = k * X.
Proof. destruct (Z.ltb_spec k 0); cbn [cond_Zopp]; lia. Qed.

Lemma dyadic_0 q : dyadic 0 q = S754_zero false.
Proof. reflexivity. Qed.

(** Both operands of a sum brought to the smaller exponent. *)
Lemma aligned_sum a b q pa ea pb eb (op : Z -> Z -> Z) :
  (forall x y z, op (x * z) (y * z) = op x y * z) ->
  q - 52 <= ea <= q -> q - 52 <= eb <= q ->
  Z.pos pa = Z.abs a * 2 ^ (q - ea) ->
  Z.pos pb = Z.abs b * 2 ^ (q - eb) ->
  op (cond_Zopp (a <? 0) (Z.pos (fst (shl_align pa ea (Z.min ea eb)))))
     (cond_Zopp (b <? 0) (Z.pos (fst (shl_align pb eb (Z.min ea eb)))))
  = op a b * 2 ^ (q - Z.min ea eb).
Proof.
  intros Hop Hea Heb Hpa Hpb.
  rewrite !shl_align_val by lia. rewrite Hpa, Hpb.
  rewrite <- !Z.mul_assoc, <- !Z.pow_add_r by lia.
  rewrite !cond_Zopp_abs.
  replace (q - ea + (ea - Z.min ea eb)) with (q - Z.min ea eb) by lia.
  replace (q - eb + (eb - Z.min ea eb)) with (q - Z.min ea eb) by lia.
  apply Hop.
Qed.

Lemma add_dyadic a b q :
  Z.abs a < 2 ^ 53 -> Z.abs b < 2 ^ 53 -> Z.abs (a + b) < 2 ^ 53 ->
  -1022 <= q <= 971 ->
  add (dyadic a q) (dyadic b q) = dyadic (a + b) q.
Proof.
  intros Ha Hb Hab Hq.
  destruct (Z.eq_dec a 0) as [-> | Hna]; [|destruct (Z.eq_dec b 0) as [-> | Hnb]].
  - rewrite dyadic_0, Z.add_0_l.
    destruct (Z.eq_dec b 0) as [-> | Hnb]; [done|].
    destruct (dyadic_canon0 b q Hnb Hb Hq) as (p & e & -> & _). reflexivity.
  - rewrite dyadic_0, Z.add_0_r.
    destruct (dyadic_canon0 a q Hna Ha Hq) as (p & e & -> & _). reflexivity.
  - destruct (dyadic_canon0 a q Hna Ha Hq) as (pa & ea & -> & _ & Hea & Hpa & _).
    destruct (dyadic_canon0 b q Hnb Hb Hq) as (pb & eb & -> & _ & Heb & Hpb & _).
    unfold add. cbn [SFadd].
    rewrite (aligned_sum a b q pa ea pb eb Z.add) by (done || intros; lia).
    destruct (Z.eq_dec (a + b) 0) as [-> | Hn]; [done|].
    replace (Z.min ea eb) with (q - (q - Z.min ea eb)) at 2 by lia.
    apply normalize_scale; (done || lia).
Qed.

Lemma sub_dyadic a b q :
  Z.abs a < 2 ^ 53 -> Z.abs b < 2 ^ 53 -> Z.abs (a - b) < 2 ^ 53 ->
  -1022 <= q <= 971 -> b <> 0 ->
  sub (dyadic a q) (dyadic b q) = dyadic (a - b) q.
Proof.
  intros Ha Hb Hab Hq Hnb.
  destruct (dyadic_canon0 b q Hnb Hb Hq) as (pb & eb & Eb & Hbb & Heb & Hpb & _).
  destruct (Z.eq_dec a 0) as [-> | Hna].
  - rewrite dyadic_0, Z.sub_0_l, Eb. cbn [sub SFsub].
    assert (Z.abs (- b) < 2 ^ 53) as Hb' by lia.
    destruct (dyadic_canon0 (- b) q ltac:(lia) Hb' Hq) as (p' & e' & -> & _ & He' & Hp' & Hr').
    assert (negb (b <? 0) = (- b <? 0)) as ->.
    { destruct (Z.ltb_spec b 0), (Z.ltb_spec (- b) 0); (done || lia). }
    destruct (dyadic_canon0 b q Hnb Hb Hq) as (pb2 & eb2 & Eb2 & _ & _ & Hpb2 & Hr2).
    rewrite Eb in Eb2. injection Eb2 as <- <-.
    assert (e' = eb) as ->.
    { rewrite Z.abs_opp in Hp'.
      destruct (Z.lt_trichotomy e' eb) as [Hc | [Hc | Hc]]; [|done|]; exfalso.
      - assert (Z.pos p' = Z.pos pb * 2 ^ (eb - e')) as E.
        { rewrite Hp', Hpb, <- Z.mul_assoc, <- Z.pow_add_r by lia. do 2 f_equal. lia. }
        assert (2 ^ 1 <= 2 ^ (eb - e')) by (apply Z.pow_le_mono_r; lia).
        change (2 ^ 1) with 2 in *. nia.
      - assert (Z.pos pb = Z.pos p' * 2 ^ (e' - eb)) as E.
        { rewrite Hp', Hpb, <- Z.mul_assoc, <- Z.pow_add_r by lia. do 2 f_equal. lia. }
        assert (2 ^ 1 <= 2 ^ (e' - eb)) by (apply Z.pow_le_mono_r; lia).
        change (2 ^ 1) with 2 in *. nia. }
    f_equal. rewrite Z.abs_opp in Hp'. lia.
  - destruct (dyadic_canon0 a q Hna Ha Hq) as (pa & ea & -> & _ & Hea & Hpa & _).
    rewrite Eb. unfold sub. cbn [SFsub].
    rewrite (aligned_sum a b q pa ea pb eb Z.sub) by (done || intros; lia).
    destruct (Z.eq_dec (a - b) 0) as [-> | Hn]; [done|].
    replace (Z.min ea eb) with (q - (q - Z.min ea eb)) at 2 by lia.
    apply normalize_scale; (done || lia).
Qed.

Lemma rem_dyadic a b q :
  Z.abs a < 2 ^ 53 -> Z.abs b < 2 ^ 53 -> -1022 <= q <= 971 ->
  a <> 0 -> b <> 0 ->
  rem (dyadic a q) (dyadic b q)
  = if Z.rem a b =? 0 then S754_zero (a <? 0) else dyadic (Z.rem a b) q.
Proof.
  intros Ha Hb Hq Hna Hnb.
  destruct (dyadic_canon0 a q Hna Ha Hq) as (pa & ea & -> & _ & Hea & Hpa & _).
  destruct (dyadic_canon0 b q Hnb Hb Hq) as (pb & eb & -> & _ & Heb & Hpb & _).
  cbn [rem].
  set (e := Z.min ea eb).
  assert (HX : Z.pos pa * 2 ^ (ea - e) = Z.abs a * 2 ^ (q - e)).
  { rewrite Hpa, <- Z.mul_assoc, <- Z.pow_add_r by lia. do 2 f_equal. lia. }
  assert (HY : Z.pos pb * 2 ^ (eb - e) = Z.abs b * 2 ^ (q - e)).
  { rewrite Hpb, <- Z.mul_assoc, <- Z.pow_add_r by lia. do 2 f_equal. lia. }
  rewrite HX, HY.
  assert (0 < 2 ^ (q - e)) by (apply Z.pow_pos_nonneg; lia).
  rewrite Z.mul_mod_distr_r by lia.
  assert (Hr : cond_Zopp (a <? 0) (Z.abs a mod Z.abs b * 2 ^ (q - e))
               = Z.rem a b * 2 ^ (q - e)).
  { rewrite (Z.rem_mod a b) by done.
    destruct (Z.ltb_spec a 0); cbn [cond_Zopp].
    - rewrite Z.sgn_neg by lia. lia.
    - rewrite Z.sgn_pos by lia. lia. }
  rewrite Hr.
  destruct (Z.eqb_spec (Z.rem a b) 0) as [-> | Hn]; [done|].
  replace e with (q - (q - e)) at 2 by lia.
  apply normalize_scale; try (done || lia).
  pose proof (Z.rem_bound_abs a b Hnb). lia.
Qed.

Lemma compare_canon_pos a b q pa ea pb eb :
  0 < a -> 0 < b ->
  q - 52 <= ea <= q -> q - 52 <= eb <= q ->
  Z.pos pa = a * 2 ^ (q - ea) -> Z.pos pb = b * 2 ^ (q - eb) ->
  2 ^ 52 <= Z.pos pa < 2 ^ 53 -> 2 ^ 52 <= Z.pos pb < 2 ^ 53 ->
  match ea ?= eb with
  | Eq => Pos.compare_cont Eq pa pb
  | Lt => Lt
  | Gt => Gt
  end = (a ?= b).
Proof.
  intros Ha Hb Hea Heb Hpa Hpb Hra Hrb.
  assert (forall x y u v pu pv, 0 < u -> 0 < v -> 0 <= y < x ->
            pu = u * 2 ^ x -> pv = v * 2 ^ y ->
            pu < 2 ^ 53 -> 2 ^ 52 <= pv -> u < v) as Hlt.
  { intros x y u v pu pv Hu Hv Hxy -> -> H1 H2.
    replace x with ((x - y) + y) in H1 by lia.
    rewrite Z.pow_add_r in H1 by lia.
    assert (2 ^ 1 <= 2 ^ (x - y)) by (apply Z.pow_le_mono_r; lia).
    assert (0 < 2 ^ y) by (apply Z.pow_pos_nonneg; lia).
    change (2 ^ 1) with 2 in *. change (2 ^ 53) with (2 * 2 ^ 52) in H1.
    set (A := 2 ^ (x - y)) in *. set (B := 2 ^ y) in *. set (C := 2 ^ 52) in *.
    destruct (Z.lt_ge_cases u v) as [|Hge]; [done | exfalso].
    assert (v * B <= u * B) by nia.
    assert (0 < u * B) by nia.
    assert (u * B * 2 <= u * B * A) by nia.
    replace (u * (A * B)) with (u * B * A) in H1 by ring. lia. }
  destruct (Z.compare_spec ea eb) as [-> | Hc | Hc].
  - change (Pos.compare_cont Eq pa pb) with (Z.pos pa ?= Z.pos pb).
    rewrite Hpa, Hpb. symmetry. apply Zmult_compare_compat_r.
    apply Z.lt_gt, Z.pow_pos_nonneg; lia.
  - symmetry. apply Z.compare_lt_iff.
    apply (Hlt (q - ea) (q - eb) a b (Z.pos pa) (Z.pos pb)); (done || lia).
  - symmetry. apply Z.compare_gt_iff.
    apply (Hlt (q - eb) (q - ea) b a (Z.pos pb) (Z.pos pa)); (done || lia).
Qed.

Lemma compare_dyadic a b q :
  Z.abs a < 2 ^ 53 -> Z.abs b < 2 ^ 53 -> -1022 <= q <= 971 ->
  SFcompare (dyadic a q) (dyadic b q) = Some (a ?= b).
Proof.
  intros Ha Hb Hq.
  destruct (Z.eq_dec a 0) as [-> | Hna]; [|destruct (Z.eq_dec b 0) as [-> | Hnb]].
  - rewrite dyadic_0. destruct (Z.eq_dec b 0) as [-> | Hnb]; [done|].
    destruct (dyadic_canon0 b q Hnb Hb Hq) as (p & e & -> & _). cbn [SFcompare].
    destruct (Z.ltb_spec b 0); f_equal; symmetry;
      [apply Z.compare_gt_iff | apply Z.compare_lt_iff]; lia.
  - rewrite dyadic_0.
    destruct (dyadic_canon0 a q Hna Ha Hq) as (p & e & -> & _). cbn [SFcompare].
    destruct (Z.ltb_spec a 0); f_equal; symmetry;
      [apply Z.compare_lt_iff | apply Z.compare_gt_iff]; lia.
  - destruct (dyadic_canon0 a q Hna Ha Hq) as (pa & ea & -> & _ & Hea & Hpa & Hra).
    destruct (dyadic_canon0 b q Hnb Hb Hq) as (pb & eb & -> & _ & Heb & Hpb & Hrb).
    cbn [SFcompare]. f_equal.
    destruct (Z.ltb_spec a 0), (Z.ltb_spec b 0).
    + rewrite Z.abs_neq in Hpa, Hpb by lia.
      assert ((a ?= b) = CompOpp (- a ?= - b)) as ->.
      { rewrite Z.compare_opp. apply Z.compare_antisym. }
      rewrite <- (compare_canon_pos (- a) (- b) q pa ea pb eb) by (done || lia).
      by destruct (ea ?= eb).
    + symmetry. apply Z.compare_lt_iff. lia.
    + symmetry. apply Z.compare_gt_iff. lia.
    + rewrite Z.abs_eq in Hpa, Hpb by lia.
      apply (compare_canon_pos a b q); (done || lia).
Qed.

Lemma lt_dyadic a b q :
  Z.abs a < 2 ^ 53 -> Z.abs b < 2 ^ 53 -> -1022 <= q <= 971 ->
  lt (dyadic a q) (dyadic b q) = (a <? b).
Proof.
  intros. unfold lt, SFltb. rewrite compare_dyadic by done.
  unfold Z.ltb. by destruct (a ?= b).
Qed.


(** *** Right shifts with rounding flags *)


Lemma shr_1_spec m r s :
  0 <= m ->
  shr_m (shr_1 {| shr_m := m; shr_r := r; shr_s := s |}) = m / 2
  /\ (exactRec (shr_1 {| shr_m := m; shr_r := r; shr_s := s |})
      <-> m mod 2 = 0 /\ r = false /\ s = false).
Proof.
  intros Hm. unfold exactRec.
  destruct m as [|[p|p|]|]; try lia; cbn [shr_1 shr_m shr_r shr_s].
  - cbn. split; [done|]. rewrite orb_false_iff. tauto.
  - rewrite Pos2Z.inj_xI.
    replace (2 * Z.pos p + 1) with (1 + Z.pos p * 2) by lia.
    rewrite Z.div_add, Z.mod_add by lia.
    change (1 / 2) with 0. change (1 mod 2) with 1.
    split; [lia|]. split; [intros [? ?]; discriminate | intros [? ?]; lia].
  - rewrite Pos2Z.inj_xO.
    replace (2 * Z.pos p) with (0 + Z.pos p * 2) by lia.
    rewrite Z.div_add, Z.mod_add by lia.
    change (0 / 2) with 0. change (0 mod 2) with 0.
    split; [lia|]. rewrite orb_false_iff. tauto.
  - cbn. split; [done|]. split; intros [? ?]; discriminate.
Qed.

Lemma shr_1_nonneg rec : 0 <= shr_m rec -> 0 <= shr_m (shr_1 rec).
Proof.
  destruct rec as [m r s]. cbn [shr_m]. intros H.
  rewrite (proj1 (shr_1_spec m r s H)). apply Z.div_pos; lia.
Qed.

Lemma iter_shr_spec n m r s :
  0 <= m ->
  shr_m (Nat.iter n shr_1 {| shr_m := m; shr_r := r; shr_s := s |}) = m / 2 ^ Z.of_nat n
  /\ (exactRec (Nat.iter n shr_1 {| shr_m := m; shr_r := r; shr_s := s |})
      <-> m mod 2 ^ Z.of_nat n = 0 /\ r = false /\ s = false).
Proof.
  revert m r s. induction n as [|n IH]; intros m r s Hm.
  - cbn [Nat.iter Z.of_nat shr_m]. rewrite Z.pow_0_r, Z.div_1_r, Z.mod_1_r.
    unfold exactRec. cbn. tauto.
  - rewrite Nat.iter_succ_r.
    pose proof (shr_1_spec m r s Hm) as [H1 H2].
    destruct (shr_1 {| shr_m := m; shr_r := r; shr_s := s |}) as [m' r' s'] eqn:E.
    cbn [shr_m] in H1. subst m'.
    assert (0 <= m / 2) as Hm' by (apply Z.div_pos; lia).
    destruct (IH (m / 2) r' s' Hm') as [G1 G2].
    rewrite Nat2Z.inj_succ, Z.pow_succ_r by lia.
    assert (0 < 2 ^ Z.of_nat n) as Hp by (apply Z.pow_pos_nonneg; lia).
    split.
    + rewrite G1. rewrite Z.div_div by lia. reflexivity.
    + rewrite G2. unfold exactRec in H2. cbn [shr_r shr_s] in H2.
      assert (m mod (2 * 2 ^ Z.of_nat n) = 0 <-> (m / 2) mod 2 ^ Z.of_nat n = 0 /\ m mod 2 = 0) as Hmod.
      { rewrite (Z.rem_mul_r m 2 (2 ^ Z.of_nat n)) by lia.
        pose proof (Z.mod_pos_bound m 2 ltac:(lia)).
        pose proof (Z.mod_pos_bound (m / 2) (2 ^ Z.of_nat n) Hp).
        split; [intros ?|intros [-> ->]; lia]. split; nia. }
      rewrite Hmod. tauto.
Qed.

Lemma shr_spec m e t :
  0 <= m -> 0 <= t ->
  snd (shr {| shr_m := m; shr_r := false; shr_s := false |} e t) = e + t
  /\ shr_m (fst (shr {| shr_m := m; shr_r := false; shr_s := false |} e t)) = m / 2 ^ t
  /\ (exactRec (fst (shr {| shr_m := m; shr_r := false; shr_s := false |} e t))
      <-> m mod 2 ^ t = 0).
Proof.
  intros Hm Ht. destruct t as [|t|t]; try lia; cbn [shr fst snd].
  - rewrite Z.pow_0_r, Z.div_1_r, Z.mod_1_r, Z.add_0_r. unfold exactRec. cbn. tauto.
  - rewrite iter_pos_nat.
    destruct (iter_shr_spec (Pos.to_nat t) m false false Hm) as [H1 H2].
    rewrite positive_nat_Z in H1, H2. rewrite H1, H2. tauto.
Qed.

Lemma loc_exact rec : loc_of_shr_record rec = loc_Exact <-> exactRec rec.
Proof. destruct rec as [m [|] [|]]; unfold exactRec; cbn; split; (done || intros [? ?]; done). Qed.

Lemma round_nearest_even_bounds m l :
  m <= round_nearest_even m l <= m + 1
  /\ (l = loc_Exact -> round_nearest_even m l = m).
Proof.
  destruct l as [|[| |]]; cbn [round_nearest_even]; try (split; [lia | done]).
  destruct (Z.even m); split; (lia || done).
Qed.

Lemma fexp_eq e : fexp prec emax e = Z.max (e - 53) (-1074).
Proof. reflexivity. Qed.

Lemma bounded_facts p e :
  bounded prec emax p e = true ->
  Z.pos (digits2_pos p) <= 53 /\ -1074 <= e <= 971
  /\ (-1074 < e -> Z.pos (digits2_pos p) = 53).
Proof.
  intros H. apply bounded_inv in H as [Hc He]. rewrite fexp_eq in Hc.
  unfold emax, prec in He. lia.
Qed.

Lemma bounded_intro p e :
  Z.pos (digits2_pos p) <= 53 -> -1074 <= e <= 971 ->
  (-1074 < e -> Z.pos (digits2_pos p) = 53) ->
  bounded prec emax p e = true.
Proof.
  intros Hd He Hn. unfold bounded, canonical_mantissa.
  apply andb_true_iff. split; [apply Z.eqb_eq | apply Z.leb_le].
  - rewrite fexp_eq. destruct (Z.eq_dec e (-1074)); lia.
  - unfold emax, prec. lia.
Qed.

Lemma pow2_pos k : 0 <= k -> 0 < 2 ^ k.
Proof. intros. apply Z.pow_pos_nonneg; lia. Qed.

Lemma pow2_split a b : 0 <= a -> 0 <= b -> 2 ^ (a + b) = 2 ^ a * 2 ^ b.
Proof. intros. apply Z.pow_add_r; lia. Qed.

(** Rounding a positive integer mantissa never exceeds a representable
    upper bound of its value. *)
Lemma round_aux_upper s m0 e pc ec lo :
  bounded prec emax pc ec = true ->
  e <= fexp prec emax (Z.pos (digits2_pos m0) + e) ->
  lo <= e -> lo <= ec ->
  Z.pos m0 * 2 ^ (e - lo) <= Z.pos pc * 2 ^ (ec - lo) ->
  binary_round_aux prec emax s (Z.pos m0) e loc_Exact = S754_zero s \/
  exists m' e',
    binary_round_aux prec emax s (Z.pos m0) e loc_Exact = S754_finite s m' e'
    /\ bounded prec emax m' e' = true
    /\ (e' < ec \/ (e' = ec /\ Z.pos m' <= Z.pos pc)).
Proof.
  intros Hb Ht Hlo1 Hlo2 Hv.
  pose proof (bounded_facts _ _ Hb) as (Hdc & Hec & Hnc).
  pose proof (digits2_bounds m0) as Hd. pose proof (digits2_bounds pc) as Hdpc.
  set (d := Z.pos (digits2_pos m0)) in *. set (dc := Z.pos (digits2_pos pc)) in *.
  rewrite fexp_eq in Ht.
  set (e1 := Z.max (d + e - 53) (-1074)) in *.
  set (t := e1 - e).
  assert (0 <= t) as Ht0 by lia.
  (* the bound is a multiple of the rounding step *)
  assert (e1 <= ec) as He1c.
  { assert (d + e <= dc + ec); [|destruct (Z.eq_dec ec (-1074)); lia].
    destruct (Z.le_gt_cases (d + e) (dc + ec)) as [|Hgt]; [done | exfalso].
    assert (2 ^ (dc + ec - lo) <= 2 ^ (d - 1 + e - lo)) as Hp by (apply Z.pow_le_mono_r; lia).
    replace (dc + ec - lo) with (dc + (ec - lo)) in Hp by lia.
    replace (d - 1 + e - lo) with ((d - 1) + (e - lo)) in Hp by lia.
    rewrite !pow2_split in Hp by lia.
    pose proof (pow2_pos (e - lo)). pose proof (pow2_pos (ec - lo)). nia. }
  set (C := Z.pos pc * 2 ^ (ec - e1)).
  assert (Z.pos m0 <= C * 2 ^ t) as HMC.
  { subst C. rewrite <- Z.mul_assoc, <- pow2_split by lia.
    replace (ec - lo) with ((ec - e1 + t) + (e - lo)) in Hv by lia.
    rewrite (pow2_split (ec - e1 + t)) in Hv by lia.
    pose proof (pow2_pos (e - lo)). nia. }
  pose proof (pow2_pos t Ht0) as Hpt.
  set (q := Z.pos m0 / 2 ^ t).
  assert (q <= C) as HqC.
  { subst q. apply Z.div_le_upper_bound; lia. }
  assert (Z.pos m0 mod 2 ^ t <> 0 -> q + 1 <= C) as HqC'.
  { intros Hne. subst q.
    pose proof (Z.div_mod (Z.pos m0) (2 ^ t) ltac:(lia)).
    pose proof (Z.mod_pos_bound (Z.pos m0) (2 ^ t) Hpt). nia. }
  assert (q < 2 ^ 53) as Hq53.
  { subst q. apply Z.div_lt_upper_bound; [done|].
    rewrite <- pow2_split by lia.
    assert (2 ^ d <= 2 ^ (t + 53)) by (apply Z.pow_le_mono_r; lia). lia. }
  assert (0 <= q) as Hq0 by (apply Z.div_pos; lia).
  assert (-1074 < e1 -> 2 ^ 52 <= q) as Hqn.
  { intros Hn. subst q. apply Z.div_le_lower_bound; [done|].
    replace (2 ^ t * 2 ^ 52) with (2 ^ (d - 1)); [lia|].
    rewrite <- pow2_split by lia. f_equal. lia. }
  (* first shift *)
  unfold binary_round_aux, shr_fexp. cbn [Zdigits2 shr_record_of_loc].
  rewrite fexp_eq. fold d. fold e1. fold t.
  destruct (shr_spec (Z.pos m0) e t ltac:(lia) Ht0) as (Hs1 & Hs2 & Hs3).
  destruct (shr {| shr_m := Z.pos m0; shr_r := false; shr_s := false |} e t) as [rec e'].
  cbn [fst snd] in Hs1, Hs2, Hs3. subst e'. replace (e + t) with e1 by lia.
  rewrite Hs2. fold q.
  pose proof (round_nearest_even_bounds q (loc_of_shr_record rec)) as [Hr1 Hr2].
  rewrite loc_exact, Hs3 in Hr2.
  set (m2 := round_nearest_even q (loc_of_shr_record rec)) in *.
  assert (m2 <= C) as Hm2C.
  { destruct (Z.eq_dec (Z.pos m0 mod 2 ^ t) 0) as [Hz | Hz]; [rewrite Hr2; done | lia]. }
  assert (-1074 <= e1) as He1 by lia.
  destruct (Z.eq_dec m2 0) as [Hm0 | Hm0].
  { left. rewrite Hm0. cbn [Zdigits2]. rewrite fexp_eq.
    destruct (Z.max (0 + e1 - 53) (-1074) - e1) eqn:E; try lia; reflexivity. }
  right.
  destruct m2 as [|p2|p2] eqn:E2; try lia.
  pose proof (digits2_bounds p2) as Hd2.
  set (d2 := Z.pos (digits2_pos p2)) in *.
  cbn [Zdigits2]. fold d2. rewrite fexp_eq.
  destruct (Z.eq_dec (Z.pos p2) (2 ^ 53)) as [Hc | Hc].
  - (* the mantissa carried into a new binade *)
    assert (d2 = 54) as Hd54.
    { subst d2. apply digits2_unique. rewrite Hc. cbn. lia. }
    rewrite Hd54. replace (Z.max (54 + e1 - 53) (-1074) - e1) with 1 by lia.
    change (Z.pos p2) with (Z.pos p2) at 1. rewrite Hc.
    change (2 ^ 53) with (2 ^ 52 * 2 ^ 1).
    rewrite shr_exact by lia. cbn [shr_m].
    change (2 ^ 52) with (Z.pos 4503599627370496).
    assert (2 ^ 53 <= C) by lia.
    assert (e1 < ec) as Hlt.
    { destruct (Z.eq_dec e1 ec) as [Heq | ]; [|lia]. exfalso.
      subst C. rewrite Heq, Z.sub_diag, Z.pow_0_r, Z.mul_1_r in *.
      assert (2 ^ dc <= 2 ^ 53) by (apply Z.pow_le_mono_r; lia). lia. }
    assert ((e1 + 1 <=? emax - prec) = true) as -> by (apply Z.leb_le; unfold emax, prec; lia).
    eexists _, _. split; [reflexivity|]. split.
    + apply bounded_intro; [cbn; lia | lia | intros; reflexivity].
    + destruct (Z.eq_dec (e1 + 1) ec) as [Heq|]; [right | left; lia].
      split; [done|]. rewrite Hnc in Hdpc by lia. change (Z.pos 4503599627370496) with (2 ^ (53 - 1)). lia.
  - assert (Z.pos p2 < 2 ^ 53) as Hlt53 by lia.
    assert (d2 <= 53) as Hd253.
    { destruct (Z.le_gt_cases d2 53); [done|].
      assert (2 ^ 53 <= 2 ^ (d2 - 1)) by (apply Z.pow_le_mono_r; lia). lia. }
    replace (shr {| shr_m := Z.pos p2; shr_r := false; shr_s := false |} e1
               (Z.max (d2 + e1 - 53) (-1074) - e1))
      with ({| shr_m := Z.pos p2; shr_r := false; shr_s := false |}, e1).
    2:{ destruct (Z.max (d2 + e1 - 53) (-1074) - e1) eqn:E; try lia; reflexivity. }
    cbn [shr_m].
    assert ((e1 <=? emax - prec) = true) as -> by (apply Z.leb_le; unfold emax, prec; lia).
    eexists _, _. split; [reflexivity|]. split.
    + apply bounded_intro; [done | lia |].
      intros Hn. specialize (Hqn Hn).
      subst d2. apply digits2_unique. lia.
    + destruct (Z.eq_dec e1 ec) as [Heq|]; [right | left; lia].
      split; [done|]. subst C. rewrite Heq, Z.sub_diag, Z.pow_0_r, Z.mul_1_r in *. lia.
Qed.


(** ** Index arithmetic without rounding *)

Lemma ofZ_dyadic k : ofZ k = dyadic k 0.
Proof. reflexivity. Qed.

Lemma toInt_ofZ k : Z.abs k < 2 ^ 53 -> toInt (ofZ k) = Some k.
Proof.
  intros Hk. destruct (Z.eq_dec k 0) as [-> | Hn]; [done|].
  rewrite ofZ_dyadic.
  destruct (dyadic_canon0 k 0 Hn Hk ltac:(lia)) as (p & e & -> & _ & He & Hp & _).
  cbn [toInt]. rewrite Hp. clear Hp.
  assert (cond_Zopp (k <? 0) (Z.abs k) = k) as Hs
    by (unfold cond_Zopp; destruct (Z.ltb_spec k 0); lia).
  destruct (Z.leb_spec 0 e) as [H0 | H0].
  - assert (e = 0) as -> by lia. change (0 - 0) with 0.
    rewrite !Z.pow_0_r, !Z.mul_1_r, Hs. reflexivity.
  - replace (0 - e) with (- e) by lia.
    assert (0 < 2 ^ (- e)) as Hpos by (apply Z.pow_pos_nonneg; lia).
    rewrite Z.mod_mul by lia. cbn [Z.eqb]. f_equal.
    unfold cond_Zopp in *. destruct (k <? 0).
    + rewrite <- Z.mul_opp_l, Z.div_mul by lia. exact Hs.
    + rewrite Z.div_mul by lia. exact Hs.
Qed.

Lemma mul_ofZ a b :
  0 < b -> Z.abs a < 2 ^ 53 -> b < 2 ^ 53 -> Z.abs (a * b) < 2 ^ 53 ->
  mul (ofZ a) (ofZ b) = ofZ (a * b).
Proof.
  intros Hb0 Ha Hb Hab. rewrite !ofZ_dyadic.
  assert ((a * b <? 0) = (a <? 0)) as Hsign.
  { destruct (Z.ltb_spec a 0) as [Hneg | Hpos].
    - apply Z.ltb_lt. by apply Z.mul_neg_pos.
    - apply Z.ltb_ge. apply Z.mul_nonneg_nonneg; lia. }
  assert (a <> 0 -> a * b <> 0) as Hnz.
  { intros Hna Hz. apply Z.mul_eq_0 in Hz. lia. }
  destruct (dyadic_canon0 b 0 ltac:(lia) ltac:(lia) ltac:(lia))
    as (pb & eb & -> & _ & Heb & Hpb & Hrb).
  replace (b <? 0) with false by (symmetry; apply Z.ltb_ge; lia).
  destruct (Z.eq_dec a 0) as [-> | Hna]; [done|].
  destruct (dyadic_canon0 a 0 Hna Ha ltac:(lia)) as (pa & ea & -> & _ & Hea & Hpa & Hra).
  destruct (dyadic_canon0 (a * b) 0 (Hnz Hna) Hab ltac:(lia))
    as (p & e & -> & Hbd & He & Hp & Hr).
  unfold mul. cbn [SFmul]. rewrite xorb_false_r.
  rewrite Hsign.
  assert (0 < 2 ^ (0 - ea) /\ 0 < 2 ^ (0 - eb) /\ 0 < 2 ^ (0 - e)) as (P1 & P2 & P3)
    by (repeat split; apply Z.pow_pos_nonneg; lia).
  rewrite Z.abs_mul in Hp. rewrite (Z.abs_eq b) in Hp, Hpb by lia.
  assert (ea + eb <= e) as Hle.
  { destruct (Z.le_gt_cases (ea + eb) e) as [|Hgt]; [done | exfalso].
    set (d := ea + eb - e).
    assert (2 ^ (0 - e) = 2 ^ (0 - ea) * 2 ^ (0 - eb) * 2 ^ d) as E.
    { rewrite <- !Z.pow_add_r by lia. f_equal. lia. }
    assert (2 ^ 1 <= 2 ^ d) as Hd by (apply Z.pow_le_mono_r; lia).
    change (2 ^ 1) with 2 in Hd.
    assert (Z.pos p = (Z.pos pa * Z.pos pb) * 2 ^ d) as Ep.
    { rewrite Hp, E, Hpa, Hpb. ring. }
    assert (2 ^ 52 * 2 ^ 52 <= Z.pos pa * Z.pos pb) as Hpp
      by (apply Z.mul_le_mono_nonneg; lia).
    assert (Z.pos pa * Z.pos pb * 2 <= Z.pos pa * Z.pos pb * 2 ^ d) as Hpd
      by (apply Z.mul_le_mono_nonneg_l; lia).
    change (2 ^ 52 * 2 ^ 52) with 20282409603651670423947251286016 in Hpp.
    change (2 ^ 53) with 9007199254740992 in Hr. lia. }
  set (k := e - (ea + eb)).
  assert (Z.pos (pa * pb) = Z.pos p * 2 ^ k) as ->.
  { rewrite Pos2Z.inj_mul, Hpa, Hpb, Hp.
    assert (2 ^ (0 - ea) * 2 ^ (0 - eb) = 2 ^ (0 - e) * 2 ^ k) as E.
    { rewrite <- !Z.pow_add_r by lia. f_equal. lia. }
    transitivity (Z.abs a * b * (2 ^ (0 - ea) * 2 ^ (0 - eb))); [ring|].
    rewrite E. ring. }
  replace (ea + eb) with (e - k) by lia.
  apply round_aux_exact; [done | lia].
Qed.

Lemma rem_ofZ a n :
  0 <= a < 2 ^ 53 -> 0 < n < 2 ^ 53 -> rem (ofZ a) (ofZ n) = ofZ (a mod n).
Proof.
  intros Ha Hn. rewrite !ofZ_dyadic.
  destruct (Z.eq_dec a 0) as [-> | Hna].
  - destruct (dyadic_canon0 n 0 ltac:(lia) ltac:(lia) ltac:(lia)) as (p & e & -> & _).
    reflexivity.
  - rewrite rem_dyadic by lia. rewrite Z.rem_mod_nonneg by lia.
    replace (a <? 0) with false by (symmetry; apply Z.ltb_ge; lia).
    by destruct (Z.eqb_spec (a mod n) 0) as [-> | _].
Qed.

(** Inside the exact range [idx] is the index [j * nx + (i mod nx)]. *)
Lemma idx_exact g j i :
  0 < nx g -> - nx g <= i -> i + nx g < 2 ^ 53 ->
  Z.abs j * nx g + nx g < 2 ^ 53 ->
  idx g (ofZ j) (ofZ i) = ofZ (j * nx g + i mod nx g).
Proof.
  intros Hn Hlo Hhi Hj. set (N := nx g) in *.
  change (2 ^ 53) with 9007199254740992 in *.
  assert (N < 9007199254740992) as HN by (pose proof (Z.abs_nonneg j); nia).
  assert (Z.abs (j * N) + N < 9007199254740992) as HjN by (rewrite Z.abs_mul; lia).
  pose proof (Z.mod_pos_bound i N Hn) as Hr.
  unfold idx. fold N. rewrite !ofZ_dyadic.
  rewrite (add_dyadic i N 0) by (change (2 ^ 53) with 9007199254740992; lia).
  rewrite <- !ofZ_dyadic.
  rewrite rem_ofZ by (change (2 ^ 53) with 9007199254740992; lia).
  replace ((i + N) mod N) with (i mod N)
    by (rewrite <- (Z.mul_1_l N) at 2; by rewrite Z.mod_add by lia).
  rewrite mul_ofZ; try (change (2 ^ 53) with 9007199254740992; lia).
  rewrite !ofZ_dyadic. apply add_dyadic; change (2 ^ 53) with 9007199254740992; lia.
Qed.

Lemma sampleAt_ofZ g A j i :
  Z.abs (j * nx g + i mod nx g) < 2 ^ 53 ->
  sampleAt A (ofZ (j * nx g + i mod nx g)) = gridCell g A j i.
Proof. intros H. unfold sampleAt, gridCell. by rewrite toInt_ofZ. Qed.

(** At an exact cell whose column is at or above [-nx], the four reads
    of [interp] are the four cells around the corner. *)
Lemma neighbours_exact g A lon lat i0 j0 :
  exactCell g j0 i0 -> - nx g <= i0 ->
  Math_floor (gridI g lon) = ofZ i0 -> Math_floor (gridJ g lat) = ofZ j0 ->
  neighbours g A lon lat = cellsAround g A j0 i0.
Proof.
  intros (Hn & Hi & Hj) Hlo Ei Ej. set (N := nx g) in *.
  change (2 ^ 53) with 9007199254740992 in *.
  assert (N < 9007199254740992) as HN by (pose proof (Z.abs_nonneg j0); nia).
  assert (add (ofZ i0) (ofZ 1) = ofZ (i0 + 1)) as Ei1.
  { rewrite !ofZ_dyadic. apply add_dyadic; change (2 ^ 53) with 9007199254740992; lia. }
  assert (add (ofZ j0) (ofZ 1) = ofZ (j0 + 1)) as Ej1.
  { rewrite !ofZ_dyadic. pose proof (Z.abs_nonneg j0).
    apply add_dyadic; change (2 ^ 53) with 9007199254740992; nia. }
  assert (forall j i, (j = j0 \/ j = j0 + 1) -> (i = i0 \/ i = i0 + 1) ->
            sampleAt A (idx g (ofZ j) (ofZ i)) = gridCell g A j i) as Hread.
  { intros j i Hjj Hii.
    assert (Z.abs j * N + N < 9007199254740992) as Hb by nia.
    pose proof (Z.mod_pos_bound i N Hn).
    rewrite idx_exact; fold N; try (change (2 ^ 53) with 9007199254740992; lia).
    apply sampleAt_ofZ. fold N. change (2 ^ 53) with 9007199254740992.
    rewrite Z.abs_lt. pose proof (Z.abs_nonneg j). split; nia. }
  unfold neighbours, cellsAround. cbv zeta. rewrite Ei, Ej, Ei1, Ej1.
  rewrite !Hread by lia. reflexivity.
Qed.

(** ** Missing samples propagate through the interpolation *)

Lemma mul_NaN_l y : mul NaN y = NaN.
Proof. reflexivity. Qed.

Lemma mul_NaN_r x : mul x NaN = NaN.
Proof. by destruct x. Qed.

Lemma add_NaN_l y : add NaN y = NaN.
Proof. reflexivity. Qed.

Lemma add_NaN_r x : add x NaN = NaN.
Proof. by destruct x. Qed.

Lemma isNaN_eq x : isNaN x = true -> x = NaN.
Proof. by destruct x. Qed.

Lemma bilinear_missing g00 g10 g01 g11 fi fj :
  existsb isNaN [g00; g10; g01; g11] = true ->
  bilinear g00 g10 g01 g11 fi fj = NaN.
Proof.
  cbn [existsb]. rewrite orb_false_r, !orb_true_iff.
  unfold bilinear.
  intros [H | [H | [H | H]]]; apply isNaN_eq in H; subst;
    rewrite ?mul_NaN_l, ?mul_NaN_r, ?add_NaN_l, ?add_NaN_r; reflexivity.
Qed.

Lemma interp_neighbours g A lon lat :
  interp g A (gridI g lon) (gridJ g lat)
  = match neighbours g A lon lat with
    | [g00; g10; g01; g11] =>
        bilinear g00 g10 g01 g11 (frac (gridI g lon)) (frac (gridJ g lat))
    | _ => NaN
    end.
Proof. cbv beta iota zeta delta [interp neighbours frac]. reflexivity. Qed.

Lemma interp_missing g A lon lat :
  existsb isNaN (neighbours g A lon lat) = true ->
  interp g A (gridI g lon) (gridJ g lat) = NaN.
Proof. rewrite interp_neighbours. apply bilinear_missing. Qed.

Lemma interp_missing_cell g A lon lat i0 j0 :
  exactCell g j0 i0 -> - nx g <= i0 ->
  Math_floor (gridI g lon) = ofZ i0 -> Math_floor (gridJ g lat) = ofZ j0 ->
  existsb isNaN (cellsAround g A j0 i0) = true ->
  interp g A (gridI g lon) (gridJ g lat) = NaN.
Proof.
  intros Hx Hlo Ei Ej Hm. apply interp_missing.
  by rewrite (neighbours_exact g A lon lat i0 j0).
Qed.

(** C1 (as amended).  At a position whose cell corner [(j0, i0)] has
    its column at or above [-nx] and lies where no step of the index
    arithmetic rounds: whenever one of the four neighbour cells -- rows
    [j0] and [j0 + 1], columns [i0] and [i0 + 1] taken modulo [nx] -- is
    missing (a NaN sample, or no entry of the array), [windAt] returns
    NaN for that component: for [u] when the cell is missing in [U], for
    [v] when it is missing in [V].  The blend itself returns NaN for
    every pair of offsets [fi], [fj], so no value is ever substituted
    for the missing one. *)
Theorem windAt_missing_propagates g U V lon lat i0 j0 :
  exactCell g j0 i0 -> - nx g <= i0 ->
  Math_floor (gridI g lon) = ofZ i0 -> Math_floor (gridJ g lat) = ofZ j0 ->
  (existsb isNaN (cellsAround g U j0 i0) = true ->
   u (windAt g U V lon lat) = NaN)
  /\ (existsb isNaN (cellsAround g V j0 i0) = true ->
      v (windAt g U V lon lat) = NaN)
  /\ (forall g00 g10 g01 g11 fi fj,
        existsb isNaN [g00; g10; g01; g11] = true ->
        bilinear g00 g10 g01 g11 fi fj = NaN).
Proof.
  intros Hx Hlo Ei Ej. split; [|split].
  - by apply interp_missing_cell.
  - by apply interp_missing_cell.
  - apply bilinear_missing.
Qed.

(** C1 fails as stated where the column addition rounds.  On a grid of
    two columns with a step of [2^-46] degrees the position [(128, 0)]
    has column [i0 = 2^53]; its neighbour in column [i0 + 1], an odd
    column, is the missing sample of row 0, yet [i0 + 1] rounds back to
    [i0], the sampler reads column 0 twice and returns 2. *)
Lemma windAt_misses_rounded_neighbour :
  Math_floor (gridI fineGrid (ofZ 128)) = ofZ (2 ^ 53)
  /\ Math_floor (gridJ fineGrid (ofZ 0)) = ofZ 0
  /\ isNaN (gridCell fineGrid fineU 0 (2 ^ 53 + 1)) = true
  /\ add (ofZ (2 ^ 53)) (ofZ 1) = ofZ (2 ^ 53)
  /\ u (windAt fineGrid fineU fineU (ofZ 128) (ofZ 0)) = ofZ 2.
Proof. vm_compute. repeat split. Qed.

(** ** Sampling exactly on a grid point *)

Lemma mul_zero_r x s :
  isFinite x = true -> isZero (mul x (S754_zero s)) = true.
Proof. by destruct x. Qed.

Lemma mul_zero_l x s :
  isFinite x = true -> isZero (mul (S754_zero s) x) = true.
Proof. by destruct x. Qed.

Lemma add_zero_r x z :
  isFinite x = true -> isZero z = true ->
  eqb (add x z) x = true /\ (isZero x = false -> add x z = x).
Proof.
  destruct z as [sz| | |]; try done. intros Hx _.
  destruct x as [sx| | |sx m e]; try done.
  - by destruct sx, sz.
  - split; [|done]. cbn [add SFadd]. unfold eqb, SFeqb. cbn [SFcompare].
    destruct sx; destruct (Z.compare_spec e e); try lia;
      change (Pos.compare_cont Eq m m) with (m ?= m)%positive;
      by rewrite Pos.compare_refl.
Qed.

Lemma bilinear_at_corner g00 g10 g01 g11 :
  forallb (valid_binary prec emax) [g00; g10; g01; g11] = true ->
  forallb isFinite [g00; g10; g01; g11] = true ->
  eqb (bilinear g00 g10 g01 g11 (S754_zero false) (S754_zero false)) g00 = true
  /\ (isZero g00 = false ->
      bilinear g00 g10 g01 g11 (S754_zero false) (S754_zero false) = g00).
Proof.
  cbn [forallb]. rewrite !andb_true_r, !andb_true_iff.
  intros (V00 & V10 & V01 & V11) (F00 & F10 & F01 & F11).
  unfold bilinear.
  change (sub (ofZ 1) (S754_zero false)) with (ofZ 1).
  rewrite !(mul_one_r g00), (mul_one_r g01) by done.
  pose proof (mul_zero_r g10 false F10) as Z1.
  pose proof (mul_zero_r g01 false F01) as Z2.
  pose proof (mul_zero_r g11 false F11) as Z3.
  destruct (mul g10 (S754_zero false)) as [s1| | |]; try done.
  change (mul (S754_zero s1) (ofZ 1)) with (S754_zero (xorb s1 false)).
  destruct (mul g01 (S754_zero false)) as [s2| | |]; try done.
  destruct (mul g11 (S754_zero false)) as [s3| | |]; try done.
  change (mul (S754_zero s3) (S754_zero false)) with (S754_zero (xorb s3 false)).
  destruct g00 as [s0| | |s0 m0 e0]; try done.
  - split; [|done]. by destruct s0, s1, s2, s3.
  - split; [|done]. cbn [add SFadd].
    destruct (add_zero_r (S754_finite s0 m0 e0) (S754_zero false) eq_refl eq_refl) as [H _].
    exact H.
Qed.

Lemma interp_on_grid_point g A lon lat i0 j0 :
  exactCell g j0 i0 -> - nx g <= i0 ->
  Math_floor (gridI g lon) = ofZ i0 -> Math_floor (gridJ g lat) = ofZ j0 ->
  forallb (valid_binary prec emax) (cellsAround g A j0 i0) = true ->
  forallb isFinite (cellsAround g A j0 i0) = true ->
  frac (gridI g lon) = S754_zero false ->
  frac (gridJ g lat) = S754_zero false ->
  eqb (interp g A (gridI g lon) (gridJ g lat)) (gridCell g A j0 i0) = true
  /\ (isZero (gridCell g A j0 i0) = false ->
      interp g A (gridI g lon) (gridJ g lat) = gridCell g A j0 i0).
Proof.
  intros Hx Hlo Ei Ej HV HF Hi Hj.
  rewrite interp_neighbours, Hi, Hj, (neighbours_exact g A lon lat i0 j0) by done.
  unfold cellsAround in *. by apply bilinear_at_corner.
Qed.

(** C2 (as amended).  At a position whose fractional grid coordinates
    are integers (both offsets are zero), whose cell corner [(j0, i0)]
    has its column at or above [-nx] and lies where no step of the
    index arithmetic rounds, and whose four neighbour cells hold finite
    samples, [windAt] returns the sample stored for row [j0] and column
    [i0] modulo [nx] -- entry [j0 * nx + (i0 mod nx)] of [U] (resp.
    [V]): the result is [===] to it, and is the very same number unless
    the stored sample is a zero. *)
Theorem windAt_on_grid_point g U V lon lat i0 j0 :
  exactCell g j0 i0 -> - nx g <= i0 ->
  Math_floor (gridI g lon) = ofZ i0 -> Math_floor (gridJ g lat) = ofZ j0 ->
  forallb (valid_binary prec emax) (cellsAround g U j0 i0 ++ cellsAround g V j0 i0) = true ->
  forallb isFinite (cellsAround g U j0 i0 ++ cellsAround g V j0 i0) = true ->
  frac (gridI g lon) = S754_zero false ->
  frac (gridJ g lat) = S754_zero false ->
  let w := windAt g U V lon lat in
  (eqb (u w) (gridCell g U j0 i0) = true
   /\ (isZero (gridCell g U j0 i0) = false -> u w = gridCell g U j0 i0))
  /\ (eqb (v w) (gridCell g V j0 i0) = true
      /\ (isZero (gridCell g V j0 i0) = false -> v w = gridCell g V j0 i0)).
Proof.
  rewrite !forallb_app, !andb_true_iff.
  intros Hx Hlo Ei Ej [HVu HVv] [HFu HFv] Hi Hj. cbv zeta. split.
  - by apply interp_on_grid_point.
  - by apply interp_on_grid_point.
Qed.

Lemma windAt_on_grid_point_witness :
  gridCell scenarioGrid scenarioU 0 1 = ofZ 10
  /\ u (windAt scenarioGrid scenarioU scenarioU (ofZ 10) (ofZ 10)) = ofZ 10.
Proof.
  split; [reflexivity|].
  assert (exactCell scenarioGrid 0 1) as Hx by (unfold exactCell; cbn; lia).
  assert (- nx scenarioGrid <= 1) as Hlo by (cbn; lia).
  destruct (windAt_on_grid_point scenarioGrid scenarioU scenarioU (ofZ 10) (ofZ 10) 1 0
              Hx Hlo eq_refl eq_refl eq_refl eq_refl eq_refl eq_refl) as [[_ Hu] _].
  apply Hu. reflexivity.
Defined.

(** C2 fails as stated on the last row: the point [(i, j) = (1, 1)] of
    the scenario grid lies on the grid with [j = ny - 1], the cell holds
    10, and the sampler returns NaN. *)
Lemma windAt_last_row_missing :
  frac (gridI scenarioGrid (ofZ 10)) = S754_zero false
  /\ frac (gridJ scenarioGrid (ofZ 0)) = S754_zero false
  /\ cellOf (gridI scenarioGrid (ofZ 10)) = Some 1
  /\ cellOf (gridJ scenarioGrid (ofZ 0)) = Some (ny scenarioGrid - 1)
  /\ sampleAt scenarioU (idx scenarioGrid (ofZ 1) (ofZ 1)) = ofZ 10
  /\ u (windAt scenarioGrid scenarioU scenarioU (ofZ 10) (ofZ 0)) = NaN.
Proof. vm_compute. repeat split. Qed.

(** ** Longitude wraparound *)

Lemma rem_mod_pos a b :
  0 < b -> a mod b = if Z.rem a b <? 0 then Z.rem a b + b else Z.rem a b.
Proof.
  intros Hb. pose proof (Z.quot_rem' a b) as E.
  destruct (Z.ltb_spec (Z.rem a b) 0) as [Hn | Hn]; symmetry.
  - apply (Z.mod_unique_pos a b (a ÷ b - 1)); [|lia].
    pose proof (Z.rem_bound_abs a b ltac:(lia)). lia.
  - apply (Z.mod_unique_pos a b (a ÷ b)); [|lia].
    pose proof (Z.rem_bound_abs a b ltac:(lia)). lia.
Qed.

Lemma ofZ_180 : ofZ 180 = dyadic (180 * 2 ^ 43) (-43).
Proof. reflexivity. Qed.

Lemma ofZ_360 : ofZ 360 = dyadic (360 * 2 ^ 43) (-43).
Proof. reflexivity. Qed.

Lemma ofZ_m180 : ofZ (-180) = dyadic (- 180 * 2 ^ 43) (-43).
Proof. reflexivity. Qed.

(** On multiples of [2^-43] no step of the normalisation rounds. *)
Lemma normalizeLon_dyadic k :
  Z.abs (k + 180 * 2 ^ 43) < 2 ^ 53 -> Z.abs k < 2 ^ 53 ->
  normalizeLon (dyadic k (-43))
  = dyadic ((k + 180 * 2 ^ 43) mod (360 * 2 ^ 43) - 180 * 2 ^ 43) (-43).
Proof.
  intros HK Hk. unfold normalizeLon.
  rewrite ofZ_180, ofZ_360, ofZ_m180.
  set (S43 := 2 ^ 43) in *. assert (S43 = 8796093022208) as ES by reflexivity.
  change (2 ^ 53) with 9007199254740992 in *.
  rewrite add_dyadic by lia.
  set (K := k + 180 * S43) in *.
  set (R := Z.rem K (360 * S43)).
  assert (Z.abs R < 360 * S43) as HR.
  { subst R. pose proof (Z.rem_bound_abs K (360 * S43) ltac:(lia)). lia. }
  assert (sub (rem (dyadic K (-43)) (dyadic (360 * S43) (-43))) (dyadic (180 * S43) (-43))
          = dyadic (R - 180 * S43) (-43)) as ->.
  { destruct (Z.eq_dec K 0) as [HK0 | HK0].
    - rewrite HK0. subst R. rewrite HK0. by vm_compute.
    - rewrite rem_dyadic by lia. fold R.
      destruct (Z.eqb_spec R 0) as [-> | HR0].
      + destruct (K <? 0); by vm_compute.
      + apply sub_dyadic; lia. }
  rewrite (rem_mod_pos K (360 * S43)) by lia. fold R.
  rewrite lt_dyadic by lia.
  destruct (Z.ltb_spec (R - 180 * S43) (- 180 * S43)) as [Hn | Hn].
  - rewrite add_dyadic by lia.
    replace (R - 180 * S43 + 360 * S43) with (R + 180 * S43) by lia.
    unfold gt. rewrite lt_dyadic by lia.
    replace (180 * S43 <? R + 180 * S43) with false by (symmetry; apply Z.ltb_ge; lia).
    replace (R <? 0) with true by (symmetry; apply Z.ltb_lt; lia).
    f_equal. lia.
  - unfold gt. rewrite lt_dyadic by lia.
    replace (180 * S43 <? R - 180 * S43) with false by (symmetry; apply Z.ltb_ge; lia).
    replace (R <? 0) with false by (symmetry; apply Z.ltb_ge; lia).
    reflexivity.
Qed.





(** ** Rows are not wrapped *)

Lemma readAt_out_of_range A k :
  k < 0 \/ Z.of_nat (length A) <= k -> readAt A (Some k) = None.
Proof.
  intros [H | H]; unfold readAt.
  - by destruct (Z.leb_spec 0 k); [lia|].
  - destruct (Z.leb_spec 0 k); [|done]. apply lookup_ge_None. lia.
Qed.

Lemma gridCell_row_out_of_range g A j i :
  0 < nx g -> Z.of_nat (length A) = nx g * ny g ->
  j < 0 \/ ny g <= j ->
  gridCell g A j i = NaN.
Proof.
  intros Hn Hlen Hj. unfold gridCell.
  pose proof (Z.mod_pos_bound i (nx g) Hn).
  rewrite readAt_out_of_range; [done|].
  destruct Hj; [left | right]; nia.
Qed.

(** With the column at or above [-nx] and exact index arithmetic, a
    needed row outside [[0, ny - 1]] makes the interpolation NaN. *)
Lemma interp_row_out_of_range g A lon lat i0 j0 :
  exactCell g j0 i0 -> - nx g <= i0 ->
  Z.of_nat (length A) = nx g * ny g ->
  Math_floor (gridI g lon) = ofZ i0 -> Math_floor (gridJ g lat) = ofZ j0 ->
  j0 < 0 \/ ny g <= j0 + 1 ->
  interp g A (gridI g lon) (gridJ g lat) = NaN.
Proof.
  intros Hx Hcol Hlen Hi Hj Hrow.
  apply (interp_missing_cell g A lon lat i0 j0); try done.
  destruct Hx as (Hn & _). unfold cellsAround. cbn [existsb].
  destruct Hrow as [Hrow | Hrow].
  - by rewrite (gridCell_row_out_of_range g A j0 i0) by (done || lia).
  - rewrite (gridCell_row_out_of_range g A (j0 + 1) i0) by (done || lia).
    cbn [isNaN]. by rewrite !orb_true_r.
Qed.

(** C9, at the failing input.  On the regional grid ([nx = 10],
    [lo1 = 200]) the position [(-175, -5)] has column [i0 = -15], below
    [-nx], and row [j0 = 1 = ny - 1]; the reads for row 2, outside
    [[0, ny - 1]], land on indices 15 and 16 inside the array, and the
    sampler returns the finite value 10. *)
Theorem windAt_row_wrap_regional :
  cellOf (gridI regionalGrid (ofZ (-175))) = Some (-15)
  /\ cellOf (gridJ regionalGrid (ofZ (-5))) = Some (ny regionalGrid - 1)
  /\ idx regionalGrid (ofZ 2) (ofZ (-15)) = ofZ 15
  /\ idx regionalGrid (ofZ 2) (ofZ (-14)) = ofZ 16
  /\ windAt regionalGrid regionalU regionalU (ofZ (-175)) (ofZ (-5))
     = {| u := ofZ 10; v := ofZ 10 |}.
Proof. vm_compute. repeat split. Qed.

(** ** Loading *)

Lemma loadWindFile_level st uv :
  snd (loadWindFile st uv)
  = snd st ++ match windLevelOf uv with Some l => [l] | None => [] end.
Proof.
  unfold loadWindFile, windLevelOf.
  destruct (uv !! 0%nat), (uv !! 1%nat); cbn [snd]; by rewrite ?app_nil_r.
Qed.

Lemma loadWind_from st files :
  snd (fold_left loadWindFile files st) = snd st ++ omap windLevelOf files.
Proof.
  revert st. induction files as [|uv files IH]; intros st; cbn [fold_left omap].
  - by rewrite app_nil_r.
  - rewrite IH, loadWindFile_level. simpl.
    destruct (windLevelOf uv); by rewrite <- ?app_assoc, ?app_nil_r.
Qed.

Lemma loadTempFile_level st tObj :
  snd (loadTempFile st tObj)
  = snd st ++ match tempLevelOf tObj with Some l => [l] | None => [] end.
Proof.
  unfold loadTempFile, tempLevelOf.
  destruct tObj as [[[h|] [|d| |]]|]; cbn [snd rawHeader rawData]; by rewrite ?app_nil_r.
Qed.

Lemma loadTemp_from st files :
  snd (fold_left loadTempFile files st) = snd st ++ omap tempLevelOf files.
Proof.
  revert st. induction files as [|o files IH]; intros st; cbn [fold_left omap].
  - by rewrite app_nil_r.
  - rewrite IH, loadTempFile_level. simpl.
    destruct (tempLevelOf o); by rewrite <- ?app_assoc, ?app_nil_r.
Qed.

Lemma loadWindFileRaw_level m next uv :
  windShaped uv = true ->
  snd (loadWindFileRaw (m, Some next) uv)
  = Some (next ++ match windLevelOfRaw uv with Some l => [l] | None => [] end).
Proof.
  unfold loadWindFileRaw, windShaped, windLevelOfRaw. cbn [fst snd].
  destruct (mjoin (uv !! 0%nat)) as [[[h|] [|dv| |]]|],
           (mjoin (uv !! 1%nat)) as [[hu [|du| |]]|];
    cbn [rawHeader rawData snd]; try done; intros _; by rewrite ?app_nil_r.
Qed.

Lemma loadWindRaw_from m next files :
  forallb windShaped files = true ->
  snd (fold_left loadWindFileRaw files (m, Some next))
  = Some (next ++ omap windLevelOfRaw files).
Proof.
  revert m next. induction files as [|uv files IH]; intros m next; cbn [fold_left omap forallb].
  - by rewrite app_nil_r.
  - rewrite andb_true_iff. intros [H1 H2].
    pose proof (loadWindFileRaw_level m next uv H1) as E.
    destruct (loadWindFileRaw (m, Some next) uv) as [m' [next'|]]; cbn [snd] in E; [|done].
    injection E as ->. rewrite IH by done. simpl.
    destruct (windLevelOfRaw uv); by rewrite <- ?app_assoc, ?app_nil_r.
Qed.

(** On files of the declared type the two wind loaders agree. *)
Lemma loadWindRaw_typed files :
  loadWindRaw (map (map (fun o => Some (rawOf o))) files)
  = (fst (loadWind files), Some (snd (loadWind files))).
Proof.
  unfold loadWindRaw, loadWind.
  assert (forall m next,
            fold_left loadWindFileRaw (map (map (fun o => Some (rawOf o))) files) (m, Some next)
            = (fst (fold_left loadWindFile files (m, next)),
               Some (snd (fold_left loadWindFile files (m, next))))) as H; [|apply H].
  induction files as [|uv files IH]; intros m next; cbn [fold_left map]; [done|].
  assert (loadWindFileRaw (m, Some next) (map (fun o => Some (rawOf o)) uv)
          = (fst (loadWindFile (m, next) uv), Some (snd (loadWindFile (m, next) uv)))) as ->.
  { unfold loadWindFileRaw, loadWindFile. cbn [fst snd].
    rewrite !list_lookup_fmap.
    destruct (uv !! 0%nat) as [vObj|], (uv !! 1%nat) as [uObj|]; try done. }
  destruct (loadWindFile (m, next) uv) as [m' next']. apply IH.
Qed.

(** C3 (as amended).  Neither loader inspects [nx], [dx] or the array
    length, so a malformed header never excludes a level.  The
    temperature levels are exactly the files that have an object with a
    header and an array as data, in manifest order; every other file is
    skipped and the rest still load.  Over wind files that either lack
    a record or have a header on the first record and arrays as data on
    both, the wind levels are exactly the files with both records, in
    manifest order.  Each such level is built from the label fields of
    the header and from the data alone. *)
Theorem loaders_keep_every_complete_file files tfiles :
  forallb windShaped files = true ->
  snd (loadWindRaw files) = Some (omap windLevelOfRaw files)
  /\ snd (loadTemp tfiles) = omap tempLevelOf tfiles
  /\ (forall h hu dv du rest,
        windLevelOfRaw (Some {| rawHeader := Some h; rawData := DataArray dv |}
                          :: Some {| rawHeader := hu; rawData := DataArray du |} :: rest)
        = Some {| wl_label := labelOf h; wl_U := to32 du; wl_V := to32 dv;
                  wl_S := speedOverlay (to32 du) (to32 dv) |})
  /\ (forall h d,
        tempLevelOf (Some {| rawHeader := Some h; rawData := DataArray d |})
        = Some {| tl_label := labelOf h; tl_T := to32 d |})
  /\ (forall o, is_Some (tempLevelOf o) <->
                exists h d, o = Some {| rawHeader := Some h; rawData := DataArray d |}).
Proof.
  intros Hs. split; [|split; [|split; [|split]]].
  - unfold loadWindRaw. by rewrite loadWindRaw_from.
  - unfold loadTemp. by rewrite loadTemp_from.
  - done.
  - done.
  - intros o. split.
    + destruct o as [[[h|] [|d| |]]|]; intros [l Hl]; try done. by exists h, d.
    + intros (h & d & ->). by eexists.
Qed.

Lemma loaders_keep_every_complete_file_witness :
  length (default [] (snd (loadWindRaw [[Some malformedTemp; Some malformedTemp]; []]))) = 1%nat.
Proof.
  destruct (loaders_keep_every_complete_file
              [[Some malformedTemp; Some malformedTemp]; []] [] eq_refl) as [-> _].
  reflexivity.
Defined.

(** C3 fails as stated: a file with [nx = 1], [dx = 0] and three
    samples for a 1 x 1 grid is loaded as a level, by both loaders. *)
Lemma malformed_level_is_loaded :
  wellFormed malformedHeader (data malformedObj) = false
  /\ length (snd (loadWind [[malformedObj; malformedObj]])) = 1%nat
  /\ snd (loadWindRaw [[Some (rawOf malformedObj); Some (rawOf malformedObj)]])
     = Some (snd (loadWind [[malformedObj; malformedObj]]))
  /\ length (snd (loadTemp [Some malformedTemp])) = 1%nat.
Proof. vm_compute. repeat split. Qed.

(** ** Temperature colours *)

Lemma lt_le x y : lt x y = true -> le x y = true.
Proof. unfold lt, le, SFltb, SFleb. by destruct (SFcompare x y) as [[| |]|]. Qed.

Lemma clampTemp_bounds tempC :
  isNaN tempC = false ->
  le minTemp (clampTemp tempC) = true /\ le (clampTemp tempC) maxTemp = true.
Proof.
  intros Hn. unfold clampTemp.
  assert (Math_min maxTemp tempC = maxTemp \/
          (Math_min maxTemp tempC = tempC /\ lt tempC maxTemp = true)) as [-> | [-> Hlt]].
  { destruct tempC as [s|s| |s m e]; try done; unfold Math_min, maxTemp;
      change (ofZ 50) with (S754_finite false 7036874417766400 (-47)); cbv iota beta.
    - right. done.
    - destruct s; [right | left]; done.
    - destruct (lt (S754_finite s m e) (S754_finite false 7036874417766400 (-47))) eqn:E;
        [right | left]; done. }
  - by vm_compute.
  - assert (Math_max minTemp tempC = minTemp \/
            (Math_max minTemp tempC = tempC /\ lt minTemp tempC = true)) as [-> | [-> Hgt]].
    { destruct tempC as [s|s| |s m e]; try done; unfold Math_max, minTemp;
        change (ofZ (-80)) with (S754_finite true 5629499534213120 (-46)); cbv iota beta.
      - right. done.
      - destruct s; [left | right]; done.
      - destruct (lt (S754_finite true 5629499534213120 (-46)) (S754_finite s m e)) eqn:E;
          [right | left]; done. }
    + by vm_compute.
    + split; by apply lt_le.
Qed.

Lemma tempColorScale_300 alpha :
  tempColorScale (ofZ 300) alpha
  = {| cr := ofZ 255; cg := ofZ 198; cb := ofZ 39;
       ca := Math_floor (mul alpha (ofZ 255)) |}.
Proof.
  unfold tempColorScale.
  change (negb (isFinite (ofZ 300))) with false. cbv iota.
  replace (rampRGB (normTemp (ofZ 300))) with (ofZ 255, ofZ 198, ofZ 39)
    by (vm_compute; reflexivity).
  reflexivity.
Qed.

(** ** Comparison with a representable bound *)

Lemma compare_cont_Z a b : Pos.compare_cont Eq a b = (Z.pos a ?= Z.pos b).
Proof. reflexivity. Qed.

Lemma round_upper s p e pc ec lo :
  bounded prec emax pc ec = true ->
  lo <= e -> lo <= ec ->
  Z.pos p * 2 ^ (e - lo) <= Z.pos pc * 2 ^ (ec - lo) ->
  binary_round prec emax s p e = S754_zero s \/
  exists m' e',
    binary_round prec emax s p e = S754_finite s m' e'
    /\ bounded prec emax m' e' = true /\ lexLe m' e' pc ec.
Proof.
  intros Hb Hlo1 Hlo2 Hv. unfold binary_round, shl_align.
  set (e1 := fexp prec emax (Z.pos (digits2_pos p) + e)).
  destruct (e1 - e) as [|dd|dd] eqn:E.
  - apply (round_aux_upper s p e pc ec lo); (done || lia).
  - apply (round_aux_upper s p e pc ec lo); (done || lia).
  - set (p' := Pos.iter xO p dd).
    assert (Z.pos p' = Z.pos p * 2 ^ (e - e1)) as Hp'.
    { subst p'. rewrite iter_xO. do 2 f_equal. lia. }
    assert (Z.pos (digits2_pos p') = Z.pos (digits2_pos p) + (e - e1)) as Hd'
      by (apply (digits2_shift p); (done || lia)).
    pose proof (bounded_facts _ _ Hb) as (_ & Hec & _).
    assert (-1074 <= e1) as He1 by (subst e1; rewrite fexp_eq; lia).
    apply (round_aux_upper s p' e1 pc ec (Z.min lo e1)); try (done || lia).
    + rewrite Hd'. replace (Z.pos (digits2_pos p) + (e - e1) + e1)
        with (Z.pos (digits2_pos p) + e) by lia. fold e1. lia.
    + rewrite Hp', <- Z.mul_assoc, <- pow2_split by lia.
      replace (e - e1 + (e1 - Z.min lo e1)) with ((e - lo) + (lo - Z.min lo e1)) by lia.
      replace (ec - Z.min lo e1) with ((ec - lo) + (lo - Z.min lo e1)) by lia.
      rewrite !pow2_split by lia.
      pose proof (pow2_pos (lo - Z.min lo e1) ltac:(lia)). nia.
Qed.

Lemma lexLe_le_pos m e pc ec :
  lexLe m e pc ec ->
  le (S754_finite false m e) (S754_finite false pc ec) = true.
Proof.
  intros [H | [-> H]]; unfold le, SFleb; cbn [SFcompare].
  - by rewrite (proj2 (Z.compare_lt_iff e ec) H).
  - rewrite Z.compare_refl. rewrite compare_cont_Z.
    destruct (Z.compare_spec (Z.pos m) (Z.pos pc)); (done || lia).
Qed.

Lemma lexLe_le_neg m e pc ec :
  lexLe m e pc ec ->
  le (S754_finite true pc ec) (S754_finite true m e) = true.
Proof.
  intros [H | [-> H]]; unfold le, SFleb; cbn [SFcompare].
  - by rewrite (proj2 (Z.compare_gt_iff ec e) H).
  - rewrite Z.compare_refl. rewrite compare_cont_Z.
    destruct (Z.compare_spec (Z.pos pc) (Z.pos m)); (done || lia).
Qed.

(** A product with a factor below one does not exceed the other factor. *)
Lemma mul_below_one px ex py ey :
  bounded prec emax px ex = true ->
  lt (S754_finite false px ex) (ofZ 1) = true ->
  bounded prec emax py ey = true ->
  Z.pos (digits2_pos py) = 53 ->
  mul (S754_finite false px ex) (S754_finite false py ey) = S754_zero false \/
  exists m' e',
    mul (S754_finite false px ex) (S754_finite false py ey) = S754_finite false m' e'
    /\ bounded prec emax m' e' = true /\ lexLe m' e' py ey.
Proof.
  intros Hbx Hlt Hby Hdy.
  pose proof (bounded_facts _ _ Hbx) as (Hdx & Hex & Hnx).
  pose proof (digits2_bounds px) as Hpx. pose proof (digits2_bounds py) as Hpy.
  rewrite Hdy in Hpy.
  assert (Z.pos px < 2 ^ 53) as Hpx53.
  { assert (2 ^ Z.pos (digits2_pos px) <= 2 ^ 53) by (apply Z.pow_le_mono_r; lia). lia. }
  assert (ex <= 0 /\ Z.pos px <= 2 ^ (- ex)) as [Hex0 Hpxe].
  { change (ofZ 1) with (S754_finite false 4503599627370496 (-52)) in Hlt.
    unfold lt, SFltb in Hlt. cbn [SFcompare] in Hlt.
    destruct (Z.compare_spec ex (-52)) as [-> | Hc | Hc]; try done.
    - rewrite compare_cont_Z in Hlt.
      destruct (Z.compare_spec (Z.pos px) 4503599627370496); try done.
      split; [lia|]. change (2 ^ (- -52)) with 4503599627370496. lia.
    - split; [lia|].
      assert (2 ^ 53 <= 2 ^ (- ex)) by (apply Z.pow_le_mono_r; lia). lia. }
  unfold mul. cbn [SFmul xorb].
  apply (round_aux_upper false (px * py) (ex + ey) py ey (ex + ey)); try (done || lia).
  - rewrite fexp_eq.
    pose proof (digits2_bounds (px * py)) as Hd.
    assert (53 <= Z.pos (digits2_pos (px * py))); [|lia].
    destruct (Z.le_gt_cases 53 (Z.pos (digits2_pos (px * py)))) as [|Hgt]; [done | exfalso].
    assert (2 ^ Z.pos (digits2_pos (px * py)) <= 2 ^ 52) by (apply Z.pow_le_mono_r; lia).
    change (2 ^ (53 - 1)) with (2 ^ 52) in Hpy. rewrite Pos2Z.inj_mul in Hd. nia.
  - rewrite Z.sub_diag, Z.pow_0_r, Z.mul_1_r, Pos2Z.inj_mul.
    replace (ey - (ex + ey)) with (- ex) by lia. nia.
Qed.

Lemma ofZ_90 : ofZ 90 = S754_finite false 6333186975989760 (-46).
Proof. reflexivity. Qed.

Lemma ofZ_180_canon : ofZ 180 = S754_finite false 6333186975989760 (-45).
Proof. reflexivity. Qed.

Lemma ofZ_m90 : ofZ (-90) = S754_finite true 6333186975989760 (-46).
Proof. reflexivity. Qed.

Lemma bounded_90 : bounded prec emax 6333186975989760 (-46) = true.
Proof. reflexivity. Qed.

(** Subtracting 90 from a number of [[0, 180]] stays within [[-90, 90]]. *)
Lemma sub_90_bounds m e :
  bounded prec emax m e = true ->
  lexLe m e 6333186975989760 (-45) ->
  le (ofZ (-90)) (sub (S754_finite false m e) (ofZ 90)) = true
  /\ le (sub (S754_finite false m e) (ofZ 90)) (ofZ 90) = true.
Proof.
  intros Hb Hle. rewrite ofZ_90, ofZ_m90. unfold sub. cbn [SFsub].
  pose proof (bounded_facts _ _ Hb) as (Hd & He & Hn).
  pose proof (digits2_bounds m) as Hm.
  assert (Z.pos m < 2 ^ 53) as Hm53.
  { assert (2 ^ Z.pos (digits2_pos m) <= 2 ^ 53) by (apply Z.pow_le_mono_r; lia). lia. }
  set (ez := Z.min e (-46)).
  rewrite !shl_align_val by lia. cbn [cond_Zopp].
  set (X := Z.pos m * 2 ^ (e - ez)). set (Y := 6333186975989760 * 2 ^ (-46 - ez)).
  assert (0 < X) as HX0 by (apply Z.mul_pos_pos; [lia | apply pow2_pos; lia]).
  assert (0 < Y) as HY0 by (apply Z.mul_pos_pos; [lia | apply pow2_pos; lia]).
  assert (X <= 2 * Y) as HXY.
  { subst X Y. destruct Hle as [Hlt | [-> Hle]].
    - replace (-46 - ez) with ((-46 - e) + (e - ez)) by lia.
      rewrite pow2_split by lia.
      pose proof (pow2_pos (-46 - e) ltac:(lia)).
      change (2 ^ 53) with 9007199254740992 in Hm53.
      pose proof (pow2_pos (e - ez) ltac:(lia)).
      set (A := 2 ^ (e - ez)) in *. set (B := 2 ^ (-46 - e)) in *.
      assert (Z.pos m * A <= 9007199254740992 * A) by nia.
      assert (A <= B * A) by nia. lia.
    - subst ez. replace (Z.min (-45) (-46)) with (-46) by lia.
      change (2 ^ (-45 - -46)) with 2. change (2 ^ (-46 - -46)) with 1. lia. }
  assert (forall s p, Z.pos p <= Y ->
            binary_round prec emax s p ez = S754_zero s \/
            exists m' e', binary_round prec emax s p ez = S754_finite s m' e'
              /\ bounded prec emax m' e' = true
              /\ lexLe m' e' 6333186975989760 (-46)) as Hround.
  { intros s p Hp. apply (round_upper s p ez _ _ ez); try (done || lia).
    rewrite Z.sub_diag, Z.pow_0_r, Z.mul_1_r. exact Hp. }
  destruct (X - Y) as [|p|p] eqn:ED; cbn [binary_normalize].
  - done.
  - destruct (Hround false p ltac:(lia)) as [-> | (m' & e' & -> & _ & Hl)]; [done|].
    split; [done | by apply lexLe_le_pos].
  - destruct (Hround true p ltac:(lia)) as [-> | (m' & e' & -> & _ & Hl)]; [done|].
    split; [by apply lexLe_le_neg | done].
Qed.

(** The latitude [r * 180 - 90] of a spawned particle, for a draw [r]
    of [[0, 1)]. *)
Lemma spawn_lat_bounds r :
  valid_binary prec emax r = true ->
  le (ofZ 0) r = true -> lt r (ofZ 1) = true ->
  le (ofZ (-90)) (sub (mul r (ofZ 180)) (ofZ 90)) = true
  /\ le (sub (mul r (ofZ 180)) (ofZ 90)) (ofZ 90) = true.
Proof.
  intros Hv H0 H1.
  destruct r as [s|s| |s m e]; try done.
  - destruct s; by vm_compute.
  - destruct s; [vm_compute in H0; discriminate|]. cbn [valid_binary] in Hv.
    rewrite ofZ_180_canon.
    destruct (mul_below_one m e 6333186975989760 (-45) Hv H1 eq_refl eq_refl)
      as [-> | (m' & e' & -> & Hb' & Hl)].
    + by vm_compute.
    + by apply sub_90_bounds.
Qed.

(** ** Particle life cycle *)

Section ParticleFacts.

Variable Math_cos Math_sin : number -> number.
Variable Math_hypot : number -> number -> number.
Variable project : Vec3.t -> Vec3.t.
Variable cameraPosition : Vec3.t.
Variable rendererSize canvasSize : number * number.
Variable g : GridMeta.
Variable U V : list number.
Variable overlayMode : OverlayMode.

Let update :=
  updateParticle Math_cos Math_sin Math_hypot project cameraPosition
    rendererSize canvasSize g U V overlayMode.

Lemma update_missing_wind p prevXY r1 r2 :
  isFinite (u (windAt g U V (lon p) (lat p)))
  && isFinite (v (windAt g U V (lon p) (lat p))) = false ->
  update p prevXY r1 r2 = recycle r1 r2.
Proof.
  intros H. unfold update, updateParticle.
  rewrite <- negb_andb, H. reflexivity.
Qed.

Lemma update_expired p prevXY r1 r2 :
  gt (add (age p) (ofZ 1)) PARTICLE_LIFE = true ->
  update p prevXY r1 r2 = recycle r1 r2.
Proof.
  intros H. unfold update, updateParticle.
  destruct (negb _ || negb _); [done|].
  destruct prevXY as [sx0 sy0].
  cbn [age advance]. rewrite H. reflexivity.
Qed.

(** A particle that is not recycled is the advanced one. *)
Lemma update_survivor p prevXY r1 r2 :
  isFinite (u (windAt g U V (lon p) (lat p)))
  && isFinite (v (windAt g U V (lon p) (lat p))) = true ->
  gt (add (age p) (ofZ 1)) PARTICLE_LIFE = false ->
  particle (update p prevXY r1 r2)
  = advance Math_cos p (windAt g U V (lon p) (lat p)).
Proof.
  intros Hf Ha. unfold update, updateParticle.
  rewrite <- negb_andb, Hf. cbn [negb].
  destruct prevXY as [sx0 sy0].
  cbn [age advance]. rewrite Ha.
  destruct (negb _ || negb _); [done|].
  destruct (worldToScreen _ _ _) as [[sx1 sy1]|]; done.
Qed.

Lemma update_particle_cases p prevXY r1 r2 :
  particle (update p prevXY r1 r2) = fresh r1 r2
  \/ particle (update p prevXY r1 r2)
     = advance Math_cos p (windAt g U V (lon p) (lat p)).
Proof.
  destruct (isFinite (u (windAt g U V (lon p) (lat p)))
            && isFinite (v (windAt g U V (lon p) (lat p)))) eqn:Hf.
  - destruct (gt (add (age p) (ofZ 1)) PARTICLE_LIFE) eqn:Ha.
    + left. by rewrite update_expired.
    + right. by apply update_survivor.
  - left. by rewrite update_missing_wind.
Qed.

Lemma update_drawn p prevXY r1 r2 seg :
  drawn (update p prevXY r1 r2) = Some seg ->
  strokeStyle seg = trailColor overlayMode (ofZ 0) (ofZ 0)
  /\ globalAlpha seg = trailAlpha (add (age p) (ofZ 1)).
Proof.
  unfold update, updateParticle.
  destruct (negb _ || negb _); [done|].
  destruct prevXY as [sx0 sy0].
  destruct (gt _ PARTICLE_LIFE); [done|].
  destruct (negb _ || negb _); [done|].
  destruct (worldToScreen _ _ _) as [[sx1 sy1]|]; [|done].
  cbn [drawn]. destruct (negb (isNaN sx0) && _); [|done].
  intros [= <-]. cbn [strokeStyle globalAlpha age advance]. by destruct overlayMode.
Qed.

End ParticleFacts.

(** ** The pole clamp *)

Lemma dec_89999 : dec 89999 3 = S754_finite false 6333116607245582 (-46).
Proof. by vm_compute. Qed.

Lemma SFcompare_antisym x y :
  SFcompare y x = match SFcompare x y with
                  | Some c => Some (CompOpp c)
                  | None => None
                  end.
Proof.
  destruct x as [sx|sx| |sx mx ex], y as [sy|sy| |sy my ey]; cbn [SFcompare];
    repeat match goal with b : bool |- _ => destruct b end; try reflexivity.
  - rewrite (Z.compare_antisym ex ey). destruct (ex ?= ey); cbn [CompOpp]; try done.
    change (Pos.compare_cont Eq my mx) with (Pos.compare_cont (CompOpp Eq) my mx).
    by rewrite <- Pos.compare_cont_antisym.
  - rewrite (Z.compare_antisym ex ey). destruct (ex ?= ey); cbn [CompOpp]; try done.
    change (Pos.compare_cont Eq my mx) with (Pos.compare_cont (CompOpp Eq) my mx).
    by rewrite <- Pos.compare_cont_antisym.
Qed.

Lemma le_not_gt x y : le x y = true -> gt x y = false.
Proof.
  unfold le, gt, SFleb, SFltb. rewrite (SFcompare_antisym x y).
  by destruct (SFcompare x y) as [[| |]|].
Qed.

Lemma le_not_lt x y : le x y = true -> lt y x = false.
Proof. apply le_not_gt. Qed.

Lemma clamp_above x :
  gt x (ofZ 90) = true ->
  clamp x (neg (dec 89999 3)) (dec 89999 3) = dec 89999 3.
Proof.
  rewrite dec_89999, ofZ_90. unfold clamp, neg. cbn [SFopp negb].
  unfold gt, lt, SFltb.
  destruct x as [s|s| |s m e]; cbn [SFcompare]; try done.
  - destruct s; [done|]. intros _. by vm_compute.
  - destruct s; [done|]. intros H.
    assert (lt (S754_finite false m e) (S754_finite false 6333116607245582 (-46)) = false) as Hlt.
    { unfold lt, SFltb. cbn [SFcompare].
      destruct (Z.compare_spec (-46) e) as [He | Hc | Hc]; try done.
      - subst e. rewrite Z.compare_refl. rewrite compare_cont_Z in *.
        destruct (Z.compare_spec 6333186975989760 (Z.pos m)); try done.
        destruct (Z.compare_spec (Z.pos m) 6333116607245582); (done || lia).
      - by rewrite (proj2 (Z.compare_gt_iff e (-46))) by lia. }
    unfold Math_min. rewrite Hlt. by vm_compute.
Qed.

Lemma clamp_below x :
  lt x (ofZ (-90)) = true ->
  clamp x (neg (dec 89999 3)) (dec 89999 3) = neg (dec 89999 3).
Proof.
  rewrite dec_89999, ofZ_m90. unfold clamp, neg. cbn [SFopp negb].
  unfold lt at 1. unfold SFltb.
  destruct x as [s|s| |s m e]; cbn [SFcompare]; try done.
  - destruct s; [|done]. intros _. by vm_compute.
  - destruct s; [|done]. intros H.
    assert (Math_min (S754_finite false 6333116607245582 (-46)) (S754_finite true m e)
            = S754_finite true m e) as ->.
    { unfold Math_min, lt, SFltb. by cbn [SFcompare]. }
    assert (lt (S754_finite true 6333116607245582 (-46)) (S754_finite true m e) = false) as Hlt.
    { unfold lt, SFltb. cbn [SFcompare].
      destruct (Z.compare_spec e (-46)) as [He | Hc | Hc]; try done.
      - subst e. rewrite Z.compare_refl. rewrite compare_cont_Z in *.
        destruct (Z.compare_spec (Z.pos m) 6333186975989760); try done.
        destruct (Z.compare_spec 6333116607245582 (Z.pos m)); (done || lia).
      - by rewrite (proj2 (Z.compare_lt_iff (-46) e)) by lia. }
    unfold Math_max. by rewrite Hlt.
Qed.

Section AdvanceFacts.

Variable Math_cos : number -> number.

Lemma advance_lat p w :
  let lat1 := add (lat p) (mul (v w) SPEED_FACTOR) in
  (gt lat1 (ofZ 90) = true -> lat (advance Math_cos p w) = dec 89999 3)
  /\ (lt lat1 (ofZ (-90)) = true -> lat (advance Math_cos p w) = neg (dec 89999 3))
  /\ (gt lat1 (ofZ 90) = false -> lt lat1 (ofZ (-90)) = false ->
      lat (advance Math_cos p w) = lat1).
Proof.
  intros lat1. unfold advance. cbn [lat]. fold lat1.
  split; [|split].
  - intros H. rewrite H. cbn [orb]. by apply clamp_above.
  - intros H. rewrite H, orb_true_r. by apply clamp_below.
  - intros H1 H2. by rewrite H1, H2.
Qed.

Lemma advance_lat_bounds p w :
  gt (lat (advance Math_cos p w)) (ofZ 90) = false
  /\ lt (lat (advance Math_cos p w)) (ofZ (-90)) = false.
Proof.
  pose proof (advance_lat p w) as (Hup & Hdown & Hin). cbv zeta in *.
  destruct (gt (add (lat p) (mul (v w) SPEED_FACTOR)) (ofZ 90)) eqn:E1.
  - rewrite (Hup eq_refl), dec_89999. by vm_compute.
  - destruct (lt (add (lat p) (mul (v w) SPEED_FACTOR)) (ofZ (-90))) eqn:E2.
    + rewrite (Hdown eq_refl), dec_89999. by vm_compute.
    + by rewrite (Hin eq_refl eq_refl).
Qed.

End AdvanceFacts.

(** ** Claims on the particle system *)

Section ParticleClaims.

Variable Math_cos Math_sin : number -> number.
Variable Math_hypot : number -> number -> number.
Variable project : Vec3.t -> Vec3.t.
Variable cameraPosition : Vec3.t.
Variable rendererSize canvasSize : number * number.
Variable g : GridMeta.
Variable U V : list number.
Variable overlayMode : OverlayMode.

Let update :=
  updateParticle Math_cos Math_sin Math_hypot project cameraPosition
    rendererSize canvasSize g U V overlayMode.

(** C5 (as amended).  On every tick, a particle whose sampled wind is
    not finite, or whose incremented age exceeds [PARTICLE_LIFE], is
    replaced by a fresh particle -- longitude [r1 * 360 - 180] and
    latitude [r2 * 180 - 90] for two draws of [Math.random()], age 0
    -- and its previous screen position is cleared.  A particle that
    crosses a pole is not replaced: it is the advanced particle, one
    tick older, with its latitude clamped to 89.999 or -89.999. *)
Theorem particle_replacement p prevXY r1 r2 :
  let w := windAt g U V (lon p) (lat p) in
  let lat1 := add (lat p) (mul (v w) SPEED_FACTOR) in
  (isFinite (u w) && isFinite (v w) = false
   \/ gt (add (age p) (ofZ 1)) PARTICLE_LIFE = true ->
   update p prevXY r1 r2
   = {| particle := {| lon := sub (mul r1 (ofZ 360)) (ofZ 180);
                       lat := sub (mul r2 (ofZ 180)) (ofZ 90);
                       age := ofZ 0 |};
        prev := (NaN, NaN);
        drawn := None |})
  /\ (isFinite (u w) && isFinite (v w) = true ->
      gt (add (age p) (ofZ 1)) PARTICLE_LIFE = false ->
      particle (update p prevXY r1 r2) = advance Math_cos p w
      /\ age (particle (update p prevXY r1 r2)) = add (age p) (ofZ 1)
      /\ (gt lat1 (ofZ 90) = true ->
          lat (particle (update p prevXY r1 r2)) = dec 89999 3)
      /\ (lt lat1 (ofZ (-90)) = true ->
          lat (particle (update p prevXY r1 r2)) = neg (dec 89999 3))).
Proof.
  intros w lat1. split.
  - intros [H | H].
    + subst update. by rewrite update_missing_wind.
    + subst update. by rewrite update_expired.
  - intros Hf Ha. subst update. rewrite update_survivor by done.
    pose proof (advance_lat Math_cos p w) as (Hup & Hdown & _).
    repeat split; done.
Qed.

(** C7 (as amended).  A drawn trail segment is stroked in a fixed
    white that depends on the overlay mode only, not on the sampled
    wind, and its alpha is [min(1, 0.1 + (LIFE - age) / LIFE * 0.9)]
    at the particle's incremented age: 1 at age 0, below 1 and
    strictly decreasing over every whole age from 1 to [LIFE], where
    it reaches 0.1. *)
Theorem trail_segment_style p prevXY r1 r2 seg :
  drawn (update p prevXY r1 r2) = Some seg ->
  strokeStyle seg
  = match overlayMode with
    | ModeTemperature => "rgba(255,255,255,0.9)"%string
    | _ => "rgba(255,255,255,0.7)"%string
    end
  /\ globalAlpha seg = trailAlpha (add (age p) (ofZ 1))
  /\ trailAlpha (ofZ 0) = ofZ 1
  /\ trailAlpha PARTICLE_LIFE = dec 1 1
  /\ (forall n, 1 <= n <= 601 ->
        lt (trailAlpha (ofZ n)) (ofZ 1) = true
        /\ lt (trailAlpha (ofZ n)) (trailAlpha (ofZ (n - 1))) = true).
Proof.
  intros Hd. subst update. apply update_drawn in Hd as [Hs Ha].
  split; [|split; [done | split; [by vm_compute | split; [by vm_compute|]]]].
  - rewrite Hs. by destruct overlayMode.
  - intros n Hn.
    assert (forallb (fun n => lt (trailAlpha (ofZ n)) (ofZ 1)
                              && lt (trailAlpha (ofZ n)) (trailAlpha (ofZ (n - 1))))
              (seqZ 1 601) = true) as Hall by (vm_compute; reflexivity).
    rewrite forallb_forall in Hall.
    specialize (Hall n). rewrite andb_true_iff in Hall. apply Hall.
    apply list_elem_of_In, elem_of_seqZ. lia.
Qed.

End ParticleClaims.

Lemma particle_replacement_witness :
  exampleUpdate polarGrid calmU northV
    {| lon := ofZ 0; lat := ofZ 89; age := ofZ 0 |} noPrev (dec 5 1) (dec 5 1)
  = {| particle := {| lon := sub (mul (dec 5 1) (ofZ 360)) (ofZ 180);
                      lat := sub (mul (dec 5 1) (ofZ 180)) (ofZ 90);
                      age := ofZ 0 |};
       prev := (NaN, NaN);
       drawn := None |}.
Proof.
  unfold exampleUpdate.
  apply (proj1 (particle_replacement constOne constOne hypotZero projectCentre
                  initialCamera viewport viewport polarGrid calmU northV ModeWind
                  {| lon := ofZ 0; lat := ofZ 89; age := ofZ 0 |} noPrev
                  (dec 5 1) (dec 5 1))).
  left. vm_compute. reflexivity.
Defined.

(** C5 fails as stated on a pole crossing: the particle at latitude
    89.5 is carried beyond 90 by a northward wind of 100, and the tick
    keeps it, one tick old and clamped to 89.999, instead of replacing
    it by a fresh particle of age 0. *)
Lemma pole_crossing_keeps_particle :
  let p := {| lon := ofZ 0; lat := dec 895 1; age := ofZ 0 |} in
  let st := exampleUpdate polarGrid calmU northV p (ofZ 10, ofZ 10) (dec 5 1) (dec 5 1) in
  gt (add (lat p) (mul (v (windAt polarGrid calmU northV (lon p) (lat p))) SPEED_FACTOR))
     (ofZ 90) = true
  /\ age (particle st) = ofZ 1
  /\ lat (particle st) = dec 89999 3
  /\ age (fresh (dec 5 1) (dec 5 1)) = ofZ 0
  /\ particle st <> fresh (dec 5 1) (dec 5 1).
Proof. vm_compute. repeat split. discriminate. Qed.

Lemma trail_segment_style_witness :
  exists seg,
    drawn (exampleUpdate polarGrid calmU northV
             {| lon := ofZ 0; lat := dec 895 1; age := ofZ 99 |}
             (ofZ 10, ofZ 10) (dec 5 1) (dec 5 1)) = Some seg
    /\ strokeStyle seg = "rgba(255,255,255,0.7)"%string
    /\ globalAlpha seg = trailAlpha (add (ofZ 99) (ofZ 1)).
Proof.
  eexists. split; [vm_compute; reflexivity|].
  unfold exampleUpdate.
  match goal with
  | |- strokeStyle ?s = _ /\ _ =>
      destruct (trail_segment_style constOne constOne hypotZero projectCentre
                  initialCamera viewport viewport polarGrid calmU northV ModeWind
                  {| lon := ofZ 0; lat := dec 895 1; age := ofZ 99 |}
                  (ofZ 10, ofZ 10) (dec 5 1) (dec 5 1) s) as (Hs & Ha & _)
  end.
  - vm_compute. reflexivity.
  - split; [exact Hs | exact Ha].
Defined.

(** C7 fails as stated: a segment drawn at age 100, in the first half
    of the lifetime, has alpha below 1, and the stroke colour is the
    same for a calm and for a 70 m/s wind. *)
Lemma trail_fades_from_the_start :
  (exists seg,
      drawn (exampleUpdate polarGrid calmU northV
               {| lon := ofZ 0; lat := dec 895 1; age := ofZ 99 |}
               (ofZ 10, ofZ 10) (dec 5 1) (dec 5 1)) = Some seg
      /\ lt (globalAlpha seg) (ofZ 1) = true)
  /\ le (ofZ 100) (div PARTICLE_LIFE (ofZ 2)) = true
  /\ trailColor ModeWind (ofZ 0) (ofZ 0) = trailColor ModeWind (ofZ 50) (ofZ 50).
Proof.
  split; [|split; vm_compute; reflexivity].
  eexists. split; [vm_compute; reflexivity | vm_compute; reflexivity].
Qed.

(** ** The overlay pass writes only behind its three tests *)

Lemma fold_left_invariant {A B} (P : A -> Prop) (Q : B -> Prop) (f : A -> B -> A) l a :
  P a -> Forall Q l -> (forall a b, P a -> Q b -> P (f a b)) ->
  P (fold_left f l a).
Proof.
  intros Ha Hl Hf. revert a Ha.
  induction Hl as [|b l Hb Hl IH]; intros a Ha; cbn [fold_left]; [done|].
  apply IH. by apply Hf.
Qed.

Lemma stepRange_spec hi step x :
  0 < step -> x ∈ stepRange hi step -> 0 <= x < hi /\ x mod step = 0.
Proof.
  intros Hs Hx. unfold stepRange in Hx.
  apply list_elem_of_fmap in Hx as (k & -> & Hk).
  apply elem_of_seqZ in Hk.
  split; [|by apply Z_mod_mult].
  assert (k * step <= ((hi + step - 1) / step - 1) * step) by nia.
  pose proof (Z.mul_div_le (hi + step - 1) step Hs). nia.
Qed.

Lemma blockRange_spec x step width b :
  b ∈ blockRange x step width -> 0 <= b < step /\ x + b < width.
Proof. unfold blockRange. intros H%elem_of_seqZ. lia. Qed.

Lemma blockOrigin_block step x b :
  0 < step -> x mod step = 0 -> 0 <= b < step -> blockOrigin step (x + b) = x.
Proof.
  intros Hs Hx Hb. unfold blockOrigin.
  rewrite Z.add_mod, Hx, Z.add_0_l, Z.mod_mod, (Z.mod_small b) by lia. lia.
Qed.

Section OverlayFacts.

Variable width : Z.

Lemma pixel_index_inj px py c qx qy k :
  0 <= px < width -> 0 <= qx < width -> 0 <= py -> 0 <= qy ->
  0 <= c < 4 -> 0 <= k < 4 ->
  (py * width + px) * 4 + c = (qy * width + qx) * 4 + k ->
  px = qx /\ py = qy.
Proof.
  intros Hpx Hqx Hpy Hqy Hc Hk E.
  assert (py * width + px = qy * width + qx) as E' by lia.
  assert (py = qy) by nia. subst. lia.
Qed.

Lemma writePixel_length data qx qy col :
  length (writePixel width data qx qy col) = length data.
Proof. unfold writePixel. by rewrite !length_insert. Qed.

Lemma writePixel_other data qx qy col px py c :
  0 <= px < width -> 0 <= qx < width -> 0 <= py -> 0 <= qy -> 0 <= c < 4 ->
  (px, py) <> (qx, qy) ->
  channelAt width (writePixel width data qx qy col) px py c
  = channelAt width data px py c.
Proof.
  intros Hpx Hqx Hpy Hqy Hc Hne. unfold channelAt, writePixel.
  assert (forall k, 0 <= k < 4 ->
            (Z.to_nat ((qy * width + qx) * 4) + Z.to_nat k)%nat
            <> Z.to_nat ((py * width + px) * 4 + c)) as Hidx.
  { intros k Hk E. apply Hne.
    assert ((py * width + px) * 4 + c = (qy * width + qx) * 4 + k) as E' by nia.
    destruct (pixel_index_inj px py c qx qy k) as [-> ->]; done. }
  pose proof (Hidx 0 ltac:(lia)) as H0. pose proof (Hidx 1 ltac:(lia)) as H1.
  pose proof (Hidx 2 ltac:(lia)) as H2. pose proof (Hidx 3 ltac:(lia)) as H3.
  change (Z.to_nat 0) with 0%nat in H0. change (Z.to_nat 1) with 1%nat in H1.
  change (Z.to_nat 2) with 2%nat in H2. change (Z.to_nat 3) with 3%nat in H3.
  rewrite Nat.add_0_r in H0.
  by rewrite !list_lookup_insert_ne.
Qed.

End OverlayFacts.

Section OverlayClaim.

Variable unproject : Vec3.t -> Vec3.t.
Variable cameraPosition : Vec3.t.
Variable Math_atan2 : number -> number -> number.
Variable Math_asin : number -> number.
Variable width height : Z.
Variable overlayMode : OverlayMode.
Variable airModeEnabled isMoving : bool.
Variable shade : number -> number -> Z -> Z -> option (Z -> Z -> Pixel).

Let stp := step width height overlayMode.
Let disc := discriminant unproject cameraPosition width height.
Let root := nearRoot unproject cameraPosition width height.
Let face := facing unproject cameraPosition width height.

(** A sample passes when its ray hits the sphere in front of the
    camera on the side turned towards it. *)
Let passes (x y : Z) : bool :=
  ge (disc x y) (ofZ 0) && gt (root x y) (ofZ 0) && gt (face x y) (dec 1 1).

(** Every pixel whose block sample does not pass is still transparent
    black, and the buffer has kept its size. *)
Let untouched (data : list Z) : Prop :=
  forall px py c,
    0 <= px < width -> 0 <= py < height -> 0 <= c < 4 ->
    passes (blockOrigin stp px) (blockOrigin stp py) = false ->
    channelAt width data px py c = Some 0.

Lemma step_pos : 0 < stp.
Proof. subst stp. unfold step. destruct overlayMode; lia. Qed.

Lemma createImageData_untouched : untouched (createImageData width height).
Proof.
  intros px py c Hpx Hpy Hc _. unfold channelAt, createImageData.
  apply lookup_replicate_2. nia.
Qed.

Lemma fillBlock_untouched data x y colour :
  0 <= x -> 0 <= y -> x mod stp = 0 -> y mod stp = 0 ->
  passes x y = true ->
  untouched data ->
  untouched (fillBlock width height overlayMode data x y colour).
Proof.
  intros Hx Hy Hxm Hym Hpass Hd. unfold fillBlock. fold stp.
  pose proof step_pos as Hs.
  apply (fold_left_invariant untouched
           (fun bx => 0 <= bx < stp /\ x + bx < width)); [done | |].
  { apply Forall_forall. intros bx Hbx. by apply blockRange_spec. }
  intros d bx Hd' [Hbx Hbxw].
  apply (fold_left_invariant untouched
           (fun by' => 0 <= by' < stp /\ y + by' < height)); [done | |].
  { apply Forall_forall. intros by' Hby. by apply blockRange_spec. }
  intros d' by' Hd'' [Hby Hbyh] px py c Hpx Hpy Hc Hfail.
  rewrite writePixel_other; try lia.
  - by apply Hd''.
  - intros [= -> ->].
    rewrite !blockOrigin_block in Hfail by done. congruence.
Qed.

Lemma renderSample_untouched data x y :
  0 <= x -> 0 <= y -> x mod stp = 0 -> y mod stp = 0 ->
  untouched data ->
  untouched (renderSample unproject cameraPosition Math_atan2 Math_asin
               width height overlayMode shade data x y).
Proof.
  intros Hx Hy Hxm Hym Hd. unfold renderSample.
  destruct (ge (discriminant _ _ _ _ x y) (ofZ 0)) eqn:E1; [|done].
  destruct (gt (nearRoot _ _ _ _ x y) (ofZ 0)) eqn:E2; [|done].
  destruct (gt (facing _ _ _ _ x y) (dec 1 1)) eqn:E3; [|done].
  destruct (shade _ _ x y) as [colour|]; [|done].
  apply fillBlock_untouched; try done.
  subst passes disc root face. cbv beta. by rewrite E1, E2, E3.
Qed.

(** C10.  In the buffer produced by an overlay pass, every pixel whose
    sample -- the ray cast for its block, the pixel's own ray when the
    stride is 1 -- has a negative (or NaN) discriminant, a nearest
    root that is not strictly positive, or a normal whose dot product
    with the camera direction does not exceed 0.1, is transparent
    black: all four channels are 0. *)
Theorem overlay_writes_only_visible_samples data px py c :
  renderAirModeOverlay unproject cameraPosition Math_atan2 Math_asin
    width height overlayMode airModeEnabled isMoving shade = Some data ->
  0 <= px < width -> 0 <= py < height -> 0 <= c < 4 ->
  let x := blockOrigin (step width height overlayMode) px in
  let y := blockOrigin (step width height overlayMode) py in
  ge (discriminant unproject cameraPosition width height x y) (ofZ 0) = false
  \/ gt (nearRoot unproject cameraPosition width height x y) (ofZ 0) = false
  \/ gt (facing unproject cameraPosition width height x y) (dec 1 1) = false ->
  channelAt width data px py c = Some 0.
Proof.
  intros Hr Hpx Hpy Hc x y Hfail.
  assert (untouched data) as Hd.
  { unfold renderAirModeOverlay in Hr.
    destruct (_ || isMoving); [done|]. injection Hr as <-.
    pose proof step_pos as Hs. fold stp.
    apply (fold_left_invariant untouched (fun x => 0 <= x /\ x mod stp = 0));
      [apply createImageData_untouched | |].
    { apply Forall_forall. intros x0 Hx0.
      apply stepRange_spec in Hx0; [lia | done]. }
    intros d x0 Hd [Hx0 Hx0m].
    apply (fold_left_invariant untouched (fun y => 0 <= y /\ y mod stp = 0));
      [done | |].
    { apply Forall_forall. intros y0 Hy0.
      apply stepRange_spec in Hy0; [lia | done]. }
    intros d' y0 Hd' [Hy0 Hy0m]. by apply renderSample_untouched. }
  apply Hd; try done.
  subst passes disc root face stp x y. cbv beta.
  destruct Hfail as [-> | [-> | ->]]; by rewrite ?andb_false_r.
Qed.

End OverlayClaim.

Lemma overlay_writes_only_visible_samples_witness :
  exists data,
    examplePass = Some data
    /\ channelAt 2 data 0 0 3 = Some 0
    /\ channelAt 2 data 1 1 3 = Some 255.
Proof.
  destruct examplePass as [data|] eqn:E; [|by vm_compute in E].
  exists data. split; [done|]. split.
  - apply (overlay_writes_only_visible_samples unprojectPlane initialCamera
             hypotZero constOne 2 2 ModeWind true false shadeWhite data 0 0 3 E);
      try lia.
    left. vm_compute. reflexivity.
  - vm_compute in E. injection E as <-. reflexivity.
Defined.

Lemma windAt_missing_propagates_witness :
  u (windAt scenarioGrid [NaN; ofZ 10; ofZ 0; ofZ 10] scenarioU (ofZ 5) (ofZ 5)) = NaN.
Proof.
  assert (exactCell scenarioGrid 0 0) as Hx by (unfold exactCell; cbn; lia).
  assert (- nx scenarioGrid <= 0) as Hlo by (cbn; lia).
  apply (proj1 (windAt_missing_propagates scenarioGrid
                  [NaN; ofZ 10; ofZ 0; ofZ 10] scenarioU (ofZ 5) (ofZ 5) 0 0
                  Hx Hlo eq_refl eq_refl)).
  reflexivity.
Defined.

(** * Further properties of the sampler *)

Lemma add_nonfinite_l x y : isFinite x = false -> isFinite (add x y) = false.
Proof.
  destruct x as [|sx| |], y as [|sy| |]; try done; intros _; by destruct sx, sy.
Qed.

Lemma mul_nonfinite_l x y : isFinite x = false -> isFinite (mul x y) = false.
Proof. destruct x as [|sx| |], y as [| | |]; try done. Qed.

Lemma rem_nonfinite_l x y : isFinite x = false -> rem x y = NaN.
Proof. destruct x as [| | |], y as [| | |]; try done. Qed.

Lemma toInt_nonfinite x : isFinite x = false -> toInt x = None.
Proof. by destruct x. Qed.

Lemma floor_nonfinite x : isFinite x = false -> isFinite (Math_floor x) = false.
Proof. by destruct x. Qed.

(** An index computed from a NaN or infinite row or column reads
    nothing. *)
Lemma sampleAt_nonfinite g A j i :
  isFinite j = false \/ isFinite i = false -> sampleAt A (idx g j i) = NaN.
Proof.
  intros H. unfold sampleAt. rewrite toInt_nonfinite; [done|]. unfold idx.
  destruct H as [H | H].
  - by apply add_nonfinite_l, mul_nonfinite_l.
  - rewrite (rem_nonfinite_l (add i _)) by by apply add_nonfinite_l.
    by rewrite add_NaN_r.
Qed.

Lemma interp_no_cell g A i j :
  isFinite i = false \/ isFinite j = false -> interp g A i j = NaN.
Proof.
  intros H. unfold interp. cbv zeta.
  rewrite (sampleAt_nonfinite g A (Math_floor j) (Math_floor i)).
  - apply bilinear_missing. reflexivity.
  - destruct H as [H | H]; [right | left]; by apply floor_nonfinite.
Qed.

Lemma div_nonfinite_l x y : isFinite x = false -> isFinite (div x y) = false.
Proof. destruct x as [| | |]; try done; by destruct y. Qed.

Lemma div_zero_r x s : isFinite (div x (S754_zero s)) = false.
Proof. by destruct x. Qed.

Lemma sub_nonfinite_r x y : isFinite y = false -> isFinite (sub x y) = false.
Proof.
  destruct y as [|sy| |], x as [|sx| |]; try done; intros _; by destruct sx, sy.
Qed.

Lemma normalizeLon_nonfinite lon : isFinite lon = false -> normalizeLon lon = NaN.
Proof.
  destruct lon as [|s| |]; try done; intros _; destruct s; by vm_compute.
Qed.

Lemma gridI_nonfinite g lon : isFinite lon = false -> gridI g lon = NaN.
Proof.
  intros H. unfold gridI. rewrite normalizeLon_nonfinite by done. reflexivity.
Qed.

Lemma windAt_no_cell g U V lon lat :
  isFinite lon = false \/ isFinite lat = false ->
  windAt g U V lon lat = {| u := NaN; v := NaN |}.
Proof.
  intros H. unfold windAt.
  assert (isFinite (gridI g lon) = false \/ isFinite (gridJ g lat) = false) as Hc.
  { destruct H as [H | H]; [left | right].
    - by rewrite gridI_nonfinite.
    - unfold gridJ. by apply div_nonfinite_l, sub_nonfinite_r. }
  by rewrite !interp_no_cell.
Qed.

(** X1.  A position with a NaN or infinite coordinate samples as
    missing, on every grid. *)
Theorem windAt_nonfinite_position g U V lon lat :
  isFinite lon = false \/ isFinite lat = false ->
  windAt g U V lon lat = {| u := NaN; v := NaN |}.
Proof. apply windAt_no_cell. Qed.

Lemma windAt_nonfinite_position_witness :
  windAt scenarioGrid scenarioU scenarioU (ofZ 5) NaN = {| u := NaN; v := NaN |}.
Proof. apply windAt_nonfinite_position. right. reflexivity. Defined.

(** X2.  A header with a zero step ([dx = 0] or [dy = 0]) or with
    [nx = 0] makes every position sample as missing. *)
Theorem windAt_degenerate_grid g U V lon lat :
  isZero (dx g) = true \/ isZero (dy g) = true \/ nx g = 0 ->
  windAt g U V lon lat = {| u := NaN; v := NaN |}.
Proof.
  intros [H | [H | H]]; unfold windAt.
  - assert (isFinite (gridI g lon) = false) as Hc.
    { unfold gridI. destruct (dx g); try done. apply div_zero_r. }
    by rewrite !interp_no_cell by tauto.
  - assert (isFinite (gridJ g lat) = false) as Hc.
    { unfold gridJ. destruct (dy g); try done. apply div_zero_r. }
    by rewrite !interp_no_cell by tauto.
  - assert (forall A i j, interp g A i j = NaN) as Hn.
    { intros A i j. unfold interp. cbv zeta.
      assert (sampleAt A (idx g (Math_floor j) (Math_floor i)) = NaN) as ->.
      { unfold sampleAt, idx. rewrite H. change (ofZ 0) with (S754_zero false).
        assert (rem (add (Math_floor i) (S754_zero false)) (S754_zero false) = NaN) as ->
          by by destruct (add (Math_floor i) (S754_zero false)).
        by rewrite add_NaN_r. }
      apply bilinear_missing. reflexivity. }
    by rewrite !Hn.
Qed.

Lemma windAt_degenerate_grid_witness :
  windAt (metaOf malformedHeader) scenarioU scenarioU (ofZ 5) (ofZ 5)
  = {| u := NaN; v := NaN |}.
Proof. apply windAt_degenerate_grid. left. reflexivity. Defined.

(** X3.  On a grid whose arrays hold [nx * ny] samples, a position
    whose cell corner has its column at or above [-nx], lies where no
    step of the index arithmetic rounds, and needs a row outside
    [[0, ny - 1]] -- above the first row, or on or below the last one --
    samples as missing in both components. *)
Theorem windAt_row_out_of_range g U V lon lat i0 j0 :
  exactCell g j0 i0 ->
  Z.of_nat (length U) = nx g * ny g -> Z.of_nat (length V) = nx g * ny g ->
  Math_floor (gridI g lon) = ofZ i0 -> Math_floor (gridJ g lat) = ofZ j0 ->
  - nx g <= i0 ->
  j0 < 0 \/ ny g <= j0 + 1 ->
  windAt g U V lon lat = {| u := NaN; v := NaN |}.
Proof.
  intros Hx HU HV Hi Hj Hcol Hrow. unfold windAt.
  by rewrite !(interp_row_out_of_range g _ lon lat i0 j0).
Qed.

Lemma windAt_row_out_of_range_witness :
  windAt scenarioGrid scenarioU scenarioU (ofZ 5) (ofZ 15) = {| u := NaN; v := NaN |}.
Proof.
  apply (windAt_row_out_of_range scenarioGrid scenarioU scenarioU (ofZ 5) (ofZ 15) 0 (-1));
    try (vm_compute; reflexivity); unfold exactCell; cbn; lia.
Defined.

(** X4.  For a row [j] and a column [i] at or above [-nx], as long as
    no step rounds ([i + 2 nx] and [(|j| + 1) nx] below [2^53]), the
    index computed by [idx] lies in row [j]: the column is wrapped into
    [[0, nx)] and is the same for columns that differ by [nx]. *)
Theorem idx_stays_in_row g j i :
  0 < nx g -> - nx g <= i -> i + 2 * nx g < 2 ^ 53 ->
  Z.abs j * nx g + nx g < 2 ^ 53 ->
  exists k, idx g (ofZ j) (ofZ i) = ofZ k
            /\ j * nx g <= k < (j + 1) * nx g
            /\ idx g (ofZ j) (ofZ (i + nx g)) = ofZ k.
Proof.
  intros Hn Hi Hhi Hj. exists (j * nx g + i mod nx g).
  rewrite !idx_exact by lia.
  pose proof (Z.mod_pos_bound i (nx g) Hn).
  split; [done | split; [lia|]].
  by rewrite <- (Z_mod_plus_full i 1 (nx g)), Z.mul_1_l.
Qed.

Lemma idx_stays_in_row_witness :
  exists k, idx scenarioGrid (ofZ 1) (ofZ (-1)) = ofZ k
            /\ 1 * 2 <= k < (1 + 1) * 2
            /\ idx scenarioGrid (ofZ 1) (ofZ (-1 + 2)) = ofZ k.
Proof. apply (idx_stays_in_row scenarioGrid 1 (-1)); cbn; lia. Defined.

(** X5.  On multiples of [2^-43] degrees within [(-1024, 844)] the
    normalisation is exact: it returns [((lon + 180) mod 360) - 180],
    and normalising twice is normalising once. *)
Theorem normalizeLon_exact_idempotent k :
  Z.abs (k + 180 * 2 ^ 43) < 2 ^ 53 -> Z.abs k < 2 ^ 53 ->
  normalizeLon (dyadic k (-43))
  = dyadic ((k + 180 * 2 ^ 43) mod (360 * 2 ^ 43) - 180 * 2 ^ 43) (-43)
  /\ normalizeLon (normalizeLon (dyadic k (-43))) = normalizeLon (dyadic k (-43)).
Proof.
  intros HK Hk. rewrite normalizeLon_dyadic by done. split; [done|].
  change (2 ^ 53) with 9007199254740992 in *. change (2 ^ 43) with 8796093022208 in *.
  pose proof (Z.mod_pos_bound (k + 180 * 8796093022208) (360 * 8796093022208) ltac:(lia)).
  rewrite normalizeLon_dyadic
    by (change (2 ^ 53) with 9007199254740992; change (2 ^ 43) with 8796093022208; lia).
  f_equal. f_equal. change (2 ^ 43) with 8796093022208.
  replace ((k + 180 * 8796093022208) mod (360 * 8796093022208)
           - 180 * 8796093022208 + 180 * 8796093022208)
    with ((k + 180 * 8796093022208) mod (360 * 8796093022208)) by lia.
  apply Z.mod_mod. lia.
Qed.

Lemma normalizeLon_exact_idempotent_witness :
  normalizeLon (normalizeLon (dyadic (190 * 2 ^ 43) (-43)))
  = normalizeLon (dyadic (190 * 2 ^ 43) (-43)).
Proof.
  apply (normalizeLon_exact_idempotent (190 * 2 ^ 43)); vm_compute; reflexivity.
Defined.

(** *** The sign of a rounded result *)

Lemma iter_shr_nonneg n rec :
  0 <= shr_m rec -> 0 <= shr_m (Nat.iter n shr_1 rec).
Proof.
  intros H. induction n as [|n IH]; [done|]. cbn [Nat.iter]. by apply shr_1_nonneg.
Qed.

Lemma shr_nonneg rec e n : 0 <= shr_m rec -> 0 <= shr_m (fst (shr rec e n)).
Proof.
  intros H. destruct n as [|n|n]; cbn [shr fst]; try done.
  rewrite iter_pos_nat. by apply iter_shr_nonneg.
Qed.

Lemma round_aux_sign s m e l :
  0 <= m -> signIs s (binary_round_aux prec emax s m e l) = true.
Proof.
  intros Hm. unfold binary_round_aux, shr_fexp.
  pose proof (shr_nonneg (shr_record_of_loc m l) e
                (fexp prec emax (Zdigits2 m + e) - e)) as H1.
  destruct (shr (shr_record_of_loc m l) e _) as [rec1 e1]. cbn [fst] in H1.
  assert (0 <= shr_m rec1) as Hr1 by (apply H1; by destruct l as [|[| |]]).
  pose proof (round_nearest_even_bounds (shr_m rec1) (loc_of_shr_record rec1)) as [Hb _].
  set (m2 := round_nearest_even (shr_m rec1) (loc_of_shr_record rec1)) in *.
  pose proof (shr_nonneg (shr_record_of_loc m2 loc_Exact) e1
                (fexp prec emax (Zdigits2 m2 + e1) - e1)) as H2.
  destruct (shr (shr_record_of_loc m2 loc_Exact) e1 _) as [rec2 e2]. cbn [fst] in H2.
  assert (0 <= shr_m rec2) as Hr2 by (apply H2; cbn; lia).
  destruct (shr_m rec2) as [|p|p]; try lia.
  - cbn. by destruct s.
  - destruct (e2 <=? emax - prec); cbn; by destruct s.
Qed.

Lemma round_sign s p e : signIs s (binary_round prec emax s p e) = true.
Proof.
  unfold binary_round.
  destruct (shl_align p e _) as [mz ez]. by apply round_aux_sign.
Qed.

(** * Further properties of the particle system *)

(** Subtracting a normal number [c] from a number of [[0, 2c]] stays
    within [[-c, c]]. *)
Lemma sub_half_bounds pc ec m e :
  bounded prec emax pc ec = true -> Z.pos (digits2_pos pc) = 53 ->
  bounded prec emax m e = true ->
  lexLe m e pc (ec + 1) ->
  le (S754_finite true pc ec) (sub (S754_finite false m e) (S754_finite false pc ec)) = true
  /\ le (sub (S754_finite false m e) (S754_finite false pc ec)) (S754_finite false pc ec) = true.
Proof.
  intros Hbc Hdc Hb Hle. unfold sub. cbn [SFsub].
  pose proof (bounded_facts _ _ Hb) as (Hd & He & Hn).
  pose proof (bounded_facts _ _ Hbc) as (_ & Hec & _).
  pose proof (digits2_bounds m) as Hm. pose proof (digits2_bounds pc) as Hpc.
  rewrite Hdc in Hpc. change (2 ^ (53 - 1)) with 4503599627370496 in Hpc.
  assert (Z.pos m < 9007199254740992) as Hm53.
  { assert (2 ^ Z.pos (digits2_pos m) <= 2 ^ 53) by (apply Z.pow_le_mono_r; lia).
    change (2 ^ 53) with 9007199254740992 in *. lia. }
  set (ez := Z.min e ec).
  rewrite !shl_align_val by lia. cbn [cond_Zopp].
  set (X := Z.pos m * 2 ^ (e - ez)). set (Y := Z.pos pc * 2 ^ (ec - ez)).
  assert (0 < X) as HX0 by (apply Z.mul_pos_pos; [lia | apply pow2_pos; lia]).
  assert (0 < Y) as HY0 by (apply Z.mul_pos_pos; [lia | apply pow2_pos; lia]).
  assert (X <= 2 * Y) as HXY.
  { subst X Y. destruct Hle as [Hlt | [-> Hle]].
    - replace (ec - ez) with ((ec - e) + (e - ez)) by lia.
      rewrite pow2_split by lia.
      pose proof (pow2_pos (ec - e) ltac:(lia)).
      pose proof (pow2_pos (e - ez) ltac:(lia)).
      set (A := 2 ^ (e - ez)) in *. set (B := 2 ^ (ec - e)) in *.
      assert (Z.pos m * A <= 9007199254740992 * A) by nia.
      assert (A <= B * A) by nia. nia.
    - subst ez. replace (Z.min (ec + 1) ec) with ec by lia.
      replace (ec + 1 - ec) with 1 by lia. rewrite Z.sub_diag.
      change (2 ^ 1) with 2. change (2 ^ 0) with 1. lia. }
  assert (forall s p, Z.pos p <= Y ->
            binary_round prec emax s p ez = S754_zero s \/
            exists m' e', binary_round prec emax s p ez = S754_finite s m' e'
              /\ bounded prec emax m' e' = true
              /\ lexLe m' e' pc ec) as Hround.
  { intros s p Hp. apply (round_upper s p ez _ _ ez); try (done || lia).
    rewrite Z.sub_diag, Z.pow_0_r, Z.mul_1_r. exact Hp. }
  destruct (X - Y) as [|p|p] eqn:ED; cbn [binary_normalize].
  - done.
  - destruct (Hround false p ltac:(lia)) as [-> | (m' & e' & -> & _ & Hl)]; [done|].
    split; [done | by apply lexLe_le_pos].
  - destruct (Hround true p ltac:(lia)) as [-> | (m' & e' & -> & _ & Hl)]; [done|].
    split; [by apply lexLe_le_neg | done].
Qed.

Lemma ofZ_360_canon : ofZ 360 = S754_finite false 6333186975989760 (-44).
Proof. reflexivity. Qed.

Lemma ofZ_m180_canon : ofZ (-180) = S754_finite true 6333186975989760 (-45).
Proof. reflexivity. Qed.

Lemma ofZ_601 : PARTICLE_LIFE = S754_finite false 5286451906347008 (-43).
Proof. reflexivity. Qed.

(** X6.  For draws of [[0, 1)], a fresh particle has its longitude in
    [[-180, 180]] and age 0, and an initially spawned one has its age in
    [[0, PARTICLE_LIFE]]. *)
Theorem fresh_particle_ranges r1 r2 r3 :
  valid_binary prec emax r1 = true -> le (ofZ 0) r1 = true -> lt r1 (ofZ 1) = true ->
  valid_binary prec emax r3 = true -> le (ofZ 0) r3 = true -> lt r3 (ofZ 1) = true ->
  le (ofZ (-180)) (lon (fresh r1 r2)) = true
  /\ le (lon (fresh r1 r2)) (ofZ 180) = true
  /\ lon (spawn r1 r2 r3) = lon (fresh r1 r2)
  /\ age (fresh r1 r2) = ofZ 0
  /\ le (ofZ 0) (age (spawn r1 r2 r3)) = true
  /\ le (age (spawn r1 r2 r3)) PARTICLE_LIFE = true.
Proof.
  intros Hv1 H10 H11 Hv3 H30 H31. cbn [lon age fresh spawn].
  split; [|split; [|split; [done | split; [done|]]]].
  - destruct r1 as [s|s| |s m e]; try done.
    + destruct s; by vm_compute.
    + destruct s; [vm_compute in H10; discriminate|]. cbn [valid_binary] in Hv1.
      rewrite ofZ_360_canon, ofZ_m180_canon, ofZ_180_canon.
      destruct (mul_below_one m e 6333186975989760 (-44) Hv1 H11 eq_refl eq_refl)
        as [-> | (m' & e' & -> & Hb' & Hl)]; [by vm_compute|].
      by apply (sub_half_bounds 6333186975989760 (-45) m' e').
  - destruct r1 as [s|s| |s m e]; try done.
    + destruct s; by vm_compute.
    + destruct s; [vm_compute in H10; discriminate|]. cbn [valid_binary] in Hv1.
      rewrite ofZ_360_canon, ofZ_180_canon.
      destruct (mul_below_one m e 6333186975989760 (-44) Hv1 H11 eq_refl eq_refl)
        as [-> | (m' & e' & -> & Hb' & Hl)]; [by vm_compute|].
      by apply (sub_half_bounds 6333186975989760 (-45) m' e').
  - destruct r3 as [s|s| |s m e]; try done.
    + destruct s; by vm_compute.
    + destruct s; [vm_compute in H30; discriminate|]. cbn [valid_binary] in Hv3.
      rewrite ofZ_601.
      destruct (mul_below_one m e 5286451906347008 (-43) Hv3 H31 eq_refl eq_refl)
        as [-> | (m' & e' & -> & Hb' & Hl)]; [by vm_compute|].
      split; [done | by apply lexLe_le_pos].
Qed.

Lemma fresh_particle_ranges_witness :
  le (ofZ (-180)) (lon (fresh (dec 25 2) (dec 5 1))) = true.
Proof.
  apply (fresh_particle_ranges (dec 25 2) (dec 5 1) (dec 75 2));
    vm_compute; reflexivity.
Defined.

Section ParticleInvariants.

Variable Math_cos Math_sin : number -> number.
Variable Math_hypot : number -> number -> number.
Variable project : Vec3.t -> Vec3.t.
Variable cameraPosition : Vec3.t.
Variable rendererSize canvasSize : number * number.
Variable g : GridMeta.
Variable U V : list number.
Variable overlayMode : OverlayMode.

Let update :=
  updateParticle Math_cos Math_sin Math_hypot project cameraPosition
    rendererSize canvasSize g U V overlayMode.

(** X7.  After a tick the stored age never exceeds [PARTICLE_LIFE],
    whatever the age before: the particle either survives with an
    incremented age that passed the lifetime test, or is fresh. *)
Theorem age_never_exceeds_life p prevXY r1 r2 :
  gt (age (particle (update p prevXY r1 r2))) PARTICLE_LIFE = false.
Proof.
  destruct (isFinite (u (windAt g U V (lon p) (lat p)))
            && isFinite (v (windAt g U V (lon p) (lat p)))) eqn:Hf.
  - destruct (gt (add (age p) (ofZ 1)) PARTICLE_LIFE) eqn:Ha.
    + subst update. by rewrite update_expired.
    + subst update. by rewrite update_survivor.
  - subst update. by rewrite update_missing_wind.
Qed.

(** X8.  A tick never draws from a cleared slot: when the previous
    screen position is NaN no segment is stroked, and so the first tick
    after a recycle draws nothing for that particle. *)
Theorem no_segment_from_cleared_slot p q sy prevXY r1 r2 r1' r2' :
  drawn (update p (NaN, sy) r1 r2) = None
  /\ (update q prevXY r1 r2 = recycle r1 r2 ->
      drawn (update p (prev (update q prevXY r1 r2)) r1' r2') = None).
Proof.
  assert (forall sy0 ra rb, drawn (update p (NaN, sy0) ra rb) = None) as Hn.
  { intros sy0 ra rb. subst update. unfold updateParticle.
    destruct (negb _ || negb _); [done|].
    destruct (gt _ PARTICLE_LIFE); [done|].
    destruct (negb _ || negb _); [done|].
    by destruct (worldToScreen _ _ _) as [[sx1 sy1]|]. }
  split; [apply Hn|]. intros ->. apply Hn.
Qed.

(** X9.  A particle whose longitude or latitude is NaN or infinite is
    recycled by the next tick. *)
Theorem nonfinite_particle_is_recycled p prevXY r1 r2 :
  isFinite (lon p) = false \/ isFinite (lat p) = false ->
  update p prevXY r1 r2 = recycle r1 r2.
Proof.
  intros H. subst update. apply update_missing_wind.
  by rewrite windAt_no_cell.
Qed.

End ParticleInvariants.

(** ** The latitude of a stored particle *)

Lemma mul_finite_notNaN a b :
  isFinite a = true -> isFinite b = true -> isNaN (mul a b) = false.
Proof.
  destruct a as [sa| | |sa ma ea], b as [sb| | |sb mb eb]; try done; intros _ _.
  unfold mul. cbn [SFmul].
  pose proof (round_aux_sign (xorb sa sb) (Z.pos (ma * mb)) (ea + eb) loc_Exact ltac:(lia)) as H.
  by destruct (binary_round_aux _ _ _ _ _ _).
Qed.

Lemma add_finite_notNaN a b :
  isFinite a = true -> isNaN b = false -> isNaN (add a b) = false.
Proof.
  destruct a as [sa| | |sa ma ea], b as [sb|sb| |sb mb eb]; try done; intros _ _.
  - by destruct sa, sb.
  - unfold add. cbn [SFadd].
    destruct (_ + _) as [|q|q]; cbn [binary_normalize]; [done| |].
    + pose proof (round_sign false q (Z.min ea eb)) as H.
      by destruct (binary_round _ _ _ _ _).
    + pose proof (round_sign true q (Z.min ea eb)) as H.
      by destruct (binary_round _ _ _ _ _).
Qed.

Lemma compare_defined x y :
  isNaN x = false -> isNaN y = false -> exists c, SFcompare x y = Some c.
Proof.
  destruct x as [sx|sx| |sx mx ex], y as [sy|sy| |sy my ey]; try done; intros _ _;
    cbn [SFcompare]; try (by eexists); destruct sx, sy; by eexists.
Qed.

Lemma le_of_not_gt x y :
  isNaN x = false -> isNaN y = false -> gt x y = false -> le x y = true.
Proof.
  intros Hx Hy. unfold gt, lt, le, SFltb, SFleb.
  rewrite (SFcompare_antisym x y).
  destruct (compare_defined x y Hx Hy) as [c ->]. by destruct c.
Qed.

Lemma ge_of_not_lt x y :
  isNaN x = false -> isNaN y = false -> lt x y = false -> le y x = true.
Proof.
  intros Hx Hy. unfold lt, le, SFltb, SFleb.
  rewrite (SFcompare_antisym x y).
  destruct (compare_defined x y Hx Hy) as [c ->]. by destruct c.
Qed.

Section LatitudeRange.

Variable Math_cos Math_sin : number -> number.
Variable Math_hypot : number -> number -> number.
Variable project : Vec3.t -> Vec3.t.
Variable cameraPosition : Vec3.t.
Variable rendererSize canvasSize : number * number.
Variable g : GridMeta.
Variable U V : list number.
Variable overlayMode : OverlayMode.

Let update :=
  updateParticle Math_cos Math_sin Math_hypot project cameraPosition
    rendererSize canvasSize g U V overlayMode.

(** From a finite latitude and a finite wind the advanced latitude is
    a number of [[-90, 90]]. *)
Lemma advance_lat_in_range p w :
  isFinite (lat p) = true -> isFinite (v w) = true ->
  le (ofZ (-90)) (lat (advance Math_cos p w)) = true
  /\ le (lat (advance Math_cos p w)) (ofZ 90) = true.
Proof.
  intros Hl Hv.
  pose proof (advance_lat Math_cos p w) as (Hup & Hdown & Hin). cbv zeta in *.
  assert (isNaN (add (lat p) (mul (v w) SPEED_FACTOR)) = false) as Hn.
  { apply add_finite_notNaN; [done|]. by apply mul_finite_notNaN. }
  destruct (gt (add (lat p) (mul (v w) SPEED_FACTOR)) (ofZ 90)) eqn:E1.
  - rewrite (Hup eq_refl), dec_89999. by vm_compute.
  - destruct (lt (add (lat p) (mul (v w) SPEED_FACTOR)) (ofZ (-90))) eqn:E2.
    + rewrite (Hdown eq_refl), dec_89999. by vm_compute.
    + rewrite (Hin eq_refl eq_refl). split.
      * by apply ge_of_not_lt.
      * by apply le_of_not_gt.
Qed.

(** C6 (as amended).  After every tick the stored latitude is a number
    of the closed interval [[-90, 90]], never NaN.  An update that
    leaves the interval is clamped to 89.999 or -89.999; an update that
    does not -- landing on 90 or -90 included -- is stored as it is;
    and a spawned particle has latitude [r * 180 - 90], within
    [[-90, 90]] for every draw [r] of [[0, 1)]. *)
Theorem particle_latitude_range p prevXY r1 r2 r3 :
  valid_binary prec emax r2 = true ->
  le (ofZ 0) r2 = true -> lt r2 (ofZ 1) = true ->
  let inRange q := le (ofZ (-90)) (lat q) = true /\ le (lat q) (ofZ 90) = true in
  inRange (particle (update p prevXY r1 r2))
  /\ inRange (fresh r1 r2)
  /\ inRange (spawn r1 r2 r3)
  /\ (forall w,
        let lat1 := add (lat p) (mul (v w) SPEED_FACTOR) in
        (gt lat1 (ofZ 90) = true -> lat (advance Math_cos p w) = dec 89999 3)
        /\ (lt lat1 (ofZ (-90)) = true ->
            lat (advance Math_cos p w) = neg (dec 89999 3))
        /\ (gt lat1 (ofZ 90) = false -> lt lat1 (ofZ (-90)) = false ->
            lat (advance Math_cos p w) = lat1)).
Proof.
  intros Hv H0 H1 inRange.
  assert (inRange (fresh r1 r2)) as Hfresh.
  { subst inRange. cbn [lat fresh]. by apply spawn_lat_bounds. }
  split; [|split; [done | split; [exact Hfresh|]]].
  - set (w := windAt g U V (lon p) (lat p)).
    destruct (isFinite (u w) && isFinite (v w)) eqn:Hf.
    + destruct (gt (add (age p) (ofZ 1)) PARTICLE_LIFE) eqn:Ha.
      * subst update. by rewrite update_expired.
      * subst update. rewrite update_survivor by done. fold w.
        apply andb_true_iff in Hf as [Hfu Hfv].
        apply advance_lat_in_range; [|done].
        destruct (isFinite (lat p)) eqn:El; [done|].
        subst w. rewrite windAt_no_cell in Hfu by tauto. done.
    + subst update. by rewrite update_missing_wind.
  - intros w. apply (advance_lat Math_cos p w).
Qed.

End LatitudeRange.

Lemma particle_latitude_range_witness :
  le (ofZ (-90)) (lat (fresh (dec 5 1) (dec 5 1))) = true
  /\ le (lat (fresh (dec 5 1) (dec 5 1))) (ofZ 90) = true.
Proof.
  assert (valid_binary prec emax (dec 5 1) = true) as Hv by (vm_compute; reflexivity).
  assert (le (ofZ 0) (dec 5 1) = true) as H0 by (vm_compute; reflexivity).
  assert (lt (dec 5 1) (ofZ 1) = true) as H1 by (vm_compute; reflexivity).
  destruct (particle_latitude_range constOne constOne hypotZero
              projectCentre initialCamera viewport viewport polarGrid
              calmU northV ModeWind
              {| lon := ofZ 0; lat := ofZ 89; age := ofZ 0 |} noPrev
              (dec 5 1) (dec 5 1) (dec 5 1) Hv H0 H1) as (_ & H & _).
  exact H.
Defined.

(** C6 fails as stated: the draw 0 spawns a particle at latitude -90
    exactly, and the update from 89.5 under a northward wind of 62.5
    lands on 90 exactly and is stored there. *)
Lemma latitude_reaches_the_poles :
  lat (fresh (ofZ 0) (ofZ 0)) = ofZ (-90)
  /\ lt (ofZ (-90)) (lat (fresh (ofZ 0) (ofZ 0))) = false
  /\ lat (particle (exampleUpdate polarGrid calmU gentleV
                      {| lon := ofZ 0; lat := dec 895 1; age := ofZ 0 |}
                      noPrev (dec 5 1) (dec 5 1))) = ofZ 90
  /\ lt (ofZ 90) (ofZ 90) = false.
Proof. vm_compute. repeat split. Qed.

Lemma no_segment_from_cleared_slot_witness :
  drawn (exampleUpdate polarGrid calmU northV
           {| lon := ofZ 0; lat := dec 895 1; age := ofZ 0 |}
           (prev (exampleUpdate polarGrid calmU northV
                    {| lon := ofZ 0; lat := ofZ 89; age := ofZ 0 |}
                    (ofZ 10, ofZ 10) (dec 5 1) (dec 5 1)))
           (dec 5 1) (dec 5 1)) = None.
Proof.
  unfold exampleUpdate.
  apply (proj2 (no_segment_from_cleared_slot constOne constOne hypotZero projectCentre
                  initialCamera viewport viewport polarGrid calmU northV ModeWind
                  {| lon := ofZ 0; lat := dec 895 1; age := ofZ 0 |}
                  {| lon := ofZ 0; lat := ofZ 89; age := ofZ 0 |}
                  (ofZ 0) (ofZ 10, ofZ 10) (dec 5 1) (dec 5 1) (dec 5 1) (dec 5 1))).
  vm_compute. reflexivity.
Defined.

Lemma nonfinite_particle_is_recycled_witness :
  exampleUpdate polarGrid calmU northV
    {| lon := NaN; lat := ofZ 0; age := ofZ 3 |} (ofZ 10, ofZ 10) (dec 5 1) (dec 5 1)
  = recycle (dec 5 1) (dec 5 1).
Proof.
  unfold exampleUpdate. apply nonfinite_particle_is_recycled. left. reflexivity.
Defined.

(** * Further properties of the loaders *)

Lemma loadWind_meta_from st files :
  fst (fold_left loadWindFile files st)
  = match fst st with
    | Some m => Some m
    | None => head (omap windMetaOf files)
    end.
Proof.
  revert st. induction files as [|uv files IH]; intros st; cbn [fold_left].
  - by destruct (fst st).
  - rewrite IH. unfold loadWindFile, windMetaOf at 2. simpl.
    unfold windMetaOf at 1.
    destruct (uv !! 0%nat), (uv !! 1%nat), (fst st); done.
Qed.

(** X10.  The grid metadata is that of the first wind file carrying
    both records; the files after it never change it, so every later
    level is sampled with the first file's geometry. *)
Theorem gridMeta_from_first_file files vObj uObj rest later :
  fst (loadWind files) = head (omap windMetaOf files)
  /\ fst (loadWind ((vObj :: uObj :: rest) :: later)) = Some (metaOf (header vObj)).
Proof.
  unfold loadWind. rewrite !loadWind_meta_from. done.
Qed.

Lemma mul_self_nonneg x : isFinite x = true -> signIs false (mul x x) = true.
Proof.
  destruct x as [s| | |s m e]; try done; intros _.
  - by destruct s.
  - unfold mul. cbn [SFmul]. rewrite xorb_nilpotent. by apply round_aux_sign.
Qed.

Lemma add_nonneg x y :
  signIs false x = true -> signIs false y = true -> signIs false (add x y) = true.
Proof.
  destruct x as [[|]|[|]| |[|] mx ex]; try done;
    destruct y as [[|]|[|]| |[|] my ey]; try done; intros _ _.
  unfold add. cbn [SFadd cond_Zopp].
  destruct (Z.pos _ + Z.pos _) as [|p|p] eqn:E; try lia.
  cbn [binary_normalize]. apply round_sign.
Qed.

Lemma sqrt_nonneg x : signIs false x = true -> signIs false (Math_sqrt x) = true.
Proof.
  destruct x as [[|]|[|]| |[|] m e]; try done; intros _.
  unfold Math_sqrt. cbn [SFsqrt].
  destruct (SFsqrt_core_binary prec emax (Z.pos m) e) as [[mz ez] lz] eqn:E.
  apply round_aux_sign.
  unfold SFsqrt_core_binary in E.
  destruct (Z.sqrtrem _) as [q r] eqn:Es. injection E as <- _ _.
  pose proof (Z.sqrtrem_spec (match
        e - 2 * Z.min (fexp prec emax (Z.div2 (Zdigits2 (Z.pos m) + e + 1))) (Z.div2 e)
      with
      | 0 => Z.pos m
      | Z.pos _ =>
          Z.shiftl (Z.pos m)
            (e - 2 * Z.min (fexp prec emax (Z.div2 (Zdigits2 (Z.pos m) + e + 1))) (Z.div2 e))
      | Z.neg _ => 0
      end)) as Hs.
  rewrite Es in Hs.
  assert (0 <= match
        e - 2 * Z.min (fexp prec emax (Z.div2 (Zdigits2 (Z.pos m) + e + 1))) (Z.div2 e)
      with
      | 0 => Z.pos m
      | Z.pos _ =>
          Z.shiftl (Z.pos m)
            (e - 2 * Z.min (fexp prec emax (Z.div2 (Zdigits2 (Z.pos m) + e + 1))) (Z.div2 e))
      | Z.neg _ => 0
      end) as H0.
  { destruct (e - 2 * _); try lia. apply Z.shiftl_nonneg. lia. }
  specialize (Hs H0). nia.
Qed.

Lemma fround_nonneg x : signIs false x = true -> signIs false (fround x) = true.
Proof.
  destruct x as [[|]|[|]| |[|] m e]; try done; intros _.
  unfold fround.
  pose proof (round_aux_sign false) as H.
  assert (signIs false (binary_round 24 128 false m e) = true) as H1.
  { unfold binary_round. destruct (shl_align m e _) as [mz ez].
    unfold binary_round_aux, shr_fexp.
    pose proof (shr_nonneg (shr_record_of_loc (Z.pos mz) loc_Exact) ez
                  (fexp 24 128 (Zdigits2 (Z.pos mz) + ez) - ez)) as Ha.
    destruct (shr (shr_record_of_loc (Z.pos mz) loc_Exact) ez _) as [rec1 e1].
    cbn [fst] in Ha. specialize (Ha ltac:(cbn; lia)).
    pose proof (round_nearest_even_bounds (shr_m rec1) (loc_of_shr_record rec1)) as [Hb _].
    set (m2 := round_nearest_even (shr_m rec1) (loc_of_shr_record rec1)) in *.
    pose proof (shr_nonneg (shr_record_of_loc m2 loc_Exact) e1
                  (fexp 24 128 (Zdigits2 m2 + e1) - e1)) as Hc.
    destruct (shr (shr_record_of_loc m2 loc_Exact) e1 _) as [rec2 e2].
    cbn [fst] in Hc. specialize (Hc ltac:(cbn; lia)).
    destruct (shr_m rec2) as [|p|p]; try lia; [done|].
    by destruct (e2 <=? 128 - 24). }
  destruct (binary_round 24 128 false m e) as [[|]|[|]| |[|] m' e']; try done.
  apply round_sign.
Qed.

(** X11.  The speed array has one entry per entry of [U].  The entry
    is NaN exactly when [U[j]] or [V[j]] is not finite (or [V] has no
    entry [j]); otherwise it is a non-negative number, possibly
    [+Infinity] when the sum of squares overflows. *)
Theorem speed_overlay_entries U V j u0 :
  U !! j = Some u0 ->
  length (speedOverlay U V) = length U
  /\ exists s,
      speedOverlay U V !! j = Some s
      /\ isNaN s = negb (isFinite u0
                         && match V !! j with Some v0 => isFinite v0 | None => false end)
      /\ (isNaN s = false -> signIs false s = true).
Proof.
  intros Hu. unfold speedOverlay. split; [by rewrite length_map, length_seq|].
  exists (speedAt U V j). split.
  - rewrite list_lookup_fmap, lookup_seq_lt; [done|]. by apply lookup_lt_Some in Hu.
  - unfold speedAt. rewrite Hu. cbn [toNumber].
    destruct (V !! j) as [v0|]; [|by rewrite andb_false_r].
    destruct (isFinite u0) eqn:Fu, (isFinite v0) eqn:Fv; cbn [andb negb]; try done.
    assert (signIs false (fround (Math_sqrt (add (mul u0 u0) (mul v0 v0)))) = true) as Hs.
    { apply fround_nonneg, sqrt_nonneg, add_nonneg; by apply mul_self_nonneg. }
    split; [|done].
    by destruct (fround (Math_sqrt (add (mul u0 u0) (mul v0 v0)))).
Qed.

Lemma speed_overlay_entries_witness :
  length (speedOverlay [ofZ 3; NaN] [ofZ 4; ofZ 1]) = 2%nat.
Proof.
  apply (speed_overlay_entries [ofZ 3; NaN] [ofZ 4; ofZ 1] 0 (ofZ 3)). reflexivity.
Defined.

(** * Further properties of the overlay pass *)

Lemma fold_left_prefix_invariant {A B} (P : list B -> A -> Prop) (f : A -> B -> A) l a :
  P [] a ->
  (forall pre b a, P pre a -> b ∈ l -> P (pre ++ [b]) (f a b)) ->
  P l (fold_left f l a).
Proof.
  intros H0 Hstep.
  assert (forall suf pre a, (forall b, b ∈ suf -> b ∈ l) -> P pre a ->
            P (pre ++ suf) (fold_left f suf a)) as Hgen.
  { induction suf as [|b suf IH]; intros pre a' Hin Hp; cbn [fold_left].
    - by rewrite app_nil_r.
    - replace (pre ++ b :: suf) with ((pre ++ [b]) ++ suf) by by rewrite <- app_assoc.
      apply IH.
      + intros b' Hb'. apply Hin. by right.
      + apply Hstep; [done|]. apply Hin. by left. }
  apply (Hgen l [] a); done.
Qed.

Lemma stepRange_covers hi step p :
  0 < step -> 0 <= p < hi -> blockOrigin step p ∈ stepRange hi step.
Proof.
  intros Hs Hp. unfold blockOrigin, stepRange.
  apply list_elem_of_fmap. exists (p / step). split.
  - pose proof (Z.div_mod p step ltac:(lia)). lia.
  - apply elem_of_seqZ.
    pose proof (Z.div_mod p step ltac:(lia)).
    pose proof (Z.mod_pos_bound p step Hs).
    assert (0 <= p / step) by (apply Z.div_pos; lia).
    split; [lia|].
    assert (p / step <= (hi + step - 1) / step - 1); [|lia].
    assert (p / step + 1 <= (hi + step - 1) / step); [|lia].
    apply Z.div_le_lower_bound; [done|]. nia.
Qed.

Lemma blockOrigin_spec step p :
  0 < step -> 0 <= p ->
  0 <= blockOrigin step p /\ blockOrigin step p mod step = 0
  /\ 0 <= p - blockOrigin step p < step.
Proof.
  intros Hs Hp. unfold blockOrigin.
  pose proof (Z.div_mod p step ltac:(lia)).
  pose proof (Z.mod_pos_bound p step Hs).
  assert (0 <= p / step) by (apply Z.div_pos; lia).
  split; [nia|]. split; [|lia].
  replace (p - p mod step) with (p / step * step) by lia. apply Z_mod_mult.
Qed.

Lemma blockOrigin_unique step x p :
  0 < step -> x mod step = 0 -> x <= p < x + step -> blockOrigin step p = x.
Proof.
  intros Hs Hx Hp. replace p with (x + (p - x)) by lia.
  apply blockOrigin_block; (done || lia).
Qed.

Section PixelWrites.

Variable width height : Z.

Lemma writePixel_same data px py col c :
  0 <= px < width -> 0 <= py < height -> 0 <= c < 4 ->
  length data = Z.to_nat (width * height * 4) ->
  channelAt width (writePixel width data px py col) px py c = Some (channelOf c col).
Proof.
  intros Hpx Hpy Hc Hlen. unfold channelAt, writePixel, channelOf.
  assert (((py * width + px) * 4 + 3 < width * height * 4)) as Hin by nia.
  assert (0 <= (py * width + px) * 4) as H0 by nia.
  set (i := Z.to_nat ((py * width + px) * 4)).
  assert (i + 3 < length data)%nat as Hi by (subst i; lia).
  assert (c = 0 \/ c = 1 \/ c = 2 \/ c = 3) as [-> | [-> | [-> | ->]]] by lia; cbn [Z.eqb].
  - replace (Z.to_nat ((py * width + px) * 4 + 0)) with i by (subst i; lia).
    rewrite !list_lookup_insert_ne by lia.
    apply list_lookup_insert_eq. lia.
  - replace (Z.to_nat ((py * width + px) * 4 + 1)) with (i + 1)%nat by (subst i; lia).
    rewrite !list_lookup_insert_ne by lia.
    apply list_lookup_insert_eq. rewrite length_insert. lia.
  - replace (Z.to_nat ((py * width + px) * 4 + 2)) with (i + 2)%nat by (subst i; lia).
    rewrite !list_lookup_insert_ne by lia.
    apply list_lookup_insert_eq. rewrite !length_insert. lia.
  - replace (Z.to_nat ((py * width + px) * 4 + 3)) with (i + 3)%nat by (subst i; lia).
    apply list_lookup_insert_eq. rewrite !length_insert. lia.
Qed.

End PixelWrites.

Section OverlayContent.

Variable unproject : Vec3.t -> Vec3.t.
Variable cameraPosition : Vec3.t.
Variable Math_atan2 : number -> number -> number.
Variable Math_asin : number -> number.
Variable width height : Z.
Variable overlayMode : OverlayMode.
Variable airModeEnabled isMoving : bool.
Variable shade : number -> number -> Z -> Z -> option (Z -> Z -> Pixel).

Let stp := step width height overlayMode.
Let size := Z.to_nat (width * height * 4).

Let colourOf :=
  sampleColour unproject cameraPosition Math_atan2 Math_asin width height shade.

Let expected :=
  expectedChannel unproject cameraPosition Math_atan2 Math_asin
    width height overlayMode shade.

Let inCanvas (px py c : Z) : Prop :=
  0 <= px < width /\ 0 <= py < height /\ 0 <= c < 4.

Lemma fillBlock_spec data x y colour :
  0 <= x < width -> 0 <= y < height -> length data = size ->
  length (fillBlock width height overlayMode data x y colour) = size
  /\ forall px py c, inCanvas px py c ->
       (x <= px < x + stp /\ y <= py < y + stp ->
        channelAt width (fillBlock width height overlayMode data x y colour) px py c
        = Some (channelOf c (colour (px - x) (py - y))))
       /\ (~ (x <= px < x + stp /\ y <= py < y + stp) ->
           channelAt width (fillBlock width height overlayMode data x y colour) px py c
           = channelAt width data px py c).
Proof.
  intros Hx Hy Hlen. unfold fillBlock. fold stp.
  set (inY py := py - y ∈ blockRange y stp height).
  set (paint px py c := Some (channelOf c (colour (px - x) (py - y)))).
  pose (Po := fun (pre : list Z) (d : list Z) =>
    length d = size
    /\ forall px py c, inCanvas px py c ->
         (px - x ∈ pre /\ inY py -> channelAt width d px py c = paint px py c)
         /\ (~ (px - x ∈ pre /\ inY py) ->
             channelAt width d px py c = channelAt width data px py c)).
  assert (Po (blockRange x stp width)
            (fold_left
               (fun d bx =>
                  fold_left (fun d by' => writePixel width d (x + bx) (y + by') (colour bx by'))
                    (blockRange y stp height) d)
               (blockRange x stp width) data)) as [HL HP].
  { apply (fold_left_prefix_invariant Po).
    { split; [done|]. intros px py c Hin. split; [|done].
      intros [H _]. by apply elem_of_nil in H. }
    intros pre bx d [HdL HdP] Hbx. apply blockRange_spec in Hbx as [Hbx Hbxw].
    pose (Pi := fun (preY : list Z) (d' : list Z) =>
      length d' = size
      /\ forall px py c, inCanvas px py c ->
           ((px - x ∈ pre /\ inY py) \/ (px - x = bx /\ py - y ∈ preY) ->
            channelAt width d' px py c = paint px py c)
           /\ (~ ((px - x ∈ pre /\ inY py) \/ (px - x = bx /\ py - y ∈ preY)) ->
               channelAt width d' px py c = channelAt width data px py c)).
    assert (Pi (blockRange y stp height)
              (fold_left (fun d by' => writePixel width d (x + bx) (y + by') (colour bx by'))
                 (blockRange y stp height) d)) as [HiL HiP].
    { apply (fold_left_prefix_invariant Pi).
      { split; [done|]. intros px py c Hin. split.
        - intros [H | [_ H]]; [by apply HdP | by apply elem_of_nil in H].
        - intros Hn. apply HdP; [done|]. tauto. }
      intros preY by' d' [HL' HP'] Hby. pose proof Hby as Hby0.
      apply blockRange_spec in Hby as [Hby Hbyh].
      split; [by rewrite writePixel_length|].
      intros px py c Hin. pose proof Hin as (Hpx & Hpy & Hc).
      destruct (decide ((px, py) = (x + bx, y + by'))) as [[= -> ->] | Hne].
      - split.
        + intros _. rewrite (writePixel_same width height) by (done || lia).
          subst paint. cbv beta. do 3 f_equal; lia.
        + intros Hn. exfalso. apply Hn. right. split; [lia|].
          rewrite elem_of_app. right. apply list_elem_of_singleton. lia.
      - rewrite writePixel_other by (done || lia).
        destruct (HP' px py c Hin) as [H1 H2]. split.
        + intros [H | [Hb H]]; [apply H1; by left|].
          apply elem_of_app in H as [H | H]; [apply H1; by right|].
          apply list_elem_of_singleton in H. exfalso. apply Hne. f_equal; lia.
        + intros Hn. apply H2. intros [H | [Hb H]]; apply Hn; [by left|].
          right. split; [done|]. apply elem_of_app. by left. }
    split; [done|]. intros px py c Hin. destruct (HiP px py c Hin) as [H1 H2]. split.
    - intros [H Hy']. apply elem_of_app in H as [H | H]; [apply H1; by left|].
      apply list_elem_of_singleton in H. apply H1. by right.
    - intros Hn. apply H2. intros [[H Hy'] | [Hb Hy']]; apply Hn.
      + split; [|done]. apply elem_of_app. by left.
      + split; [|done]. apply elem_of_app. right. by apply list_elem_of_singleton. }
  split; [done|]. intros px py c Hin. pose proof Hin as (Hpx & Hpy & Hc).
  destruct (HP px py c Hin) as [H1 H2].
  assert ((px - x ∈ blockRange x stp width /\ inY py)
          <-> (x <= px < x + stp /\ y <= py < y + stp)) as Hiff.
  { subst inY. cbv beta. unfold blockRange. rewrite !elem_of_seqZ. lia. }
  split.
  - intros H. apply H1. by apply Hiff.
  - intros H. apply H2. by rewrite Hiff.
Qed.

Lemma renderSample_colourOf data x y :
  renderSample unproject cameraPosition Math_atan2 Math_asin
    width height overlayMode shade data x y
  = match colourOf x y with
    | Some colour => fillBlock width height overlayMode data x y colour
    | None => data
    end.
Proof.
  unfold renderSample. subst colourOf. unfold sampleColour.
  destruct (ge _ (ofZ 0)); [|done].
  destruct (gt _ (ofZ 0)); [|done].
  by destruct (gt _ (dec 1 1)).
Qed.

(** The state of the buffer once the samples selected by [P] have been
    processed. *)
Let painted (P : Z -> Z -> Prop) (d : list Z) : Prop :=
  length d = size
  /\ forall px py c, inCanvas px py c ->
       (P (blockOrigin stp px) (blockOrigin stp py) ->
        channelAt width d px py c = Some (expected px py c))
       /\ (~ P (blockOrigin stp px) (blockOrigin stp py) ->
           channelAt width d px py c = Some 0).

Lemma renderSample_painted (P : Z -> Z -> Prop) data x y :
  0 <= x < width -> 0 <= y < height -> x mod stp = 0 -> y mod stp = 0 ->
  P x y \/ ~ P x y ->
  painted P data ->
  painted (fun X Y => P X Y \/ (X = x /\ Y = y))
    (renderSample unproject cameraPosition Math_atan2 Math_asin
       width height overlayMode shade data x y).
Proof.
  intros Hx Hy Hxm Hym Hdec [HL HP]. rewrite renderSample_colourOf.
  assert (0 < stp) as Hs by (subst stp; unfold step; destruct overlayMode; lia).
  assert (forall px py, 0 <= px -> 0 <= py ->
            (blockOrigin stp px = x /\ blockOrigin stp py = y)
            <-> (x <= px < x + stp /\ y <= py < y + stp)) as Hblock.
  { intros px py Hpx Hpy. split.
    - intros [<- <-].
      pose proof (blockOrigin_spec stp px Hs Hpx). pose proof (blockOrigin_spec stp py Hs Hpy).
      lia.
    - intros [H1 H2]. split; by apply blockOrigin_unique. }
  destruct (colourOf x y) as [colour|] eqn:Ec.
  - destruct (fillBlock_spec data x y colour Hx Hy HL) as [HL' HF].
    split; [done|]. intros px py c Hin. pose proof Hin as (Hpx & Hpy & Hc).
    destruct (HF px py c Hin) as [F1 F2]. destruct (HP px py c Hin) as [P1 P2].
    destruct (decide (x <= px < x + stp /\ y <= py < y + stp)) as [Hb | Hb].
    + pose proof (proj2 (Hblock px py ltac:(lia) ltac:(lia)) Hb) as [Hbx Hby].
      split.
      * intros _. rewrite F1 by done. subst expected. unfold expectedChannel.
        fold stp. fold colourOf. cbv zeta. by rewrite Hbx, Hby, Ec.
      * intros Hn. exfalso. apply Hn. by right.
    + rewrite F2 by done. split.
      * intros [H | H]; [by apply P1|]. exfalso. apply Hb.
        by apply (Hblock px py ltac:(lia) ltac:(lia)).
      * intros Hn. apply P2. intros H. apply Hn. by left.
  - split; [done|]. intros px py c Hin. pose proof Hin as (Hpx & Hpy & Hc).
    destruct (HP px py c Hin) as [P1 P2]. split.
    + intros [H | [Hbx Hby]]; [by apply P1|].
      destruct Hdec as [Hp | Hp].
      * apply P1. by rewrite Hbx, Hby.
      * rewrite P2 by (by rewrite Hbx, Hby). subst expected. unfold expectedChannel.
        fold stp. fold colourOf. cbv zeta. by rewrite Hbx, Hby, Ec.
    + intros Hn. apply P2. intros H. apply Hn. by left.
Qed.

Lemma painted_ext (P Q : Z -> Z -> Prop) d :
  (forall X Y, P X Y <-> Q X Y) -> painted P d -> painted Q d.
Proof.
  intros HPQ [HL HP]. split; [done|].
  intros px py c Hin. destruct (HP px py c Hin) as [H1 H2]. split.
  - intros HQ. apply H1. by apply HPQ.
  - intros HQ. apply H2. intros Hp. apply HQ. by apply HPQ.
Qed.

(** X12.  The buffer of a pass has [width * height * 4] entries, and
    every channel of every pixel holds what its block's sample put
    there: the colour that [shade] chose for the pixel's offset in the
    block when the sample passed the three tests, and 0 otherwise. *)
Theorem overlay_pixel_content data px py c :
  renderAirModeOverlay unproject cameraPosition Math_atan2 Math_asin
    width height overlayMode airModeEnabled isMoving shade = Some data ->
  0 <= px < width -> 0 <= py < height -> 0 <= c < 4 ->
  length data = Z.to_nat (width * height * 4)
  /\ channelAt width data px py c
     = Some (expectedChannel unproject cameraPosition Math_atan2 Math_asin
               width height overlayMode shade px py c).
Proof.
  intros Hr Hpx Hpy Hc.
  assert (0 < stp) as Hs by (subst stp; unfold step; destruct overlayMode; lia).
  assert (painted (fun X Y => X ∈ stepRange width stp /\ Y ∈ stepRange height stp) data)
    as [HL HP].
  { unfold renderAirModeOverlay in Hr.
    destruct (_ || isMoving); [done|]. injection Hr as <-. fold stp.
    apply (fold_left_prefix_invariant
             (fun pre d => painted (fun X Y => X ∈ pre /\ Y ∈ stepRange height stp) d)).
    { split; [subst size; unfold createImageData; by rewrite length_replicate|].
      intros qx qy k (Hqx & Hqy & Hk). split.
      - intros [H _]. by apply elem_of_nil in H.
      - intros _. unfold channelAt, createImageData. apply lookup_replicate_2. nia. }
    intros pre x d Hd Hx. apply stepRange_spec in Hx as [Hx Hxm]; [|done].
    apply (painted_ext (fun X Y => (X ∈ pre /\ Y ∈ stepRange height stp)
                                   \/ (X = x /\ Y ∈ stepRange height stp))).
    { intros X Y. rewrite elem_of_app, list_elem_of_singleton. split.
      - intros [[H1 H2]|[H1 H2]]; (split; [|done]); [by left | by right].
      - intros [[H1|H1] H2]; [by left | by right]. }
    apply (fold_left_prefix_invariant
             (fun preY d => painted (fun X Y => (X ∈ pre /\ Y ∈ stepRange height stp)
                                                \/ (X = x /\ Y ∈ preY)) d)).
    { eapply painted_ext; [|exact Hd]. intros X Y. split; [by left|].
      intros [H|[_ H]]; [done | by apply elem_of_nil in H]. }
    intros preY y d' Hd' Hy. pose proof Hy as Hy'.
    apply stepRange_spec in Hy as [Hy Hym]; [|done].
    apply (painted_ext (fun X Y => ((X ∈ pre /\ Y ∈ stepRange height stp)
                                    \/ (X = x /\ Y ∈ preY)) \/ (X = x /\ Y = y))).
    { intros X Y. rewrite elem_of_app, list_elem_of_singleton. tauto. }
    apply renderSample_painted; try done.
    destruct (decide (x ∈ pre)) as [Hi|Hn]; [left; left; done|].
    destruct (decide (y ∈ preY)) as [Hi'|Hn']; [left; right; done|].
    right. intros [[H _]|[_ H]]; done. }
  split; [done|]. apply HP; [done|].
  split; (apply stepRange_covers; [done | lia]).
Qed.

End OverlayContent.

Lemma overlay_pixel_content_witness :
  exists data,
    examplePass = Some data
    /\ length data = 16%nat
    /\ channelAt 2 data 1 1 3 = Some 255
    /\ channelAt 2 data 0 0 0 = Some 0.
Proof.
  destruct examplePass as [data|] eqn:E; [|by vm_compute in E].
  exists data. split; [done|].
  destruct (overlay_pixel_content unprojectPlane initialCamera hypotZero constOne
              2 2 ModeWind true false shadeWhite data 1 1 3 E
              ltac:(lia) ltac:(lia) ltac:(lia)) as [HL H1].
  destruct (overlay_pixel_content unprojectPlane initialCamera hypotZero constOne
              2 2 ModeWind true false shadeWhite data 0 0 0 E
              ltac:(lia) ltac:(lia) ltac:(lia)) as [_ H0].
  split; [exact HL|]. split.
  - rewrite H1. vm_compute. reflexivity.
  - rewrite H0. vm_compute. reflexivity.
Defined.

(** ** The ends of the temperature ramp *)

Lemma clampTemp_hot x : ge x maxTemp = true -> clampTemp x = maxTemp.
Proof.
  intros H. unfold clampTemp.
  assert (Math_min maxTemp x = maxTemp) as ->; [|by vm_compute].
  unfold ge in H. pose proof (le_not_lt _ _ H) as Hlt.
  change maxTemp with (S754_finite false 7036874417766400 (-47)) in *.
  unfold Math_min. destruct x as [s|s| |s m e]; try done; by rewrite Hlt.
Qed.

Lemma clampTemp_cold x : le x minTemp = true -> clampTemp x = minTemp.
Proof.
  intros H. unfold clampTemp.
  pose proof (le_not_lt _ _ H) as Hlt.
  change minTemp with (S754_finite true 5629499534213120 (-46)) in *.
  change maxTemp with (S754_finite false 7036874417766400 (-47)).
  destruct x as [s|s| |s m e]; try done.
  - destruct s; [|done]. by vm_compute.
  - destruct s; [|done].
    assert (Math_min (S754_finite false 7036874417766400 (-47)) (S754_finite true m e)
            = S754_finite true m e) as ->.
    { unfold Math_min, lt, SFltb. by cbn [SFcompare]. }
    unfold Math_max. by rewrite Hlt.
Qed.

Lemma rampRGB_cold :
  rampRGB (div (sub minTemp minTemp) (sub maxTemp minTemp)) = (ofZ 80, ofZ 20, ofZ 120).
Proof. by vm_compute. Qed.

Lemma rampRGB_hot :
  rampRGB (div (sub maxTemp minTemp) (sub maxTemp minTemp)) = (ofZ 180, ofZ 10, ofZ 5).
Proof. by vm_compute. Qed.

Lemma compare_eq_finite s m e c ec :
  SFcompare (S754_finite s m e) (S754_finite s c ec) = Some Eq ->
  S754_finite s m e = S754_finite s c ec.
Proof.
  cbn [SFcompare]. destruct s.
  - destruct (Z.compare_spec e ec) as [He | Hc | Hc]; intros H; try discriminate H.
    injection H as H. apply CompOpp_iff in H. cbn [CompOpp] in H.
    apply Pos.compare_eq in H. congruence.
  - destruct (Z.compare_spec e ec) as [He | Hc | Hc]; intros H; try discriminate H.
    injection H as H. apply Pos.compare_eq in H. congruence.
Qed.

Lemma clampTemp_inside x :
  le minTemp x = true -> le x maxTemp = true -> clampTemp x = x.
Proof.
  intros Hlo Hhi. unfold clampTemp.
  change minTemp with (S754_finite true 5629499534213120 (-46)) in *.
  change maxTemp with (S754_finite false 7036874417766400 (-47)) in *.
  assert (Math_min (S754_finite false 7036874417766400 (-47)) x = x) as ->.
  { destruct x as [s|s| |s m e]; try done.
    - by destruct s.
    - unfold Math_min, lt, SFltb. unfold le, SFleb in Hhi.
      destruct (SFcompare (S754_finite s m e) _) as [[| |]|] eqn:E; try done.
      destruct s; [done|]. symmetry. by apply compare_eq_finite. }
  destruct x as [s|s| |s m e]; try done.
  - by destruct s.
  - unfold Math_max, lt, SFltb. unfold le, SFleb in Hlo.
    destruct (SFcompare _ (S754_finite s m e)) as [[| |]|] eqn:E; try done.
    destruct s; [|done]. by apply compare_eq_finite.
Qed.

(** C8.  A finite input above 100 is taken for Kelvin: it is coloured
    as the input minus 273.15 is (when that value is finite and not
    itself above 100).  The Celsius value is clamped to [[-80, 50]]:
    values inside are left as they are, values at or below -80 are
    coloured (80, 20, 120) and values at or above 50 are coloured
    (180, 10, 5).  The input 300 becomes [300 - 273.15], which is 26.85
    to within 10^-12; its normalised position lies in [[0.78, 0.86)],
    the yellow-to-orange segment, and its colour is (255, 198, 39),
    with the red channel at 255.  A non-finite input gives
    (0, 0, 0, 0). *)
Theorem tempColorScale_kelvin_and_missing :
  (forall tempValue alpha,
      isFinite tempValue = true -> gt tempValue (ofZ 100) = true ->
      isFinite (sub tempValue (dec 27315 2)) = true ->
      gt (sub tempValue (dec 27315 2)) (ofZ 100) = false ->
      tempColorScale tempValue alpha
      = tempColorScale (sub tempValue (dec 27315 2)) alpha)
  /\ (forall tempC,
        (le tempC (ofZ (-80)) = true -> clampTemp tempC = ofZ (-80))
        /\ (ge tempC (ofZ 50) = true -> clampTemp tempC = ofZ 50)
        /\ (le (ofZ (-80)) tempC = true -> le tempC (ofZ 50) = true ->
            clampTemp tempC = tempC))
  /\ (forall tempValue alpha,
        isFinite tempValue = true ->
        let tempC :=
          if gt tempValue (ofZ 100) then sub tempValue (dec 27315 2) else tempValue in
        (le tempC (ofZ (-80)) = true ->
         tempColorScale tempValue alpha
         = {| cr := ofZ 80; cg := ofZ 20; cb := ofZ 120;
              ca := Math_floor (mul alpha (ofZ 255)) |})
        /\ (ge tempC (ofZ 50) = true ->
            tempColorScale tempValue alpha
            = {| cr := ofZ 180; cg := ofZ 10; cb := ofZ 5;
                 ca := Math_floor (mul alpha (ofZ 255)) |}))
  /\ toCelsius (ofZ 300) = sub (ofZ 300) (dec 27315 2)
  /\ lt (SFabs (sub (toCelsius (ofZ 300)) (dec 2685 2))) (dec 1 12) = true
  /\ le (dec 78 2) (normTemp (ofZ 300)) = true
  /\ lt (normTemp (ofZ 300)) (dec 86 2) = true
  /\ (forall alpha,
        tempColorScale (ofZ 300) alpha
        = {| cr := ofZ 255; cg := ofZ 198; cb := ofZ 39;
             ca := Math_floor (mul alpha (ofZ 255)) |})
  /\ (forall tempValue alpha,
        isFinite tempValue = false ->
        tempColorScale tempValue alpha
        = {| cr := ofZ 0; cg := ofZ 0; cb := ofZ 0; ca := ofZ 0 |}).
Proof.
  split; [|split; [|split; [|split; [|split; [|split; [|split; [|split]]]]]]].
  - intros x alpha Hf Hk Hf' Hk'. unfold tempColorScale, normTemp, toCelsius.
    by rewrite Hf, Hf', Hk, Hk'.
  - intros c. split; [|split].
    + apply clampTemp_cold.
    + apply clampTemp_hot.
    + apply clampTemp_inside.
  - intros x alpha Hf. cbv zeta. fold (toCelsius x).
    unfold tempColorScale, normTemp. rewrite Hf. cbn [negb].
    split; intros H.
    + rewrite clampTemp_cold by done. by rewrite rampRGB_cold.
    + rewrite clampTemp_hot by done. by rewrite rampRGB_hot.
  - by vm_compute.
  - by vm_compute.
  - by vm_compute.
  - by vm_compute.
  - intros alpha. apply tempColorScale_300.
  - intros x alpha Hx. unfold tempColorScale. by rewrite Hx.
Qed.

Lemma tempColorScale_kelvin_and_missing_witness :
  tempColorScale (ofZ 300) (ofZ 1)
  = tempColorScale (sub (ofZ 300) (dec 27315 2)) (ofZ 1)
  /\ clampTemp (ofZ (-100)) = ofZ (-80)
  /\ tempColorScale (ofZ 60) (ofZ 1)
     = {| cr := ofZ 180; cg := ofZ 10; cb := ofZ 5; ca := ofZ 255 |}
  /\ tempColorScale NaN (ofZ 1) = {| cr := ofZ 0; cg := ofZ 0; cb := ofZ 0; ca := ofZ 0 |}.
Proof.
  destruct tempColorScale_kelvin_and_missing as (HK & HC & HS & _ & _ & _ & _ & _ & HM).
  split; [|split; [|split]].
  - apply HK; vm_compute; reflexivity.
  - apply (proj1 (HC (ofZ (-100)))). vm_compute. reflexivity.
  - assert (isFinite (ofZ 60) = true) as Hf by reflexivity.
    destruct (HS (ofZ 60) (ofZ 1) Hf) as [_ Hhot].
    rewrite Hhot; [vm_compute; reflexivity | vm_compute; reflexivity].
  - apply HM. reflexivity.
Defined.

(** X13.  The ramp saturates at both ends: a finite reading that is at
    or below -80 degrees Celsius (after the Kelvin conversion) gets the
    colour (80, 20, 120), one at or above 50 degrees gets (180, 10, 5);
    the alpha channel is [floor (alpha * 255)] in both cases. *)
Theorem tempColorScale_saturates tempValue alpha :
  isFinite tempValue = true ->
  (le (toCelsius tempValue) minTemp = true ->
   tempColorScale tempValue alpha
   = {| cr := ofZ 80; cg := ofZ 20; cb := ofZ 120;
        ca := Math_floor (mul alpha (ofZ 255)) |})
  /\ (ge (toCelsius tempValue) maxTemp = true ->
      tempColorScale tempValue alpha
      = {| cr := ofZ 180; cg := ofZ 10; cb := ofZ 5;
           ca := Math_floor (mul alpha (ofZ 255)) |}).
Proof.
  intros Hf. unfold tempColorScale, normTemp. rewrite Hf. cbn [negb].
  split; intros H.
  - rewrite clampTemp_cold by done. by rewrite rampRGB_cold.
  - rewrite clampTemp_hot by done. by rewrite rampRGB_hot.
Qed.

Lemma tempColorScale_saturates_witness :
  tempColorScale (ofZ 100) (ofZ 1)
  = {| cr := ofZ 180; cg := ofZ 10; cb := ofZ 5; ca := ofZ 255 |}
  /\ tempColorScale (ofZ 150) (ofZ 1)
     = {| cr := ofZ 80; cg := ofZ 20; cb := ofZ 120; ca := ofZ 255 |}.
Proof.
  split.
  - apply (proj2 (tempColorScale_saturates (ofZ 100) (ofZ 1) eq_refl)).
    vm_compute. reflexivity.
  - apply (proj1 (tempColorScale_saturates (ofZ 150) (ofZ 1) eq_refl)).
    vm_compute. reflexivity.
Defined.

(** ** The temperature lookup *)

Lemma wrapped_column n i : 0 < n -> Z.rem (Z.rem i n + n) n = i mod n.
Proof.
  intros Hn.
  pose proof (Z.rem_bound_abs i n ltac:(lia)) as Hb.
  rewrite Z.rem_mod_nonneg by lia.
  rewrite <- (Z.mul_1_l n) at 2. rewrite Z.mod_add by lia.
  pose proof (Z.quot_rem' i n) as Hq.
  replace (Z.rem i n) with (i + (- (Z.quot i n)) * n) by lia.
  by rewrite Z.mod_add by lia.
Qed.

(** X14.  On a grid with [nx > 0] columns whose array has [nx * ny]
    entries, [safeGet] of a row inside the grid reads, for every column
    number of either sign, the entry of that row at the column taken
    modulo [nx]: the read is never outside the row, and columns [nx]
    apart read the same entry. *)
Theorem safeGet_wraps_every_column tg T jj ii :
  0 < nx tg -> Z.of_nat (length T) = nx tg * ny tg -> 0 <= jj < ny tg ->
  idxT tg jj ii = Some (jj * nx tg + ii mod nx tg)
  /\ T !! Z.to_nat (jj * nx tg + ii mod nx tg) = Some (safeGet tg T jj ii)
  /\ safeGet tg T jj (ii + nx tg) = safeGet tg T jj ii.
Proof.
  intros Hn HL Hj.
  assert (forall i, idxT tg jj i = Some (jj * nx tg + i mod nx tg)) as Hidx.
  { intros i. unfold idxT. rewrite (proj2 (Z.eqb_neq _ _)) by lia.
    by rewrite wrapped_column. }
  assert (forall i, T !! Z.to_nat (jj * nx tg + i mod nx tg) = Some (safeGet tg T jj i)) as Hget.
  { intros i. unfold safeGet.
    rewrite (proj2 (Z.ltb_ge _ _)) by lia. rewrite (proj2 (Z.leb_gt _ _)) by lia.
    cbn [orb]. rewrite Hidx.
    pose proof (Z.mod_pos_bound i (nx tg) Hn).
    assert (0 <= jj * nx tg + i mod nx tg < Z.of_nat (length T)) as Hk by nia.
    rewrite (proj2 (Z.leb_le _ _)) by lia. rewrite (proj2 (Z.ltb_lt _ _)) by lia.
    cbn [andb readAt]. rewrite (proj2 (Z.leb_le _ _)) by lia.
    destruct (T !! Z.to_nat (jj * nx tg + i mod nx tg)) as [t|] eqn:E; [done|].
    apply lookup_ge_None in E. lia. }
  split; [apply Hidx|]. split; [apply Hget|].
  pose proof (Hget (ii + nx tg)) as H1. pose proof (Hget ii) as H2.
  replace ((ii + nx tg) mod nx tg) with (ii mod nx tg) in H1; [congruence|].
  replace (ii + nx tg) with (ii + 1 * nx tg) by lia. by rewrite Z.mod_add by lia.
Qed.

Lemma safeGet_wraps_every_column_witness :
  idxT regionalGrid 1 (-25) = Some 15
  /\ regionalU !! 15%nat = Some (safeGet regionalGrid regionalU 1 (-25))
  /\ safeGet regionalGrid regionalU 1 (-25 + 10) = safeGet regionalGrid regionalU 1 (-25).
Proof.
  apply (safeGet_wraps_every_column regionalGrid regionalU 1 (-25));
    [reflexivity | reflexivity | cbn; lia].
Defined.

(** ** Camera-move detection *)

Lemma sub_self x : sub x x = S754_zero false \/ sub x x = NaN.
Proof.
  destruct x as [s|s| |s m e].
  - left. by destruct s.
  - right. by destruct s.
  - by right.
  - left. unfold sub. cbn [SFsub]. by rewrite Z.sub_diag.
Qed.

Lemma distanceToSquared_self p :
  distanceToSquared p p = S754_zero false \/ distanceToSquared p p = NaN.
Proof.
  unfold distanceToSquared. cbv zeta.
  destruct (sub_self (Vec3.x p)) as [-> | ->], (sub_self (Vec3.y p)) as [-> | ->],
           (sub_self (Vec3.z p)) as [-> | ->]; (by left) || (by right).
Qed.

Lemma not_moved_from_self p : gt (distanceToSquared p p) SIGNIFICANT_CAM_MOVE2 = false.
Proof. by destruct (distanceToSquared_self p) as [-> | ->]. Qed.

(** X15.  Handling a camera move re-arms the detection: with the camera
    where it is, [cameraMoved] is false again, whatever the position
    and target are (NaN and infinite coordinates included); every
    particle's previous screen position is cleared, one slot per
    particle; and an overlay pass requested before the flag is lowered
    returns without a buffer. *)
Theorem handled_move_rearms_detection
    st cameraPosition target unproject Math_atan2 Math_asin
    width height overlayMode airModeEnabled shade :
  cameraMoved (handleCamMove st cameraPosition target) cameraPosition target = false
  /\ length (prevSlots (handleCamMove st cameraPosition target)) = length (prevSlots st)
  /\ (forall k s, prevSlots (handleCamMove st cameraPosition target) !! k = Some s ->
                  s = noPrev)
  /\ renderAirModeOverlay unproject cameraPosition Math_atan2 Math_asin
       width height overlayMode airModeEnabled
       (moving (handleCamMove st cameraPosition target)) shade = None.
Proof.
  split; [|split; [|split]].
  - unfold cameraMoved, handleCamMove. cbn [lastCamPos lastCamTarget].
    by rewrite !not_moved_from_self.
  - unfold handleCamMove. cbn [prevSlots]. by rewrite length_map.
  - intros k s. unfold handleCamMove. cbn [prevSlots].
    rewrite list_lookup_fmap. destruct (prevSlots st !! k); [|done].
    cbn. congruence.
  - unfold renderAirModeOverlay, handleCamMove. cbn [moving].
    by rewrite orb_true_r.
Qed.

(** ** The wind-speed colour scale *)

Lemma sameNumber_eq x y : sameNumber x y = true -> x = y.
Proof.
  destruct x as [s|s| |s m e], y as [s'|s'| |s' m' e']; try done; cbn [sameNumber].
  - intros H. apply eqb_prop in H. by subst.
  - intros H. apply eqb_prop in H. by subst.
  - rewrite !andb_true_iff. intros [[H1 H2] H3].
    apply eqb_prop in H1. apply Pos.eqb_eq in H2. apply Z.eqb_eq in H3. by subst.
Qed.

Lemma unitRange_neg x : unitRange x = true -> unitRange (neg x) = true.
Proof. by destruct x. Qed.

Lemma unitRange_pos p e :
  unitRange (S754_finite false p e) = true -> unitPos (S754_finite false p e).
Proof.
  cbn [unitRange]. rewrite andb_true_iff. intros [Hb Hl].
  right. by exists p, e.
Qed.

Lemma max_unit y z : unitPos y -> unitRange z = true -> unitPos (Math_max y z).
Proof.
  intros [-> | (p & e & -> & Hb & Hl)] Hz.
  - destruct z as [sz| | |sz mz ez]; try done.
    + by left.
    + destruct sz.
      * by left.
      * by apply unitRange_pos.
  - assert (unitPos (S754_finite false p e)) as Hy by (right; by exists p, e).
    destruct z as [sz| | |sz mz ez]; try done.
    unfold Math_max. destruct (lt _ _) eqn:E; [|done].
    destruct sz; [done|]. by apply unitRange_pos.
Qed.

Lemma max_unit_zero x : unitRange x = true -> unitPos (Math_max x (ofZ 0)).
Proof.
  change (ofZ 0) with (S754_zero false).
  destruct x as [s| | |s m e]; try done; intros H.
  - left. cbn. by rewrite andb_false_r.
  - unfold Math_max. destruct (lt _ _) eqn:E; [by left|].
    destruct s; [done|]. by apply unitRange_pos.
Qed.

Lemma ofZ_255 : ofZ 255 = S754_finite false 8972014882652160 (-45).
Proof. reflexivity. Qed.

(** The floor of a positive binary64 number not above 255 is one of the
    integers 0 .. 255. *)
Lemma floor_byte m e :
  bounded prec emax m e = true ->
  lexLe m e 8972014882652160 (-45) ->
  exists k, 0 <= k <= 255 /\ Math_floor (S754_finite false m e) = ofZ k.
Proof.
  intros Hb Hle.
  pose proof (bounded_facts _ _ Hb) as (Hd & He & _).
  pose proof (digits2_bounds m) as Hm.
  assert (Z.pos m < 2 ^ 53) as Hm53.
  { assert (2 ^ Z.pos (digits2_pos m) <= 2 ^ 53) by (apply Z.pow_le_mono_r; lia). lia. }
  assert (e <= -45) as He45 by (destruct Hle as [H | [H _]]; lia).
  exists (Z.pos m / 2 ^ (- e)). split.
  - assert (0 < 2 ^ (- e)) as Hp by (apply Z.pow_pos_nonneg; lia).
    split; [apply Z.div_pos; lia|].
    apply Z.lt_succ_r, Z.div_lt_upper_bound; [done|].
    destruct Hle as [H | [-> H]].
    + assert (2 ^ 46 <= 2 ^ (- e)) by (apply Z.pow_le_mono_r; lia).
      change (2 ^ 53) with (2 ^ 46 * 128) in Hm53. nia.
    + change (2 ^ (- -45)) with 35184372088832. lia.
  - unfold Math_floor. rewrite (proj2 (Z.leb_gt 0 e)) by lia. reflexivity.
Qed.

Lemma byte_of_unit m :
  unitPos m -> exists k, 0 <= k <= 255 /\ Math_floor (mul m (ofZ 255)) = ofZ k.
Proof.
  intros [-> | (p & e & -> & Hb & Hl)].
  - exists 0. split; [lia | by vm_compute].
  - assert (lt (S754_finite false p e) (ofZ 1) = true
            \/ S754_finite false p e = ofZ 1) as [Hlt | ->].
    { change (ofZ 1) with (S754_finite false 4503599627370496 (-52)) in *.
      unfold le, SFleb in Hl. unfold lt, SFltb. cbn [SFcompare] in *.
      destruct (Z.compare_spec e (-52)) as [-> | Hc | Hc]; try done; [|by left].
      rewrite compare_cont_Z in *.
      destruct (Z.compare_spec (Z.pos p) 4503599627370496) as [Hp | Hp | Hp]; try done.
      - right. by injection Hp as ->.
      - by left. }
    + rewrite ofZ_255.
      destruct (mul_below_one p e 8972014882652160 (-45) Hb Hlt eq_refl eq_refl)
        as [-> | (m' & e' & -> & Hb' & Hle)].
      * exists 0. split; [lia | reflexivity].
      * by apply floor_byte.
    + exists 255. split; [lia | by vm_compute].
Qed.

Lemma fade_reaches_white k :
  0 <= k <= 255 ->
  Math_floor (add (ofZ k) (mul (ofZ 1) (sub (ofZ 255) (ofZ k)))) = ofZ 255.
Proof.
  intros Hk. apply sameNumber_eq.
  assert (forallb (fun k => sameNumber
                     (Math_floor (add (ofZ k) (mul (ofZ 1) (sub (ofZ 255) (ofZ k)))))
                     (ofZ 255))
            (seqZ 0 256) = true) as Hall by (vm_compute; reflexivity).
  rewrite forallb_forall in Hall. apply Hall.
  apply list_elem_of_In, elem_of_seqZ. lia.
Qed.

Lemma min_with_100 w :
  ge w (ofZ 100) = true -> Math_min w (ofZ 100) = ofZ 100 /\ lt w (ofZ 0) = false.
Proof.
  change (ofZ 100) with (S754_finite false 7036874417766400 (-46)).
  change (ofZ 0) with (S754_zero false).
  unfold ge, le, SFleb. destruct w as [s|s| |s m e]; try done.
  - destruct s; [done|]. intros _. by split.
  - destruct s; [done|]. intros H. split; [|done].
    unfold Math_min, lt, SFltb.
    destruct (SFcompare _ _) as [[| |]|] eqn:E; try done.
    cbn [SFcompare] in E.
    destruct (Z.compare_spec (-46) e) as [He | Hc | Hc]; try done.
    subst e. rewrite compare_cont_Z in E. injection E as E. apply Pos.compare_eq in E. by subst m.
Qed.

Lemma top_of_scale :
  div (ofZ 100) (ofZ 100) = ofZ 1
  /\ le (ofZ 1) BOUNDARY = false
  /\ div (sub (ofZ 1) BOUNDARY) (sub (ofZ 1) BOUNDARY) = ofZ 1
  /\ isFinite (mul (div (mul (mul (ofZ 1) TAU) (ofZ 5)) (ofZ 6)) (dec 75 2)) = true.
Proof. repeat split; by vm_compute. Qed.

Section WindColourFacts.

Variable Math_sin Math_cos : number -> number.

Hypothesis sin_range : forall x, isFinite x = true -> unitRange (Math_sin x) = true.
Hypothesis cos_range : forall x, isFinite x = true -> unitRange (Math_cos x) = true.

(** The colour at the top of the sinebow has three byte channels. *)
Lemma sinebow_top_bytes alpha :
  exists r g b,
    (0 <= r <= 255 /\ 0 <= g <= 255 /\ 0 <= b <= 255)
    /\ sinebowColor Math_sin Math_cos (ofZ 1) alpha
       = {| cr := ofZ r; cg := ofZ g; cb := ofZ b; ca := alpha |}.
Proof.
  destruct top_of_scale as (_ & _ & _ & Hf).
  unfold sinebowColor. cbv zeta.
  set (rad := mul (div (mul (mul (ofZ 1) TAU) (ofZ 5)) (ofZ 6)) (dec 75 2)) in *.
  pose proof (sin_range rad Hf) as Hs. pose proof (cos_range rad Hf) as Hc.
  destruct (byte_of_unit (Math_max (ofZ 0) (neg (Math_cos rad)))) as (r & Hr & ->).
  { apply max_unit; [by left | by apply unitRange_neg]. }
  destruct (byte_of_unit (Math_max (Math_sin rad) (ofZ 0))) as (g & Hg & ->).
  { by apply max_unit_zero. }
  destruct (byte_of_unit (Math_max (Math_max (Math_cos rad) (ofZ 0)) (neg (Math_sin rad))))
    as (b & Hb & ->).
  { apply max_unit; [by apply max_unit_zero | by apply unitRange_neg]. }
  clear Hf Hs Hc. exists r, g, b. split; [tauto | reflexivity].
Qed.

(** X16.  With a sine and a cosine that stay within [-1, 1] on finite
    arguments, every finite wind speed of 100 m/s or more is drawn pure
    white, (255, 255, 255), with alpha [floor (alpha * 255)]. *)
Theorem fast_wind_is_white windSpeedMs alpha :
  isFinite windSpeedMs = true ->
  ge windSpeedMs (ofZ 100) = true ->
  windSpeedColorScale Math_sin Math_cos windSpeedMs alpha
  = {| cr := ofZ 255; cg := ofZ 255; cb := ofZ 255;
       ca := Math_floor (mul alpha (ofZ 255)) |}.
Proof.
  intros Hf Hge.
  destruct (min_with_100 _ Hge) as [Hmin Hneg].
  destruct top_of_scale as (H1 & H2 & H3 & _).
  unfold windSpeedColorScale. rewrite Hf, Hneg. cbn [negb orb]. cbv zeta.
  rewrite Hmin, H1. unfold extendedSinebowColor. cbv zeta. rewrite H2, H3.
  destruct (sinebow_top_bytes (ofZ 0)) as (r & g & b & (Hr & Hg & Hb) & ->).
  unfold colorInterpolator. cbv zeta. cbn [cr cg cb].
  rewrite !fade_reaches_white by lia. reflexivity.
Qed.

End WindColourFacts.

Lemma fast_wind_is_white_witness :
  windSpeedColorScale constHalf constHalf (ofZ 120) (dec 4 1)
  = {| cr := ofZ 255; cg := ofZ 255; cb := ofZ 255; ca := ofZ 102 |}.
Proof.
  apply (fast_wind_is_white constHalf constHalf
           (fun _ _ => eq_refl) (fun _ _ => eq_refl) (ofZ 120) (dec 4 1));
    reflexivity.
Defined.
